(** * apexJSON: a shallow embedding of the codec and its lexical core

    The development follows the Go sources of the repository:
    - [parser.go]: the lexical primitives of [Parser]
      (skipWhitespace, parseString, parseNumber, matchLiteral, skipValue,
      ExtractString, ExtractNumber, ExtractBool);
    - [apexJSON.go]: Marshal, Unmarshal, Extract, the streaming Decoder,
      escapeMap and writeEscapedStringString;
    - [marshal_unmarshal.go]: marshalValue, unmarshalValue and the setters;
    - the memory-management file: the Buffer type and the buffer pools.

    Conventions.  A Go [byte] is an [ascii] (eight bits).  A Go [[]byte] or
    [string] is a [list byte].  Offsets and lengths are [nat]: in the source
    they are Go [int]s that are never negative and are bounded by the size of
    an allocated slice, so the 64-bit wrap-around is out of reach.  Size hints
    (which a caller may choose freely) are [Z]. *)

From Stdlib Require Import Ascii String ZArith NArith Lia Bool Arith List.
Import ListNotations.

Set Implicit Arguments.
Set Warnings "-register-all,-abstract-large-number".
Local Open Scope char_scope.

(** ** Bytes *)

Definition byte := ascii.

Definition beq (a b : byte) : bool := Ascii.eqb a b.

Definition byteVal (c : byte) : N := N_of_ascii c.

(** [c < k] on bytes, as in the Go comparison [c < 0x20]. *)
Definition bltN (c : byte) (k : N) : bool := N.ltb (byteVal c) k.

Definition cQuote : byte := "034"%char.
Definition cBackslash : byte := "092"%char.
Definition cTab : byte := "009"%char.
Definition cNewline : byte := "010"%char.
Definition cReturn : byte := "013"%char.
Definition cSpace : byte := " "%char.

(** The bytes of a string literal. *)
Definition B (s : string) : list byte := list_ascii_of_string s.

(** Concrete JSON inputs are written with an apostrophe standing for the
    double quote and a caret standing for the backslash. *)
Definition J (s : string) : list byte :=
  map (fun c => if beq c "'"%char then cQuote
                else if beq c "^"%char then cBackslash else c) (B s).

Arguments B s%_string.
Arguments J s%_string.

Fixpoint bytes_eqb (a b : list byte) : bool :=
  match a, b with
  | [], [] => true
  | x :: a', y :: b' => beq x y && bytes_eqb a' b'
  | _, _ => false
  end.

(** Go's slice expression [s[lo:hi]] (for [lo <= hi <= len s]). *)
Definition sub (s : list byte) (lo hi : nat) : list byte :=
  firstn (hi - lo) (skipn lo s).

(** isDigit and isWhitespace of the helpers file. *)
Definition isDigit (c : byte) : bool :=
  N.leb 48 (byteVal c) && N.leb (byteVal c) 57.

Definition isWhitespace (c : byte) : bool :=
  beq c cSpace || beq c cTab || beq c cNewline || beq c cReturn.

(** ** Token types (the iota block of apexJSON.go) *)

Inductive Token : Type :=
| TokenError | TokenObjectStart | TokenObjectEnd | TokenArrayStart
| TokenArrayEnd | TokenString | TokenNumber | TokenBool | TokenNull
| TokenColon | TokenComma.

(** ** Parser state: the input slice and the cursor, nothing else *)

Record Parser : Type := mkParser { data : list byte; pos : nat }.

Definition NewParser (d : list byte) : Parser := mkParser d 0.

(** [p.data[i]], [None] when [i >= len(p.data)]. *)
Definition at_ (d : list byte) (i : nat) : option byte := nth_error d i.

Definition byteIs (d : list byte) (i : nat) (c : byte) : bool :=
  match at_ d i with Some x => beq x c | None => false end.

Definition digitAt (d : list byte) (i : nat) : bool :=
  match at_ d i with Some x => isDigit x | None => false end.

Definition advance (p : Parser) (n : nat) : Parser :=
  mkParser (data p) (pos p + n).

(** *** skipWhitespace *)

Fixpoint wsRun (l : list byte) : nat :=
  match l with
  | c :: l' => if isWhitespace c then S (wsRun l') else 0
  | [] => 0
  end.

Definition skipWhitespace (p : Parser) : Parser :=
  advance p (wsRun (skipn (pos p) (data p))).

(** *** parseString

    The loop of parseString over the bytes that follow the opening quote:
    a backslash consumes two bytes, a quote ends the string.  [i] is the
    offset of the head of [l]; the result is the success flag and the final
    offset (which is [len+1] after a dangling backslash). *)

Fixpoint scanString (l : list byte) (i : nat) {struct l} : bool * nat :=
  match l with
  | [] => (false, i)
  | c :: l' =>
      if beq c cBackslash then
        match l' with
        | [] => (false, i + 2)
        | _ :: l'' => scanString l'' (i + 2)
        end
      else if beq c cQuote then (true, i + 1)
      else scanString l' (i + 1)
  end.

Definition parseString (p : Parser) : Token * list byte * Parser :=
  match at_ (data p) (pos p) with
  | None => (TokenError, [], p)
  | Some c =>
      if beq c cQuote then
        let start := pos p in
        let '(ok, e) := scanString (skipn (S start) (data p)) (S start) in
        if ok
        then (TokenString, sub (data p) (start + 1) (e - 1), mkParser (data p) e)
        else (TokenError, [], mkParser (data p) e)
      else (TokenError, [], p)
  end.

(** *** parseNumber *)

Fixpoint digitRun (l : list byte) : nat :=
  match l with
  | c :: l' => if isDigit c then S (digitRun l') else 0
  | [] => 0
  end.

(** [for p.pos < len(p.data) && isDigit(p.data[p.pos]) { p.pos++ }] *)
Definition skipDigits (d : list byte) (i : nat) : nat :=
  i + digitRun (skipn i d).

Definition numFail (d : list byte) (i : nat) : Token * list byte * Parser :=
  (TokenError, [], mkParser d i).

(** The exponent part and the final return of parseNumber. *)
Definition numExponent (d : list byte) (start i : nat)
  : Token * list byte * Parser :=
  if byteIs d i "e"%char || byteIs d i "E"%char then
    let j := S i in
    let j := if byteIs d j "+"%char || byteIs d j "-"%char then S j else j in
    if digitAt d j
    then let e := skipDigits d j in (TokenNumber, sub d start e, mkParser d e)
    else numFail d j
  else (TokenNumber, sub d start i, mkParser d i).

Definition parseNumber (p : Parser) : Token * list byte * Parser :=
  let d := data p in
  let start := pos p in
  let i := if byteIs d start "-"%char then S start else start in
  if digitAt d i then
    let i := skipDigits d (S i) in
    if byteIs d i "."%char then
      if digitAt d (S i)
      then numExponent d start (skipDigits d (S i))
      else numFail d (S i)
    else numExponent d start i
  else numFail d i.

(** *** matchLiteral *)

Definition matchLiteral (p : Parser) (literal : list byte) : bool * Parser :=
  if Nat.leb (pos p + length literal) (length (data p))
     && bytes_eqb (sub (data p) (pos p) (pos p + length literal)) literal
  then (true, advance p (length literal))
  else (false, p).

(** *** skipValue

    The Go function recurses on nested values and loops over the entries of
    an object or an array.  Each call and each loop iteration spends one unit
    of fuel; [None] is "out of fuel". *)

Definition isNumberStart (c : byte) : bool := beq c "-"%char || isDigit c.

Fixpoint skipValueF (fuel : nat) (p : Parser) : option (bool * Parser) :=
  match fuel with
  | 0 => None
  | S f =>
      let p := skipWhitespace p in
      match at_ (data p) (pos p) with
      | None => Some (false, p)
      | Some c =>
          if beq c "{"%char then skipObjectF f (advance p 1)
          else if beq c "["%char then skipArrayF f (advance p 1)
          else if beq c cQuote then
            let '(t, _, p') := parseString p in
            Some (match t with TokenString => true | _ => false end, p')
          else if beq c "t"%char then Some (matchLiteral p (B "true"))
          else if beq c "f"%char then Some (matchLiteral p (B "false"))
          else if beq c "n"%char then Some (matchLiteral p (B "null"))
          else if isNumberStart c then
            let '(t, _, p') := parseNumber p in
            Some (match t with TokenNumber => true | _ => false end, p')
          else Some (false, p)
      end
  end

with skipObjectF (fuel : nat) (p : Parser) : option (bool * Parser) :=
  match fuel with
  | 0 => None
  | S f =>
      let p := skipWhitespace p in
      match at_ (data p) (pos p) with
      | None => Some (false, p)
      | Some c =>
          if beq c "}"%char then Some (true, advance p 1)
          else if beq c ","%char then skipObjectF f (advance p 1)
          else
            let '(t, _, p1) := parseString p in
            match t with
            | TokenString =>
                let p2 := skipWhitespace p1 in
                if byteIs (data p2) (pos p2) ":"%char then
                  match skipValueF f (advance p2 1) with
                  | Some (true, p3) => skipObjectF f p3
                  | Some (false, p3) => Some (false, p3)
                  | None => None
                  end
                else Some (false, p2)
            | _ => Some (false, p1)
            end
      end
  end

with skipArrayF (fuel : nat) (p : Parser) : option (bool * Parser) :=
  match fuel with
  | 0 => None
  | S f =>
      let p := skipWhitespace p in
      match at_ (data p) (pos p) with
      | None => Some (false, p)
      | Some c =>
          if beq c "]"%char then Some (true, advance p 1)
          else if beq c ","%char then skipArrayF f (advance p 1)
          else
            match skipValueF f p with
            | Some (true, p3) => skipArrayF f p3
            | Some (false, p3) => Some (false, p3)
            | None => None
            end
      end
  end.

(** Fuel that always suffices (see [skipFamily_total]): every iteration that
    does not return consumes a byte, and every nested call follows one. *)
Definition skipFuel (p : Parser) : nat := 2 * (length (data p) - pos p) + 2.

Definition skipValue (p : Parser) : option (bool * Parser) :=
  skipValueF (skipFuel p) p.

(** *** ExtractString, ExtractBool, ExtractNumber

    GetString is an unsafe cast of a byte slice to a string: the identity on
    the contents. *)

Definition GetString (b : list byte) : list byte := b.

(** The scanning loop of ExtractString from the byte after the opening quote:
    it stops at the first backslash ([inl]) or at the first quote ([inr] with
    its offset), or runs off the end ([None]). *)
Fixpoint extractScan (l : list byte) (i : nat) : option (unit + nat) :=
  match l with
  | [] => None
  | c :: l' =>
      if beq c cBackslash then Some (inl tt)
      else if beq c cQuote then Some (inr i)
      else extractScan l' (i + 1)
  end.

(** [None] is the run-time panic of [p.data[p.pos]] with the cursor at or
    past the end of the input. *)
Definition ExtractString (p : Parser) : option (list byte * bool * Parser) :=
  let start := pos p in
  match at_ (data p) start with
  | None => None
  | Some c =>
      if negb (beq c cQuote) then Some ([], false, p)
      else
        let startContent := S start in
        match extractScan (skipn startContent (data p)) startContent with
        | Some (inl _) =>
            let '(t, value, p') := parseString (mkParser (data p) start) in
            match t with
            | TokenString => Some (GetString value, true, p')
            | _ => Some ([], false, p')
            end
        | Some (inr q) =>
            Some (GetString (sub (data p) startContent q), true,
                  mkParser (data p) (S q))
        | None => Some ([], false, mkParser (data p) start)
        end
  end.

Definition ExtractBool (p : Parser) : bool * bool * Parser :=
  let p := skipWhitespace p in
  match at_ (data p) (pos p) with
  | None => (false, false, p)
  | Some c =>
      if beq c "t"%char then
        let '(ok, p') := matchLiteral p (B "true") in
        if ok then (true, true, p') else (false, false, p')
      else if beq c "f"%char then
        let '(ok, p') := matchLiteral p (B "false") in
        if ok then (false, true, p') else (false, false, p')
      else (false, false, p)
  end.

(** strconv.ParseFloat belongs to the Go library, not to this repository:
    the float type and the conversion are parameters. *)
Section Floats.

Variable float : Type.
Variable floatZero : float.
(** [ParseFloat s bitSize]; [None] is a conversion error. *)
Variable ParseFloat : list byte -> Z -> option float.

Definition ExtractNumber (p : Parser) : float * bool * Parser :=
  let '(t, value, p') := parseNumber p in
  match t with
  | TokenNumber =>
      match ParseFloat (GetString value) 64 with
      | Some n => (n, true, p')
      | None => (floatZero, false, p')
      end
  | _ => (floatZero, false, p')
  end.

End Floats.

(** *** ValueType *)

Definition ValueType (p : Parser) : Token * Parser :=
  let p := skipWhitespace p in
  match at_ (data p) (pos p) with
  | None => (TokenError, p)
  | Some c =>
      (if beq c "{"%char then TokenObjectStart
       else if beq c "}"%char then TokenObjectEnd
       else if beq c "["%char then TokenArrayStart
       else if beq c "]"%char then TokenArrayEnd
       else if beq c cQuote then TokenString
       else if beq c "t"%char || beq c "f"%char then TokenBool
       else if beq c "n"%char then TokenNull
       else if isNumberStart c then TokenNumber
       else if beq c ":"%char then TokenColon
       else if beq c ","%char then TokenComma
       else TokenError, p)
  end.

(** ** The path extractor

    Extract returns a slice of its argument.  A returned slice is described
    by what it shares with the input: [Whole] is the caller's slice value
    itself, [Window lo hi] is the re-slice [p.data[lo:hi]] of it, and
    [NilSlice] is Go's nil.  No constructor stands for a fresh copy: Extract
    has no allocation site for its result. *)

Inductive SliceRef : Type :=
| NilSlice
| Whole
| Window (lo hi : nat).

Definition bytesOf (input : list byte) (r : SliceRef) : list byte :=
  match r with
  | NilSlice => []
  | Whole => input
  | Window lo hi => sub input lo hi
  end.

(** The inner loop of Extract over the entries of one object.  The result is
    [inl p] when the wanted key was found (cursor after the colon) and
    [inr tt] for every [return nil, false]. *)
Fixpoint extractFind (fuel : nat) (segment : list byte) (p : Parser)
  : option (Parser + unit) :=
  match fuel with
  | 0 => None
  | S f =>
      let p := skipWhitespace p in
      match at_ (data p) (pos p) with
      | None => Some (inr tt)
      | Some c =>
          if beq c "}"%char then Some (inr tt)
          else
            let '(t, keyBytes, p1) := parseString p in
            match t with
            | TokenString =>
                let key := GetString keyBytes in
                let p2 := skipWhitespace p1 in
                if byteIs (data p2) (pos p2) ":"%char then
                  let p3 := advance p2 1 in
                  if bytes_eqb key segment then Some (inl p3)
                  else
                    match skipValue p3 with
                    | None => None
                    | Some (false, _) => Some (inr tt)
                    | Some (true, p4) =>
                        let p5 := skipWhitespace p4 in
                        match at_ (data p5) (pos p5) with
                        | None => Some (inr tt)
                        | Some c' =>
                            if beq c' "}"%char then Some (inr tt)
                            else if negb (beq c' ","%char) then Some (inr tt)
                            else extractFind f segment (advance p5 1)
                        end
                    end
                else Some (inr tt)
            | _ => Some (inr tt)
            end
      end
  end.

(** The loop over the path segments.  [path] is the part of the path not yet
    consumed, so that [len(path) == 1] is "this is the last segment". *)
Fixpoint extractPath (path : list (list byte)) (p : Parser)
  : option (SliceRef * bool) :=
  match path with
  | [] => Some (NilSlice, false)
  | segment :: rest =>
      let p := skipWhitespace p in
      match at_ (data p) (pos p) with
      | None => Some (NilSlice, false)
      | Some c =>
          if negb (beq c "{"%char) then Some (NilSlice, false)
          else
            match extractFind (S (length (data p))) segment (advance p 1) with
            | None => None
            | Some (inr _) => Some (NilSlice, false)
            | Some (inl p1) =>
                match rest with
                | [] =>
                    let p2 := skipWhitespace p1 in
                    let start := pos p2 in
                    match skipValue p2 with
                    | None => None
                    | Some (false, _) => Some (NilSlice, false)
                    | Some (true, p3) => Some (Window start (pos p3), true)
                    end
                | _ :: _ => extractPath rest p1
                end
            end
      end
  end.

Definition Extract (input : list byte) (path : list (list byte))
  : option (SliceRef * bool) :=
  match path with
  | [] => Some (Whole, true)
  | _ :: _ => extractPath path (skipWhitespace (NewParser input))
  end.


(** ** Notions used to state the properties of the parser *)

(** [follows p p']: [p'] is a later state of the same parse as [p]. *)
Definition follows (p p' : Parser) : Prop :=
  data p' = data p /\ pos p <= pos p'.

(** The unfolding equations of the skip family. *)

Definition skipValueBody (f : nat) (p : Parser) : option (bool * Parser) :=
  match at_ (data p) (pos p) with
  | None => Some (false, p)
  | Some c =>
      if beq c "{" then skipObjectF f (advance p 1)
      else if beq c "[" then skipArrayF f (advance p 1)
      else if beq c cQuote then
        let '(t, _, p') := parseString p in
        Some (match t with TokenString => true | _ => false end, p')
      else if beq c "t" then Some (matchLiteral p (B "true"))
      else if beq c "f" then Some (matchLiteral p (B "false"))
      else if beq c "n" then Some (matchLiteral p (B "null"))
      else if isNumberStart c then
        let '(t, _, p') := parseNumber p in
        Some (match t with TokenNumber => true | _ => false end, p')
      else Some (false, p)
  end.

Definition skipObjectBody (f : nat) (p : Parser) : option (bool * Parser) :=
  match at_ (data p) (pos p) with
  | None => Some (false, p)
  | Some c =>
      if beq c "}" then Some (true, advance p 1)
      else if beq c "," then skipObjectF f (advance p 1)
      else
        let '(t, _, p1) := parseString p in
        match t with
        | TokenString =>
            let p2 := skipWhitespace p1 in
            if byteIs (data p2) (pos p2) ":" then
              match skipValueF f (advance p2 1) with
              | Some (true, p3) => skipObjectF f p3
              | Some (false, p3) => Some (false, p3)
              | None => None
              end
            else Some (false, p2)
        | _ => Some (false, p1)
        end
  end.

Definition skipArrayBody (f : nat) (p : Parser) : option (bool * Parser) :=
  match at_ (data p) (pos p) with
  | None => Some (false, p)
  | Some c =>
      if beq c "]" then Some (true, advance p 1)
      else if beq c "," then skipArrayF f (advance p 1)
      else
        match skipValueF f p with
        | Some (true, p3) => skipArrayF f p3
        | Some (false, p3) => Some (false, p3)
        | None => None
        end
  end.

(** What one call of the skip family guarantees about its final state. *)
Definition skipPost (p : Parser) (r : option (bool * Parser)) : Prop :=
  forall b p', r = Some (b, p') ->
    follows p p' /\ (b = true -> pos p < pos p').

Definition remaining (p : Parser) : nat := length (data p) - pos p.


(** ** Well-formed JSON texts

    The notion of well-formed value of the specification: the grammar of
    RFC 8259.  It is not taken from the code; the statements about skipValue
    and parseNumber compare the code with it.  The grammar is written as
    syntax trees that keep their layout (insignificant whitespace, the
    spelling of numbers and of string escapes) together with the function
    that renders a tree to its text.  The well-formed values are the
    renderings of the trees that pass [wfJson]; a value nested at any depth
    is a subtree. *)

Definition allWs (w : list byte) : bool := forallb isWhitespace w.

Definition allDigits (ds : list byte) : bool := forallb isDigit ds.

Definition nonEmpty (l : list byte) : bool :=
  match l with [] => false | _ :: _ => true end.

(** A number: optional minus, integer part, optional fraction digits,
    optional exponent (marker, sign bytes, digits). *)
Record NumText : Type := mkNum {
  numNeg : bool;
  numInt : list byte;
  numFrac : option (list byte);
  numExp : option (byte * list byte * list byte)
}.

(** [0], or a nonzero digit followed by digits. *)
Definition wfInt (i : list byte) : bool :=
  match i with
  | [] => false
  | d :: ds =>
      isDigit d && allDigits ds && (negb (beq d "0") || negb (nonEmpty ds))
  end.

Definition wfFrac (f : option (list byte)) : bool :=
  match f with
  | None => true
  | Some ds => nonEmpty ds && allDigits ds
  end.

Definition wfSign (s : list byte) : bool :=
  match s with
  | [] => true
  | [c] => beq c "+" || beq c "-"
  | _ => false
  end.

Definition wfExp (e : option (byte * list byte * list byte)) : bool :=
  match e with
  | None => true
  | Some (m, s, ds) =>
      (beq m "e" || beq m "E") && wfSign s && nonEmpty ds && allDigits ds
  end.

Definition wfNum (n : NumText) : bool :=
  wfInt (numInt n) && wfFrac (numFrac n) && wfExp (numExp n).

Definition renderFrac (f : option (list byte)) : list byte :=
  match f with None => [] | Some ds => "."%char :: ds end.

Definition renderExp (e : option (byte * list byte * list byte)) : list byte :=
  match e with None => [] | Some (m, s, ds) => m :: s ++ ds end.

Definition renderNum (n : NumText) : list byte :=
  (if numNeg n then ["-"%char] else [])
  ++ numInt n ++ renderFrac (numFrac n) ++ renderExp (numExp n).

(** The items of a string: an unescaped byte, a two-byte escape, or a
    [\uXXXX] escape. *)
Inductive StrItem : Type :=
| SPlain (c : byte)
| SEsc (c : byte)
| SUni (h1 h2 h3 h4 : byte).

Definition isHex (c : byte) : bool :=
  isDigit c
  || (N.leb 97 (byteVal c) && N.leb (byteVal c) 102)
  || (N.leb 65 (byteVal c) && N.leb (byteVal c) 70).

Definition isEscapeLetter (c : byte) : bool :=
  beq c cQuote || beq c cBackslash || beq c "/" || beq c "b" || beq c "f"
  || beq c "n" || beq c "r" || beq c "t".

Definition wfItem (it : StrItem) : bool :=
  match it with
  | SPlain c => negb (beq c cQuote) && negb (beq c cBackslash)
                && negb (bltN c 32)
  | SEsc c => isEscapeLetter c
  | SUni h1 h2 h3 h4 => isHex h1 && isHex h2 && isHex h3 && isHex h4
  end.

Definition renderItem (it : StrItem) : list byte :=
  match it with
  | SPlain c => [c]
  | SEsc c => [cBackslash; c]
  | SUni h1 h2 h3 h4 => [cBackslash; "u"%char; h1; h2; h3; h4]
  end.

Definition renderItems (s : list StrItem) : list byte :=
  flat_map renderItem s.

Definition renderString (s : list StrItem) : list byte :=
  cQuote :: renderItems s ++ [cQuote].

Definition wfString (s : list StrItem) : bool := forallb wfItem s.

(** Values.  An array is [[ ws elements ]], each element carrying the
    whitespace before and after it; an object is [{ ws members }], each member
    being [ws key ws : ws value ws]. *)
Inductive Json : Type :=
| JNull
| JTrue
| JFalse
| JNumber (n : NumText)
| JString (s : list StrItem)
| JArray (w : list byte) (es : Elems)
| JObject (w : list byte) (ms : Members)
with Elems : Type :=
| ENil
| ECons (wb : list byte) (v : Json) (wa : list byte) (more : Elems)
with Members : Type :=
| MNil
| MCons (wb : list byte) (key : list StrItem) (wk wv : list byte) (v : Json)
        (wa : list byte) (more : Members).

Fixpoint render (j : Json) : list byte :=
  match j with
  | JNull => B "null"
  | JTrue => B "true"
  | JFalse => B "false"
  | JNumber n => renderNum n
  | JString s => renderString s
  | JArray w es => "["%char :: w ++ renderElems es ++ ["]"%char]
  | JObject w ms => "{"%char :: w ++ renderMembers ms ++ ["}"%char]
  end
with renderElems (es : Elems) : list byte :=
  match es with
  | ENil => []
  | ECons wb v wa more =>
      wb ++ render v ++ wa
      ++ match more with
         | ENil => []
         | ECons _ _ _ _ => ","%char :: renderElems more
         end
  end
with renderMembers (ms : Members) : list byte :=
  match ms with
  | MNil => []
  | MCons wb key wk wv v wa more =>
      wb ++ renderString key ++ wk ++ ":"%char :: wv ++ render v ++ wa
      ++ match more with
         | MNil => []
         | MCons _ _ _ _ _ _ _ => ","%char :: renderMembers more
         end
  end.

Fixpoint wfJson (j : Json) : bool :=
  match j with
  | JNull | JTrue | JFalse => true
  | JNumber n => wfNum n
  | JString s => wfString s
  | JArray w es => allWs w && wfElems es
  | JObject w ms => allWs w && wfMembers ms
  end
with wfElems (es : Elems) : bool :=
  match es with
  | ENil => true
  | ECons wb v wa more => allWs wb && wfJson v && allWs wa && wfElems more
  end
with wfMembers (ms : Members) : bool :=
  match ms with
  | MNil => true
  | MCons wb key wk wv v wa more =>
      allWs wb && wfString key && allWs wk && allWs wv && wfJson v
      && allWs wa && wfMembers more
  end.

(** What may follow a value for the cursor to stop right after it: the end of
    the input, or any byte that does not continue a number (in a JSON text a
    value is followed by whitespace, a comma or a closing bracket). *)
Definition endsValue (suf : list byte) : bool :=
  match suf with
  | [] => true
  | c :: _ => negb (isDigit c || beq c "." || beq c "e" || beq c "E")
  end.

(** Only a number needs that: every other value ends with a byte of its
    own. *)
Definition followOK (j : Json) (suf : list byte) : bool :=
  match j with
  | JNumber _ => endsValue suf
  | _ => true
  end.

(** [l] does not start with whitespace, or with a digit. *)
Definition noWsHead (l : list byte) : Prop :=
  match l with [] => True | c :: _ => isWhitespace c = false end.

Definition noDigitHead (l : list byte) : Prop :=
  match l with [] => True | c :: _ => isDigit c = false end.

(** The unread part of the input. *)
Definition rest (p : Parser) : list byte := skipn (pos p) (data p).

Scheme Json_mut := Induction for Json Sort Prop
  with Elems_mut := Induction for Elems Sort Prop
  with Members_mut := Induction for Members Sort Prop.
Combined Scheme Json_mutind from Json_mut, Elems_mut, Members_mut.

(** The first byte of a value: what the dispatch of skipValue looks at. *)
Definition isValueStart (c : byte) : bool :=
  beq c "{" || beq c "[" || beq c cQuote || beq c "t" || beq c "f"
  || beq c "n" || isNumberStart c.

(** The separator before the remaining elements (members) of a container. *)
Definition sepElems (more : Elems) : list byte :=
  match more with
  | ENil => []
  | ECons _ _ _ _ => ","%char :: renderElems more
  end.

Definition sepMembers (more : Members) : list byte :=
  match more with
  | MNil => []
  | MCons _ _ _ _ _ _ _ => ","%char :: renderMembers more
  end.

(** The three statements proved together, one per syntactic class: a run of
    the skip family that returns on a well-formed text returns [true] with
    the cursor right after that text.  [w0] is whitespace in front of it. *)
Definition skipsValue (j : Json) : Prop :=
  forall w0 fuel p suf b p',
    allWs w0 = true -> followOK j suf = true ->
    rest p = w0 ++ render j ++ suf ->
    skipValueF fuel p = Some (b, p') ->
    b = true /\ p' = advance p (length w0 + length (render j)).

Definition skipsElems (es : Elems) : Prop :=
  forall w0 fuel p suf b p',
    allWs w0 = true ->
    rest p = w0 ++ renderElems es ++ "]"%char :: suf ->
    skipArrayF fuel p = Some (b, p') ->
    b = true /\ p' = advance p (length w0 + length (renderElems es) + 1).

Definition skipsMembers (ms : Members) : Prop :=
  forall w0 fuel p suf b p',
    allWs w0 = true ->
    rest p = w0 ++ renderMembers ms ++ "}"%char :: suf ->
    skipObjectF fuel p = Some (b, p') ->
    b = true /\ p' = advance p (length w0 + length (renderMembers ms) + 1).

(** A sample document, with its syntax tree. *)
Definition sampleInput : list byte := J "  {'k': [-10.5, 'a^'b',{ }]} 1".

Definition sampleValue : Json :=
  JObject []
    (MCons [] [SPlain "k"] [] [" "%char]
       (JArray []
          (ECons [] (JNumber (mkNum true (B "10") (Some (B "5")) None)) []
          (ECons [" "%char] (JString [SPlain "a"; SEsc cQuote; SPlain "b"]) []
          (ECons [] (JObject [" "%char] MNil) [] ENil))))
       [] MNil).

(** * The pooled byte buffer

    A Go slice is a window on a backing array.  [buf] is the window
    [b.buf[0:len]] and [spare] is the part of the backing array between the
    length and the capacity, so that every value of the record is a legal
    slice ([len <= cap]).  [off] is the write offset.  An operation returns
    [None] where the Go code panics (a slice bound or an index out of range). *)

Record Buffer : Type := mkBuffer {
  buf : list byte;
  spare : list byte;
  off : nat
}.

Definition cap (b : Buffer) : nat := length (buf b) + length (spare b).

Definition zeroByte : byte := "000".

(** [&Buffer{buf: make([]byte, 0, c)}] *)
Definition newBuffer (c : nat) : Buffer := mkBuffer [] (repeat zeroByte c) 0.

(** [b.buf = b.buf[:n]] for [n <= cap]. *)
Definition reslice (b : Buffer) (n : nat) : Buffer :=
  mkBuffer (firstn n (buf b ++ spare b)) (skipn n (buf b ++ spare b)) (off b).

(** [copy(dst[at:], src)] for [at <= len dst]: the updated [dst] and the
    number of bytes copied, the smaller of the room and of [len src]. *)
Definition copyAt (dst : list byte) (at' : nat) (src : list byte)
  : list byte * nat :=
  let n := Nat.min (length dst - at') (length src) in
  (firstn at' dst ++ firstn n src ++ skipn (at' + n) dst, n).

(** *** grow *)

(** [for newCap < needed { newCap <<= 1 }]; the fuel is an upper bound of
    the number of doublings. *)
Fixpoint doubleUntil (fuel : nat) (c needed : N) : N :=
  match fuel with
  | 0 => c
  | S f => if N.ltb c needed then doubleUntil f (N.shiftl c 1) needed else c
  end.

(** The rounding of the branch for capacities below 512. *)
Definition roundSmall (c : N) : N :=
  let c := N.pred c in
  let c := N.lor c (N.shiftr c 1) in
  let c := N.lor c (N.shiftr c 2) in
  let c := N.lor c (N.shiftr c 4) in
  let c := N.lor c (N.shiftr c 8) in
  N.succ c.

Definition maxBufferSize : N := 32 * 1024 * 1024.

Definition growCap (curCap needed : nat) : nat :=
  let cur := N.of_nat curCap in
  let need := N.of_nat needed in
  let newCap :=
    if N.eqb cur 0 then doubleUntil needed 64 need
    else if N.ltb cur 512 then roundSmall (N.max (cur * 4) need)
    else if N.ltb cur 8192 then N.max (cur * 2) need
    else N.max (cur + cur / 2) need in
  let newCap :=
    if N.ltb maxBufferSize newCap && N.leb need maxBufferSize
    then maxBufferSize else newCap in
  N.to_nat newCap.

Definition grow (b : Buffer) (n : nat) : option Buffer :=
  let needed := off b + n in
  if Nat.leb needed (cap b) then Some (reslice b needed)
  else if Nat.ltb (cap b) (off b) then None (* b.buf[:b.off] *)
  else
    let newCap := growCap (cap b) needed in
    if Nat.ltb newCap needed then None (* make: len larger than cap *)
    else
      Some (mkBuffer
              (firstn (off b) (buf b ++ spare b)
               ++ repeat zeroByte (needed - off b))
              (repeat zeroByte (newCap - needed))
              (off b)).

(** *** The writers *)

(** [copy(b.buf[b.off:], src)]: the buffer after the copy and the count. *)
Definition copyIn (b : Buffer) (src : list byte) : option (Buffer * nat) :=
  if Nat.ltb (length (buf b)) (off b) then None (* b.buf[b.off:] *)
  else
    let '(dst, n) := copyAt (buf b) (off b) src in
    Some (mkBuffer dst (spare b) (off b), n).

(** [b.off += copy(b.buf[b.off:], src)] *)
Definition copyAdvance (b : Buffer) (src : list byte) : option (Buffer * nat) :=
  match copyIn b src with
  | Some (b', n) => Some (mkBuffer (buf b') (spare b') (off b' + n), n)
  | None => None
  end.

(** Write: grow, copy at the offset, and return; the offset is not touched. *)
Definition Write (b : Buffer) (p : list byte) : option (Buffer * nat) :=
  match grow b (length p) with
  | Some b1 => copyIn b1 p
  | None => None
  end.

Definition WriteByte (b : Buffer) (c : byte) : option Buffer :=
  match grow b 1 with
  | Some b1 =>
      if Nat.leb (length (buf b1)) (off b1) then None (* b.buf[b.off] *)
      else Some (mkBuffer (firstn (off b1) (buf b1) ++ c :: skipn (S (off b1)) (buf b1))
                          (spare b1) (S (off b1)))
  | None => None
  end.

Definition WriteString (b : Buffer) (s : list byte) : option (Buffer * nat) :=
  match (if Nat.ltb (cap b) (off b + length s) then grow b (length s)
         else Some b) with
  | Some b1 => copyAdvance b1 s
  | None => None
  end.

Definition Reset (b : Buffer) : Buffer :=
  mkBuffer [] (buf b ++ spare b) 0.

(** [b.buf[b.off:]] *)
Definition Bytes (b : Buffer) : option (list byte) :=
  if Nat.ltb (length (buf b)) (off b) then None
  else Some (skipn (off b) (buf b)).

(** What Marshal hands back: [copy(make([]byte, off), b.buf[:b.off])]. *)
Definition copyOut (b : Buffer) : option (list byte) :=
  if Nat.ltb (cap b) (off b) then None
  else Some (firstn (off b) (buf b ++ spare b)).

(** A buffer holding [ab], with four spare bytes. *)
Definition sampleBuffer : Buffer := mkBuffer (B "ab") (B "....") 2.

(** * The buffer pools

    A sync.Pool hands out any buffer put into it earlier, or a new one from
    its New function.  The model keeps each pool as a list and hands out the
    head. *)

Record Pools : Type := mkPools {
  tinyBuffers : list Buffer;
  smallBuffers : list Buffer;
  mediumBuffers : list Buffer;
  largeBuffers : list Buffer
}.

Definition poolGet (pool : list Buffer) (new : Buffer)
  : Buffer * list Buffer :=
  match pool with
  | b :: more => (b, more)
  | [] => (new, [])
  end.

Definition emptyPools : Pools := mkPools [] [] [] [].

(** WarmupPools, run by init on the empty pools. *)
Definition WarmupPools (pl : Pools) : Pools :=
  mkPools (repeat (newBuffer 64) 32 ++ tinyBuffers pl)
          (repeat (newBuffer 256) 32 ++ smallBuffers pl)
          (repeat (newBuffer 1024) 32 ++ mediumBuffers pl)
          (repeat (newBuffer 4096) 4 ++ largeBuffers pl).

Definition initialPools : Pools := WarmupPools emptyPools.

(** Go's int is 64 bits wide, two's complement. *)
Definition wrap64 (z : Z) : Z :=
  ((z + 2 ^ 63) mod 2 ^ 64 - 2 ^ 63)%Z.

(** The rounding of the size hint in the large branch of getBufferSize. *)
Definition roundHint (sizeHint : Z) : Z :=
  let s := wrap64 (sizeHint - 1) in
  let s := Z.lor s (Z.shiftr s 1) in
  let s := Z.lor s (Z.shiftr s 2) in
  let s := Z.lor s (Z.shiftr s 4) in
  let s := Z.lor s (Z.shiftr s 8) in
  let s := Z.lor s (Z.shiftr s 16) in
  wrap64 (s + 1).

(** [(sizeHint + 4095) &^ 4095] *)
Definition alignPage (s : Z) : Z :=
  Z.land (wrap64 (s + 4095)) (Z.lnot 4095).

(** [None] is the panic of make on a negative capacity. *)
Definition getBufferSize (sizeHint : Z) (pl : Pools) : option (Buffer * Pools) :=
  let picked :=
    if (sizeHint <=? 64)%Z then
      let '(b, more) := poolGet (tinyBuffers pl) (newBuffer 64) in
      Some (b, mkPools more (smallBuffers pl) (mediumBuffers pl) (largeBuffers pl))
    else if (sizeHint <=? 256)%Z then
      let '(b, more) := poolGet (smallBuffers pl) (newBuffer 256) in
      Some (b, mkPools (tinyBuffers pl) more (mediumBuffers pl) (largeBuffers pl))
    else if (sizeHint <=? 4096)%Z then
      let '(b, more) := poolGet (mediumBuffers pl) (newBuffer 1024) in
      Some (b, mkPools (tinyBuffers pl) (smallBuffers pl) more (largeBuffers pl))
    else
      let s := roundHint sizeHint in
      if (65536 <? s)%Z then
        let alignedSize := alignPage s in
        if (alignedSize <? 0)%Z then None
        else Some (newBuffer (Z.to_nat alignedSize), pl)
      else
        let '(b, more) := poolGet (largeBuffers pl) (newBuffer 4096) in
        let b := if (Z.of_nat (cap b) <? s)%Z
                 then mkBuffer [] (repeat zeroByte (Z.to_nat s)) (off b)
                 else b in
        Some (b, mkPools (tinyBuffers pl) (smallBuffers pl) (mediumBuffers pl) more)
  in
  match picked with
  | Some (b, pl') => Some (mkBuffer [] (buf b ++ spare b) 0, pl')
  | None => None
  end.

Definition getBuffer (pl : Pools) : option (Buffer * Pools) :=
  getBufferSize 256 pl.

(** 64 KiB, the largest capacity that is pooled. *)
Definition poolLimit : nat := 64 * 1024.

(** putBuffer on a non-nil buffer. *)
Definition putBuffer (b : Buffer) (pl : Pools) : Pools :=
  if Nat.ltb poolLimit (cap b) then pl
  else
    let b := Reset b in
    if Nat.leb (cap b) 64 then
      mkPools (b :: tinyBuffers pl) (smallBuffers pl) (mediumBuffers pl) (largeBuffers pl)
    else if Nat.leb (cap b) 256 then
      mkPools (tinyBuffers pl) (b :: smallBuffers pl) (mediumBuffers pl) (largeBuffers pl)
    else if Nat.leb (cap b) 4096 then
      mkPools (tinyBuffers pl) (smallBuffers pl) (b :: mediumBuffers pl) (largeBuffers pl)
    else
      mkPools (tinyBuffers pl) (smallBuffers pl) (mediumBuffers pl) (b :: largeBuffers pl).

(** AppendBuffers of the memory-management file. *)
Fixpoint writeAll (b : Buffer) (buffers : list (list byte)) : option Buffer :=
  match buffers with
  | [] => Some b
  | x :: more =>
      match Write b x with
      | Some (b', _) => writeAll b' more
      | None => None
      end
  end.

Definition AppendBuffers (buffers : list (list byte)) (pl : Pools)
  : option (list byte * Pools) :=
  match buffers with
  | [] => Some ([], pl)
  | [x] => Some (x, pl)
  | _ =>
      let totalSize := fold_left (fun acc x => acc + length x) buffers 0 in
      match getBufferSize (Z.of_nat totalSize) pl with
      | Some (b, pl1) =>
          match writeAll b buffers with
          | Some b' =>
              match copyOut b' with
              | Some result => Some (result, putBuffer b' pl1)
              | None => None
              end
          | None => None
          end
      | None => None
      end
  end.

(** * The marshaller *)

(** ** Go types and errors *)

(** The destination and source types of the embedded fragment.  Composite
    records (Go structs), timestamps and types with custom (un)marshallers
    are outside it. *)
Inductive GoType : Type :=
| TBool
| TInt (bits : Z)
| TUint (bits : Z)
| TFloat (bits : Z)
| TString
| TPtr (elem : GoType)
| TInterface (numMethod : nat)
| TSlice (elem : GoType)
| TArray (len : nat) (elem : GoType)
| TMap (key elem : GoType).

Inductive GoError : Type :=
| SyntaxError (offset : nat) (msg : string)
| UnmarshalTypeError (value : list byte) (ty : GoType) (offset : nat)
| EOF
| Errorf (msg : string)
(** [fmt.Errorf("json syntax error at offset %d: %s", offset, msg)] *)
| ErrorfSyntax (offset : nat) (msg : string).

Arguments SyntaxError offset%_nat msg%_string.
Arguments Errorf msg%_string.
Arguments ErrorfSyntax offset%_nat msg%_string.

(** ** escapeMap and the escaping writer *)

(** The table [escapeMap]: its five entries; every other entry is nil. *)
Definition escapeMap (c : byte) : option (list byte) :=
  if beq c cQuote then Some [cBackslash; cQuote]
  else if beq c cBackslash then Some [cBackslash; cBackslash]
  else if beq c cNewline then Some [cBackslash; "n"]
  else if beq c cReturn then Some [cBackslash; "r"]
  else if beq c cTab then Some [cBackslash; "t"]
  else None.

(** needsEscaping of parser.go. *)
Definition needsEscaping (s : list byte) : bool :=
  existsb (fun c => bltN c 32 || beq c cQuote || beq c cBackslash) s.

(** [if start < i { buf.off += copy(buf.buf[buf.off:], s[start:i]) }] *)
Definition flushRun (b : Buffer) (run : list byte) : option Buffer :=
  match run with
  | [] => Some b
  | _ :: _ => option_map fst (copyAdvance b run)
  end.

(** The loop of writeEscapedStringString on a Buffer.  [l] is [s[i:]] and
    [run] is the pending unescaped run [s[start:i]]. *)
Fixpoint escapeLoop (l run : list byte) (b : Buffer) : option Buffer :=
  match l with
  | [] => flushRun b run
  | c :: l' =>
      match escapeMap c with
      | Some esc =>
          match flushRun b run with
          | Some b1 =>
              match copyAdvance b1 esc with
              | Some (b2, _) => escapeLoop l' [] b2
              | None => None
              end
          | None => None
          end
      | None => escapeLoop l' (run ++ [c]) b
      end
  end.

(** writeEscapedStringString, on its Buffer path (the only writer the
    marshaller passes). *)
Definition writeEscapedStringString (b : Buffer) (s : list byte)
  : option Buffer :=
  match grow b (length s + 16) with
  | Some b1 => escapeLoop s [] b1
  | None => None
  end.

(** ** Decimal formatting (strconv.AppendInt and AppendUint, base 10) *)

Fixpoint digitsN (fuel : nat) (n : N) (acc : list byte) : list byte :=
  match fuel with
  | 0 => acc
  | S f =>
      let d := ascii_of_N (48 + n mod 10) in
      if N.ltb n 10 then d :: acc else digitsN f (n / 10) (d :: acc)
  end.

Definition formatUint (n : Z) : list byte := digitsN 20 (Z.to_N n) [].

Definition formatInt (n : Z) : list byte :=
  if (n <? 0)%Z then "-"%char :: digitsN 20 (Z.to_N (- n)) []
  else digitsN 20 (Z.to_N n) [].

(** ** marshalValue *)

(** The source values of the embedded fragment: the invalid reflect.Value
    (of a nil interface), booleans, integers, strings, pointers and
    interfaces.  Floats, byte slices, timestamps, sequences, maps and records
    take branches of marshalValue that are not embedded. *)
Inductive SrcValue : Type :=
| SInvalid
| SBool (b : bool)
| SInt (n : Z)
| SUint (n : Z)
| SString (s : list byte)
| SPtrNil
| SPtr (target : SrcValue)
| SIfaceNil
| SIface (dynamic : SrcValue).

Definition jsonNull : list byte := B "null".
Definition jsonTrue : list byte := B "true".
Definition jsonFalse : list byte := B "false".
Definition jsonQuote : byte := cQuote.

(** The result of a marshalling step: [None] is a panic, otherwise the buffer
    and the error returned, if any. *)
Definition MResult : Type := option (Buffer * option GoError).

Definition writeBytes (b : Buffer) (p : list byte) : MResult :=
  match Write b p with
  | Some (b', _) => Some (b', None)
  | None => None
  end.

Definition writeQuoted (b : Buffer) (s : list byte) : MResult :=
  match WriteByte b jsonQuote with
  | Some b1 =>
      match writeEscapedStringString b1 s with
      | Some b2 =>
          match WriteByte b2 jsonQuote with
          | Some b3 => Some (b3, None)
          | None => None
          end
      | None => None
      end
  | None => None
  end.

Fixpoint marshalValue (v : SrcValue) (b : Buffer) : MResult :=
  match v with
  | SInvalid => writeBytes b jsonNull
  | SPtrNil => writeBytes b jsonNull
  | SPtr v' => marshalValue v' b
  | SString s => writeQuoted b s
  | SBool true => writeBytes b jsonTrue
  | SBool false => writeBytes b jsonFalse
  | SInt n => writeBytes b (formatInt n)
  | SUint n => writeBytes b (formatUint n)
  | SIface (SString s) => writeQuoted b s
  | SIface v' => marshalValue v' b
  | SIfaceNil => Some (b, Some (Errorf "json: unsupported type"))
  end.

(** Marshal: take a pooled buffer, marshal into it, copy out the prefix
    [[0, off)], and give the buffer back (the deferred putBuffer). *)
Definition Marshal (v : SrcValue) (pl : Pools)
  : option ((list byte + GoError) * Pools) :=
  match getBuffer pl with
  | Some (b, pl1) =>
      match marshalValue v b with
      | Some (b', Some err) => Some (inr err, putBuffer b' pl1)
      | Some (b', None) =>
          match copyOut b' with
          | Some result => Some (inl result, putBuffer b' pl1)
          | None => None
          end
      | None => None
      end
  | None => None
  end.

(** The source values that marshalValue emits with Buffer.Write alone. *)
Definition writtenWhole (v : SrcValue) : bool :=
  match v with
  | SInvalid | SBool _ | SInt _ | SUint _ | SPtrNil => true
  | _ => false
  end.

(** * The reflective parser *)

(** The errors of the one-shot parser: syntax errors and type errors. *)
Definition isParseError (e : GoError) : Prop :=
  match e with
  | SyntaxError _ _ | UnmarshalTypeError _ _ _ => True
  | _ => False
  end.

(** ** strconv.ParseInt and ParseUint, base 10, 64 bits *)

Definition digitVal (c : byte) : Z := (Z.of_N (byteVal c) - 48)%Z.

Definition decimalValue (ds : list byte) : Z :=
  fold_left (fun acc c => (acc * 10 + digitVal c)%Z) ds 0%Z.

(** [None] is a conversion error (syntax or range). *)
Definition ParseUint (s : list byte) : option Z :=
  if nonEmpty s && allDigits s then
    let n := decimalValue s in
    if (n <? 2 ^ 64)%Z then Some n else None
  else None.

Definition ParseInt (s : list byte) : option Z :=
  match s with
  | [] => None
  | c :: s' =>
      let neg := beq c "-" in
      let body := if beq c "+" || beq c "-" then s' else s in
      match ParseUint body with
      | Some un =>
          if negb neg && (2 ^ 63 <=? un)%Z then None
          else if neg && (2 ^ 63 <? un)%Z then None
          else Some (if neg then (- un)%Z else un)
      | None => None
      end
  end.

(** reflect's OverflowInt and OverflowUint for a kind of the given width. *)
Definition OverflowInt (bits n : Z) : bool :=
  (n <? - 2 ^ (bits - 1))%Z || (2 ^ (bits - 1) <=? n)%Z.

Definition OverflowUint (bits n : Z) : bool := (2 ^ bits <=? n)%Z.

Section Unmarshal.

(** Floating point belongs to the Go library: the type of float64 values,
    strconv.ParseFloat and reflect's OverflowFloat are parameters. *)
Variable float : Type.
Variable ParseFloat : list byte -> Z -> option float.
Variable OverflowFloat : Z -> float -> bool.
Variable floatZero : float.

(** The values a destination holds.  [VNil] is the nil of a pointer, an
    interface, a map or a slice.  A map is kept as the list of its entries,
    at most one per key; its keys are strings. *)
Inductive Value : Type :=
| VBool (b : bool)
| VInt (n : Z)
| VUint (n : Z)
| VFloat (x : float)
| VString (s : list byte)
| VNil
| VPtr (target : Value)
| VIface (dynamicType : GoType) (dynamic : Value)
| VSlice (elems : list Value)
| VArray (elems : list Value)
| VMap (entries : list (list byte * Value)).

(** [reflect.Zero(t)] *)
Fixpoint zeroValue (t : GoType) : Value :=
  match t with
  | TBool => VBool false
  | TInt _ => VInt 0
  | TUint _ => VUint 0
  | TFloat _ => VFloat floatZero
  | TString => VString []
  | TPtr _ | TInterface _ | TSlice _ | TMap _ _ => VNil
  | TArray n e => VArray (repeat (zeroValue e) n)
  end.

(** The result of a setter or of a parsing step on a destination: the
    destination afterwards and the error returned, if any. *)

Definition setNull (t : GoType) (v : Value) : Value * option GoError :=
  match t with
  | TInterface _ | TPtr _ | TMap _ _ | TSlice _ => (VNil, None)
  | _ => (v, Some (UnmarshalTypeError (B "null") t 0))
  end.

Definition setBool (t : GoType) (v : Value) (b : bool)
  : Value * option GoError :=
  match t with
  | TBool => (VBool b, None)
  | TInterface 0 => (VIface TBool (VBool b), None)
  | _ => (v, Some (UnmarshalTypeError (B "bool") t 0))
  end.

Definition setString (t : GoType) (v : Value) (s : list byte)
  : Value * option GoError :=
  match t with
  | TString => (VString s, None)
  | TInterface 0 => (VIface TString (VString s), None)
  | _ => (v, Some (UnmarshalTypeError (B "string") t 0))
  end.

(** setNumber of marshal_unmarshal.go (the two-argument one that
    unmarshalValue of that file calls). *)
Definition setNumber (t : GoType) (v : Value) (s : list byte)
  : Value * option GoError :=
  let numberErr := (v, Some (UnmarshalTypeError (B "number " ++ s) t 0)) in
  match t with
  | TInt bits =>
      match ParseInt s with
      | None => numberErr
      | Some n => if OverflowInt bits n then numberErr else (VInt n, None)
      end
  | TUint bits =>
      match ParseUint s with
      | None => numberErr
      | Some n => if OverflowUint bits n then numberErr else (VUint n, None)
      end
  | TFloat bits =>
      match ParseFloat s bits with
      | None => numberErr
      | Some x => if OverflowFloat bits x then numberErr else (VFloat x, None)
      end
  | TInterface 0 =>
      match ParseFloat s 64 with
      | Some x => (VIface (TFloat 64) (VFloat x), None)
      | None => (v, Some (UnmarshalTypeError (B "number") t 0))
      end
  | _ => (v, Some (UnmarshalTypeError (B "number") t 0))
  end.

(** [v.SetMapIndex(key, elem)] *)
Fixpoint setMapIndex (m : list (list byte * Value)) (k : list byte)
         (e : Value) : list (list byte * Value) :=
  match m with
  | [] => [(k, e)]
  | (k', e') :: m' =>
      if bytes_eqb k' k then (k, e) :: m'
      else (k', e') :: setMapIndex m' k e
  end.

Definition mapEntries (v : Value) : list (list byte * Value) :=
  match v with VMap m => m | _ => [] end.

Definition seqElems (v : Value) : list Value :=
  match v with VSlice l => l | VArray l => l | _ => [] end.

(** [a[i] = e] on a list, within range. *)
Fixpoint setNth (l : list Value) (i : nat) (e : Value) : list Value :=
  match l, i with
  | [], _ => []
  | _ :: l', 0 => e :: l'
  | x :: l', S i' => x :: setNth l' i' e
  end.

(** The result of a parsing step: the parser, the destination and the
    error; [None] is "out of fuel". *)
Definition UResult : Type := option (Parser * Value * option GoError).

Definition uFail (p : Parser) (v : Value) (msg : string) : UResult :=
  Some (p, v, Some (SyntaxError (pos p) msg)).

(** unmarshalValue with unmarshalToMap and unmarshalToSlice (their loops
    are [mapLoop] and [sliceLoop]).  The types of the fragment have no
    methods, so the branch for destinations that implement Unmarshaler is
    never taken. *)
Fixpoint unmarshalValue (fuel : nat) (p : Parser) (t : GoType) (v : Value)
  : UResult :=
  match fuel with
  | 0 => None
  | S f =>
      let p := skipWhitespace p in
      match at_ (data p) (pos p) with
      | None => uFail p v "unexpected end of JSON input"
      | Some c =>
          if beq c "n" then
            let '(v', e) := setNull t v in Some (advance p 4, v', e)
          else if beq c "t" then
            let '(v', e) := setBool t v true in Some (advance p 4, v', e)
          else if beq c "f" then
            let '(v', e) := setBool t v false in Some (advance p 5, v', e)
          else if beq c cQuote then
            let '(tok, value, p') := parseString p in
            match tok with
            | TokenString =>
                let '(v', e) := setString t v (GetString value) in
                Some (p', v', e)
            | _ => uFail p' v "invalid string"
            end
          else if beq c "{" then
            match t with
            | TMap keyType elemType =>
                (* unmarshalToMap: skip the brace, make the map if nil *)
                let m := match v with VNil => VMap [] | _ => v end in
                mapLoop f (advance p 1) keyType elemType (mapEntries m)
            | _ => uFail p v "invalid JSON value"
            end
          else if beq c "[" then
            match t with
            | TSlice elemType =>
                sliceLoop f (advance p 1) t elemType true [] 0
            | TArray _ elemType =>
                sliceLoop f (advance p 1) t elemType false (seqElems v) 0
            | _ => uFail p v "invalid JSON value"
            end
          else if isNumberStart c then
            let '(tok, value, p') := parseNumber p in
            match tok with
            | TokenNumber =>
                let '(v', e) := setNumber t v (GetString value) in
                Some (p', v', e)
            | _ => uFail p' v "invalid number"
            end
          else uFail p v "invalid JSON value"
      end
  end

with mapLoop (fuel : nat) (p : Parser) (keyType elemType : GoType)
             (m : list (list byte * Value)) : UResult :=
  match fuel with
  | 0 => None
  | S f =>
      if Nat.leb (length (data p)) (pos p) then
        uFail p (VMap m) "unexpected end of JSON input"
      else
        let p := skipWhitespace p in
        match at_ (data p) (pos p) with
        | None => uFail p (VMap m) "unexpected end of JSON input"
        | Some c =>
            if beq c "}" then Some (advance p 1, VMap m, None)
            else
              let p := if beq c "," then skipWhitespace (advance p 1) else p in
              let '(tok, keyBytes, p1) := parseString p in
              match tok with
              | TokenString =>
                  let keyStr := GetString keyBytes in
                  let p2 := skipWhitespace p1 in
                  if byteIs (data p2) (pos p2) ":" then
                    let p3 := advance p2 1 in
                    match snd (setString keyType (zeroValue keyType) keyStr) with
                    | Some _ =>
                        Some (p3, VMap m,
                              Some (UnmarshalTypeError (B "string") keyType (pos p3)))
                    | None =>
                        match unmarshalValue f p3 elemType (zeroValue elemType) with
                        | None => None
                        | Some (p4, _, Some e) => Some (p4, VMap m, Some e)
                        | Some (p4, elem, None) =>
                            mapLoop f p4 keyType elemType (setMapIndex m keyStr elem)
                        end
                    end
                  else uFail p2 (VMap m) "expected colon after object key"
              | _ => uFail p1 (VMap m) "expected string key in object"
              end
        end
  end

with sliceLoop (fuel : nat) (p : Parser) (t elemType : GoType)
               (isSlice : bool) (elems : list Value) (index : nat)
  : UResult :=
  let cur := if isSlice then VSlice elems else VArray elems in
  match fuel with
  | 0 => None
  | S f =>
      if Nat.leb (length (data p)) (pos p) then
        uFail p cur "unexpected end of JSON input"
      else
        let p := skipWhitespace p in
        match at_ (data p) (pos p) with
        | None => uFail p cur "unexpected end of JSON input"
        | Some c =>
            if beq c "]" then Some (advance p 1, cur, None)
            else if Nat.ltb 0 index && negb (beq c ",") then
              uFail p cur "expected comma after array element"
            else
              let p := if Nat.ltb 0 index
                       then skipWhitespace (advance p 1) else p in
              if negb isSlice && Nat.leb (length elems) index then
                Some (p, cur, Some (UnmarshalTypeError (B "array") t (pos p)))
              else
                let elem0 := if isSlice then zeroValue elemType
                             else nth index elems (zeroValue elemType) in
                match unmarshalValue f p elemType elem0 with
                | None => None
                | Some (p4, elem, Some e) =>
                    Some (p4,
                          (if isSlice then VSlice elems
                           else VArray (setNth elems index elem)),
                          Some e)
                | Some (p4, elem, None) =>
                    sliceLoop f p4 t elemType isSlice
                              (if isSlice then elems ++ [elem]
                               else setNth elems index elem)
                              (S index)
                end
        end
  end.

(** Unmarshal(data, &dest): the fuel covers every byte twice. *)
Definition Unmarshal (input : list byte) (t : GoType) (dest : Value)
  : UResult :=
  unmarshalValue (2 * length input + 2) (NewParser input) t dest.

(** [r] carries no error other than a syntax error or a type error. *)
Definition parseErrors (r : UResult) : Prop :=
  forall p v e, r = Some (p, v, Some e) -> isParseError e.

End Unmarshal.

Arguments VBool {float} b.
Arguments VInt {float} n%_Z.
Arguments VUint {float} n%_Z.
Arguments VFloat {float} x.
Arguments VString {float} s.
Arguments VNil {float}.
Arguments VPtr {float} target.
Arguments VIface {float} dynamicType dynamic.
Arguments VSlice {float} elems.
Arguments VArray {float} elems.
Arguments VMap {float} entries.

(** * The streaming decoder *)

(** ** isCompleteLiteral *)

Fixpoint dropDigits (l : list byte) : list byte :=
  match l with
  | c :: l' => if isDigit c then dropDigits l' else l
  | [] => []
  end.

Definition isNil (l : list byte) : bool :=
  match l with [] => true | _ :: _ => false end.

(** The exponent part and the final test [i == len(s)]. *)
Definition literalExponent (l : list byte) : bool :=
  match l with
  | c :: l1 =>
      if beq c "e" || beq c "E" then
        match l1 with
        | [] => false
        | s :: l2 =>
            let l3 := if beq s "+" || beq s "-" then l2 else l1 in
            match l3 with
            | [] => false
            | d :: _ => if isDigit d then isNil (dropDigits l3) else false
            end
        end
      else false
  | [] => true
  end.

Definition literalFraction (l : list byte) : bool :=
  match l with
  | c :: l1 =>
      if beq c "." then
        match l1 with
        | d :: _ => if isDigit d then literalExponent (dropDigits l1) else false
        | [] => false
        end
      else literalExponent l
  | [] => true
  end.

Definition isCompleteLiteral (s : list byte) : bool :=
  match s with
  | [] => false
  | c0 :: _ =>
      if beq c0 "{" || beq c0 "[" then false
      else if bytes_eqb s (B "null") || bytes_eqb s (B "true")
              || bytes_eqb s (B "false") then true
      else
        let body := if beq c0 "-" then tl s else s in
        match body with
        | [] => false
        | d :: rest =>
            if beq d "0" then literalFraction rest
            else if N.leb 49 (byteVal d) && N.leb (byteVal d) 57
            then literalFraction (dropDigits rest)
            else false
        end
  end.

(** ** The byte source

    An io.Reader over a fixed byte sequence (a bytes.Reader or a
    strings.Reader): Read fills the slice it is given as far as the bytes
    last, and returns 0 and io.EOF once they are used up. *)

Definition Reader : Type := list byte.

Definition readInto (r : Reader) (room : nat)
  : list byte * option GoError * Reader :=
  match r with
  | [] => ([], Some EOF, [])
  | _ :: _ => (firstn room r, None, skipn room r)
  end.

Record Decoder : Type := mkDecoder {
  dbuf : list byte;
  tokenBuf : list byte;
  src : Reader;
  readPos : nat;
  useNumber : bool
}.

Definition NewDecoder (r : Reader) : Decoder := mkDecoder [] [] r 0 false.

Inductive Outcome (A : Type) : Type :=
| Returns (a : A)
| Panics
| OutOfFuel.

Arguments Returns {A} a.
Arguments Panics {A}.
Arguments OutOfFuel {A}.

Definition isEOF (e : GoError) : bool :=
  match e with EOF => true | _ => false end.

(** refillBuffer: append what the source gives, and put the read offset back
    to 0. *)
Definition refillBuffer (d : Decoder) : Decoder * option GoError :=
  let '(chunk, err, r') := readInto (src d) 512 in
  let n := length chunk in
  let err := match err with
             | Some e => if isEOF e && Nat.ltb 0 n then None else Some e
             | None => None
             end in
  let newBuf := if Nat.ltb 0 n then dbuf d ++ chunk else dbuf d in
  match err with
  | Some e =>
      if negb (isEOF e)
      then (mkDecoder newBuf (tokenBuf d) r' (readPos d) (useNumber d), Some e)
      else (mkDecoder newBuf (tokenBuf d) r' 0 (useNumber d), None)
  | None => (mkDecoder newBuf (tokenBuf d) r' 0 (useNumber d), None)
  end.

Definition setReadPos (d : Decoder) (i : nat) : Decoder :=
  mkDecoder (dbuf d) (tokenBuf d) (src d) i (useNumber d).

Definition setTokenBuf (d : Decoder) (tb : list byte) : Decoder :=
  mkDecoder (dbuf d) tb (src d) (readPos d) (useNumber d).

(** The decoder's skipWhitespace; one unit of fuel per refill. *)
Fixpoint decoderSkipWhitespace (fuel : nat) (d : Decoder)
  : Outcome (Decoder * option GoError) :=
  match fuel with
  | 0 => OutOfFuel
  | S f =>
      let d1 := setReadPos d (readPos d + wsRun (skipn (readPos d) (dbuf d))) in
      if Nat.ltb (readPos d1) (length (dbuf d1)) then Returns (d1, None)
      else
        match refillBuffer d1 with
        | (d2, Some e) => Returns (d2, Some e)
        | (d2, None) =>
            if Nat.eqb (length (dbuf d2)) 0 then Returns (d2, Some EOF)
            else decoderSkipWhitespace f d2
        end
  end.

(** The local state of readValue. *)
Record Framing : Type := mkFraming {
  depth_ : Z;
  inString : bool;
  escaped : bool;
  buffers : list (list byte);
  firstChar : byte
}.

Definition ReadResult : Type :=
  Outcome (Decoder * (list byte + GoError) * Pools).

(** Every return of readValue restores the old token buffer, and the deferred
    putTokenBuf cuts it to length 0. *)
Definition leave (d : Decoder) (r : list byte + GoError) (pl : Pools)
  : ReadResult :=
  Returns (setTokenBuf d [], r, pl).

Definition leaveWith (d : Decoder) (parts : list (list byte)) (pl : Pools)
  : ReadResult :=
  match AppendBuffers parts pl with
  | Some (result, pl') => leave d (inl result) pl'
  | None => Panics
  end.

(** The whitespace loop at the head of readValue. *)
Fixpoint readValueWs (fuel : nat) (d : Decoder)
  : Outcome (Decoder * option GoError) :=
  match fuel with
  | 0 => OutOfFuel
  | S f =>
      match at_ (dbuf d) (readPos d) with
      | None => Returns (d, None)
      | Some c =>
          if isWhitespace c then
            let d1 := setReadPos d (S (readPos d)) in
            if Nat.leb (length (dbuf d1)) (readPos d1) then
              match refillBuffer d1 with
              | (d2, Some e) => Returns (d2, Some e)
              | (d2, None) => readValueWs f d2
              end
            else readValueWs f d1
          else Returns (d, None)
      end
  end.

Definition stepDepth (st : Framing) (dz : Z) : Framing :=
  mkFraming (depth_ st + dz) (inString st) (escaped st) (buffers st)
            (firstChar st).

(** The main loop of readValue; one unit of fuel per byte. *)
Fixpoint readValueLoop (fuel : nat) (d : Decoder) (st : Framing) (pl : Pools)
  : ReadResult :=
  match fuel with
  | 0 => OutOfFuel
  | S f =>
      (* ensure we have data *)
      let refilled :=
        if Nat.leb (length (dbuf d)) (readPos d) then refillBuffer d
        else (d, None) in
      match refilled with
      | (d, Some err) =>
          if isEOF err && negb (isNil (tokenBuf d)) then
            if (0 <? depth_ st)%Z then
              leave d (inr (Errorf "unexpected end of JSON input: unclosed structure")) pl
            else if isCompleteLiteral (tokenBuf d) then
              leaveWith d (buffers st ++ [tokenBuf d]) pl
            else if Nat.leb 2 (length (tokenBuf d))
                    && ((beq (hd zeroByte (tokenBuf d)) "{"
                         && beq (last (tokenBuf d) zeroByte) "}")
                        || (beq (hd zeroByte (tokenBuf d)) "["
                            && beq (last (tokenBuf d) zeroByte) "]"))
            then leaveWith d (buffers st ++ [tokenBuf d]) pl
            else leave d (inr err) pl
          else leave d (inr err) pl
      | (d, None) =>
          match at_ (dbuf d) (readPos d) with
          | None => Panics
          | Some c =>
              let tb := tokenBuf d ++ [c] in
              let d := mkDecoder (dbuf d) tb (src d) (S (readPos d)) (useNumber d) in
              if inString st then
                if escaped st then
                  readValueLoop f d (mkFraming (depth_ st) true false (buffers st) (firstChar st)) pl
                else if beq c cBackslash then
                  readValueLoop f d (mkFraming (depth_ st) true true (buffers st) (firstChar st)) pl
                else if beq c cQuote then
                  if (depth_ st =? 0)%Z && beq (firstChar st) cQuote
                  then leaveWith d (buffers st ++ [tb]) pl
                  else readValueLoop f d (mkFraming (depth_ st) false false (buffers st) (firstChar st)) pl
                else readValueLoop f d st pl
              else
                let continue (d : Decoder) (st : Framing) : ReadResult :=
                  if Nat.leb 4096 (length (tokenBuf d)) then
                    readValueLoop f (setTokenBuf d [])
                      (mkFraming (depth_ st) (inString st) (escaped st)
                                 (buffers st ++ [tokenBuf d]) (firstChar st)) pl
                  else readValueLoop f d st pl in
                if beq c cQuote then
                  continue d (mkFraming (depth_ st) true (escaped st) (buffers st) (firstChar st))
                else if beq c "{" || beq c "[" then
                  continue d (stepDepth st 1)
                else if beq c "}" || beq c "]" then
                  let st := stepDepth st (-1) in
                  if (depth_ st =? 0)%Z then
                    if (beq (firstChar st) "{" && beq c "}")
                       || (beq (firstChar st) "[" && beq c "]")
                    then leaveWith d (buffers st ++ [tb]) pl
                    else leave d (inr (Errorf "mismatched brackets in JSON")) pl
                  else if (depth_ st <? 0)%Z then
                    leave d (inr (Errorf "unexpected closing character in JSON")) pl
                  else continue d st
                else if isWhitespace c then
                  if (depth_ st =? 0)%Z && negb (beq (firstChar st) "{")
                     && negb (beq (firstChar st) "[")
                     && negb (beq (firstChar st) cQuote)
                     && isCompleteLiteral (removelast tb)
                  then
                    match AppendBuffers (buffers st ++ [removelast tb]) pl with
                    | Some (result, pl') =>
                        leave (setReadPos d (readPos d - 1)) (inl result) pl'
                    | None => Panics
                    end
                  else continue d st
                else if beq c "," || beq c ":" then
                  if (depth_ st =? 0)%Z then
                    leave d (inr (Errorf "unexpected character in JSON literal")) pl
                  else continue d st
                else continue d st
          end
      end
  end.

Definition readValue (fuel : nat) (d : Decoder) (pl : Pools) : ReadResult :=
  let d := setTokenBuf d [] in
  let refilled :=
    if Nat.eqb (length (dbuf d)) 0 || Nat.leb (length (dbuf d)) (readPos d)
    then refillBuffer d else (d, None) in
  match refilled with
  | (d, Some err) => leave d (inr err) pl
  | (d, None) =>
      match at_ (dbuf d) (readPos d) with
      | None => Panics
      | Some first =>
          match readValueWs fuel d with
          | OutOfFuel => OutOfFuel
          | Panics => Panics
          | Returns (d, Some err) => leave d (inr err) pl
          | Returns (d, None) =>
              if Nat.leb (length (dbuf d)) (readPos d)
              then leave d (inr EOF) pl
              else readValueLoop fuel d (mkFraming 0 false false [] first) pl
          end
      end
  end.

(** [r] is not a return of readValue with the end-of-input signal. *)
Definition notEOF (r : ReadResult) : Prop :=
  forall d pl, r <> Returns (d, inr EOF, pl).

Section Decode.

Variable float : Type.
Variable ParseFloat : list byte -> Z -> option float.
Variable OverflowFloat : Z -> float -> bool.
Variable floatZero : float.

(** Decode(&dest) for a destination of type [t] holding [dest]. *)
Definition Decode (fuel : nat) (d : Decoder) (t : GoType)
           (dest : Value float) (pl : Pools)
  : Outcome (Decoder * Value float * option GoError * Pools) :=
  match decoderSkipWhitespace fuel d with
  | OutOfFuel => OutOfFuel
  | Panics => Panics
  | Returns (d1, Some err) => Returns (d1, dest, Some err, pl)
  | Returns (d1, None) =>
      match readValue fuel d1 pl with
      | OutOfFuel => OutOfFuel
      | Panics => Panics
      | Returns (d2, inr err, pl2) => Returns (d2, dest, Some err, pl2)
      | Returns (d2, inl value, pl2) =>
          match Unmarshal ParseFloat OverflowFloat floatZero value t dest with
          | None => OutOfFuel
          | Some (_, dest', Some (SyntaxError offset msg)) =>
              Returns (d2, dest', Some (ErrorfSyntax offset msg), pl2)
          | Some (_, dest', err) => Returns (d2, dest', err, pl2)
          end
      end
  end.

End Decode.

(** [n] successive Decode calls, each into a fresh destination of type [t];
    the value left in each destination and the error of each call. *)
Fixpoint decodeMany (float : Type)
         (ParseFloat : list byte -> Z -> option float)
         (OverflowFloat : Z -> float -> bool) (floatZero : float)
         (n fuel : nat) (d : Decoder) (t : GoType) (pl : Pools)
  : list (Outcome (Value float * option GoError)) :=
  match n with
  | 0 => []
  | S n' =>
      match Decode ParseFloat OverflowFloat floatZero fuel d t
                   (zeroValue floatZero t) pl with
      | Returns (d', v, e, pl') =>
          Returns (v, e)
          :: decodeMany ParseFloat OverflowFloat floatZero n' fuel d' t pl'
      | Panics => [Panics]
      | OutOfFuel => [OutOfFuel]
      end
  end.

(** ** Addressing a value of a syntax tree by a path of keys

    What Extract is expected to find, read off the syntax tree of the input:
    the notions below are not taken from the code, the statements about
    Extract compare the code with them. *)

(** The first member of [ms] whose key, as spelled between its quotes, is
    [segment]: the number of bytes of [renderMembers ms] up to and including
    the member's colon, the whitespace after the colon, and the value. *)
Fixpoint findMember (segment : list byte) (ms : Members)
  : option (nat * list byte * Json) :=
  match ms with
  | MNil => None
  | MCons wb key wk wv v wa more =>
      let header := length wb + length (renderString key) + length wk + 1 in
      if bytes_eqb (renderItems key) segment then Some (header, wv, v)
      else
        match findMember segment more with
        | Some (o, wv', v') =>
            Some (header + length wv + length (render v) + length wa + 1 + o,
                  wv', v')
        | None => None
        end
  end.

(** The value that the path [path] addresses in [j], with the offset of its
    first byte in [render j]. *)
Fixpoint locate (j : Json) (path : list (list byte)) : option (nat * Json) :=
  match path with
  | [] => Some (0, j)
  | segment :: more =>
      match j with
      | JObject w ms =>
          match findMember segment ms with
          | Some (o, wv, v) =>
              match locate v more with
              | Some (o', j') => Some (1 + length w + o + length wv + o', j')
              | None => None
              end
          | None => None
          end
      | _ => None
      end
  end.

(** A document with a nested object, and the tree of its text. *)
Definition nestedInput : list byte :=
  J " {'id': 7, 'user' : {'name':'Al', 'tags':[1,2]}} ".

Definition nestedValue : Json :=
  JObject []
    (MCons [] [SPlain "i"; SPlain "d"] [] [" "%char]
       (JNumber (mkNum false (B "7") None None)) []
    (MCons [" "%char] [SPlain "u"; SPlain "s"; SPlain "e"; SPlain "r"]
       [" "%char] [" "%char]
       (JObject []
          (MCons [] [SPlain "n"; SPlain "a"; SPlain "m"; SPlain "e"] [] []
             (JString [SPlain "A"; SPlain "l"]) []
          (MCons [" "%char] [SPlain "t"; SPlain "a"; SPlain "g"; SPlain "s"] [] []
             (JArray []
                (ECons [] (JNumber (mkNum false (B "1") None None)) []
                (ECons [] (JNumber (mkNum false (B "2") None None)) [] ENil)))
             [] MNil)))
       [] MNil)).

(** * Further functions of the repository *)

(** ** Reading from a Buffer: ReadString and Seek *)

(** ReadString(length): the argument is a Go int, so it may be negative.
    [None] is the panic of the slice expression [b.buf[b.off : b.off+length]]
    (bounds out of range). *)
Definition ReadString (b : Buffer) (len : Z) : option (list byte * Buffer) :=
  let o := Z.of_nat (off b) in
  let l := Z.of_nat (length (buf b)) in
  let n := if (l <? wrap64 (o + len))%Z then (l - o)%Z else len in
  let hi := wrap64 (o + n) in
  if (hi <? o)%Z || (Z.of_nat (cap b) <? hi)%Z then None
  else Some (GetString (sub (buf b ++ spare b) (off b) (Z.to_nat hi)),
             mkBuffer (buf b) (spare b) (Z.to_nat hi)).

Definition Seek (b : Buffer) (offset : Z) : Buffer :=
  if (0 <=? offset)%Z && (offset <=? Z.of_nat (length (buf b)))%Z
  then mkBuffer (buf b) (spare b) (Z.to_nat offset)
  else b.

(** ** parseStringToBuffer *)

(** The loop of parseStringToBuffer over the bytes that follow the opening
    quote.  [None] is a panic: the index expression [p.data[p.pos+1]] after a
    backslash that is the last byte of the input, or a failing WriteByte. *)
Fixpoint scanToBuffer (l : list byte) (i : nat) (b : Buffer)
         {struct l} : option (bool * nat * Buffer) :=
  match l with
  | [] => Some (false, i, b)
  | c :: l' =>
      if beq c cBackslash then
        match l' with
        | [] => None
        | c' :: l'' =>
            match WriteByte b c' with
            | Some b' => scanToBuffer l'' (i + 2) b'
            | None => None
            end
        end
      else if beq c cQuote then Some (true, i + 1, b)
      else
        match WriteByte b c with
        | Some b' => scanToBuffer l' (i + 1) b'
        | None => None
        end
  end.

Definition parseStringToBuffer (p : Parser) (b : Buffer)
  : option (Token * Parser * Buffer) :=
  match at_ (data p) (pos p) with
  | None => Some (TokenError, p, b)
  | Some c =>
      if beq c cQuote then
        match scanToBuffer (skipn (S (pos p)) (data p)) (S (pos p))
                           (mkBuffer (buf b) (spare b) 0) with
        | Some (ok, e, b') =>
            Some (if ok then TokenString else TokenError,
                  mkParser (data p) e, b')
        | None => None
        end
      else Some (TokenError, p, b)
  end.

(** What parseStringToBuffer stores for the text between the quotes: every
    backslash is dropped and the byte after it is kept as it is. *)
Fixpoint dropBackslashes (l : list byte) {struct l} : list byte :=
  match l with
  | [] => []
  | c :: l' =>
      if beq c cBackslash then
        match l' with
        | [] => []
        | c' :: l'' => c' :: dropBackslashes l''
        end
      else c :: dropBackslashes l'
  end.

(** ** What the escaping writer is meant to produce *)

(** The text of a string with every byte that has an entry in escapeMap
    replaced by that entry, and the number of such bytes. *)
Definition escapeText (s : list byte) : list byte :=
  flat_map (fun c => match escapeMap c with Some esc => esc | None => [c] end) s.

Fixpoint escapeCount (s : list byte) : nat :=
  match s with
  | [] => 0
  | c :: s' =>
      match escapeMap c with
      | Some _ => S (escapeCount s')
      | None => escapeCount s'
      end
  end.

(** ** The streaming encoder *)

Section Encoder.

(** An io.Writer: its state and its Write method, which returns the state
    afterwards and the error, if any. *)
Variable Writer : Type.
Variable wWrite : Writer -> list byte -> Writer * option GoError.

Record Encoder : Type := mkEncoder {
  ew : Writer;
  ebuf : Buffer;
  escapeHTML : bool
}.

Definition jsonNewline : list byte := [cNewline].

(** Encode: [None] is a panic. *)
Definition Encode (e : Encoder) (v : SrcValue)
  : option (Encoder * option GoError) :=
  match marshalValue v (Reset (ebuf e)) with
  | None => None
  | Some (b, Some err) => Some (mkEncoder (ew e) b (escapeHTML e), Some err)
  | Some (b, None) =>
      match Bytes b with
      | None => None
      | Some out =>
          match wWrite (ew e) out with
          | (w1, Some err) => Some (mkEncoder w1 b (escapeHTML e), Some err)
          | (w1, None) =>
              match wWrite w1 jsonNewline with
              | (w2, err) => Some (mkEncoder w2 b (escapeHTML e), err)
              end
          end
      end
  end.

(** What Encode does with the bytes [out] it hands to the writer: the two
    Write calls and their errors. *)
Definition emitLine (e : Encoder) (b : Buffer) (out : list byte)
  : Encoder * option GoError :=
  match wWrite (ew e) out with
  | (w1, Some err) => (mkEncoder w1 b (escapeHTML e), Some err)
  | (w1, None) =>
      match wWrite w1 jsonNewline with
      | (w2, err) => (mkEncoder w2 b (escapeHTML e), err)
      end
  end.

End Encoder.

(** A writer that collects what is written (a bytes.Buffer): it never
    fails. *)
Definition sinkWrite (w : list byte) (p : list byte)
  : list byte * option GoError := (w ++ p, None).

(** The JSON text of the values that marshalValue emits with Buffer.Write. *)
Definition wholeText (v : SrcValue) : list byte :=
  match v with
  | SBool true => jsonTrue
  | SBool false => jsonFalse
  | SInt n => formatInt n
  | SUint n => formatUint n
  | _ => jsonNull
  end.

(** A buffer whose offset lies beyond its capacity: [b.buf[:b.off]] is out
    of range. *)
Definition strayBuffer : Buffer := mkBuffer [] [] 1.


(** The total size that AppendBuffers computes. *)
Definition totalSize (buffers : list (list byte)) : nat :=
  fold_left (fun acc x => acc + length x) buffers 0.

(** An instance of the floating-point parameters for statements on inputs
    without numbers: the conversion always fails. *)
Definition noFloat (s : list byte) (bits : Z) : option unit := None.
Definition noOverflow (bits : Z) (x : unit) : bool := false.

(** The leading digits of a text (what [dropDigits] drops). *)
Fixpoint takeDigits (l : list byte) : list byte :=
  match l with
  | c :: l' => if isDigit c then c :: takeDigits l' else []
  | [] => []
  end.

(** ** Struct tags: parseTag and tagOptions.Contains *)

(** The offset of the first comma of [l], counted from [i];
    [None] if there is none. *)
Fixpoint firstComma (l : list byte) (i : nat) : option nat :=
  match l with
  | [] => None
  | c :: l' => if beq c "," then Some i else firstComma l' (S i)
  end.

Definition parseTag (tag : list byte) : list byte * list byte :=
  match tag with
  | [] => ([], [])
  | _ :: _ =>
      match firstComma tag 0 with
      | Some i => (sub tag 0 i, skipn (i + 1) tag)
      | None => (tag, [])
      end
  end.

(** [for i < sLen && s[i] != ',' { i++ }] *)
Fixpoint optionRun (l : list byte) : nat :=
  match l with
  | c :: l' => if beq c "," then 0 else S (optionRun l')
  | [] => 0
  end.

Definition optionEnd (s : list byte) (i : nat) : nat :=
  i + optionRun (skipn i s).

(** The outer loop of Contains; one unit of fuel per option, [None] is
    "out of fuel". *)
Fixpoint containsFrom (fuel : nat) (s option_ : list byte) (i : nat)
  : option bool :=
  match fuel with
  | 0 => None
  | S f =>
      if Nat.ltb i (length s) then
        let start := i in
        let i := optionEnd s i in
        if Nat.eqb (i - start) (length option_)
           && bytes_eqb (sub s start i) option_
        then Some true
        else containsFrom f s option_ (if Nat.ltb i (length s) then S i else i)
      else Some false
  end.

Definition Contains (o option_ : list byte) : option bool :=
  if Nat.eqb (length o) 0 then Some false
  else if Nat.eqb (length option_) 0 then Some false
  else if bytes_eqb o option_ then Some true
  else containsFrom (S (length o)) o option_ 0.

(** The options of a tag: the fields between its commas. *)
Fixpoint splitCommas (l cur : list byte) : list (list byte) :=
  match l with
  | [] => [cur]
  | c :: l' =>
      if beq c "," then cur :: splitCommas l' []
      else splitCommas l' (cur ++ [c])
  end.

Definition tagFields (o : list byte) : list (list byte) := splitCommas o [].

(** ** The main loop of readValue, one byte at a time

    These are not functions of the repository: they describe, for the
    statements about the streaming decoder, what one turn of the main loop of
    readValue does to its local state when it goes on to the next byte. *)

(** The decoder after the loop has taken the bytes [l] from the window. *)
Definition consumed (d : Decoder) (l : list byte) : Decoder :=
  mkDecoder (dbuf d) (tokenBuf d ++ l) (src d) (readPos d + length l)
            (useNumber d).

(** The state in which the loop goes on after the byte [c]; [None] where the
    loop may return at [c] (the end of the value, or an error). *)
Definition quietStep (st : Framing) (c : byte) : option Framing :=
  if inString st then
    if escaped st then
      Some (mkFraming (depth_ st) true false (buffers st) (firstChar st))
    else if beq c cBackslash then
      Some (mkFraming (depth_ st) true true (buffers st) (firstChar st))
    else if beq c cQuote then
      if (depth_ st =? 0)%Z && beq (firstChar st) cQuote then None
      else Some (mkFraming (depth_ st) false false (buffers st) (firstChar st))
    else Some st
  else if beq c cQuote then
    Some (mkFraming (depth_ st) true (escaped st) (buffers st) (firstChar st))
  else if beq c "{" || beq c "[" then Some (stepDepth st 1)
  else if beq c "}" || beq c "]" then
    if (depth_ (stepDepth st (-1)) <=? 0)%Z then None
    else Some (stepDepth st (-1))
  else if isWhitespace c then
    if (depth_ st =? 0)%Z then None else Some st
  else if beq c "," || beq c ":" then
    if (depth_ st =? 0)%Z then None else Some st
  else Some st.

Fixpoint quietRun (st : Framing) (l : list byte) : option Framing :=
  match l with
  | [] => Some st
  | c :: l' =>
      match quietStep st c with
      | Some st' => quietRun st' l'
      | None => None
      end
  end.

(** A byte that means nothing to the loop outside a string. *)
Definition inertByte (c : byte) : bool :=
  negb (beq c cQuote || beq c "{" || beq c "[" || beq c "}" || beq c "]"
        || isWhitespace c || beq c "," || beq c ":").

(** A literal or a number at the top level ends at the whitespace byte that
    follows it; a string or a container ends with a byte of its own. *)
Definition terminated (j : Json) (tl : list byte) : bool :=
  match j with
  | JString _ | JArray _ _ | JObject _ _ => true
  | _ => match tl with c :: _ => isWhitespace c | [] => false end
  end.

(** What Decode returns once readValue has handed it a value: the outcome of
    Unmarshal on that value, a syntax error being copied into a new error. *)
Definition decodeOutcome (float : Type) (r : UResult float) (d : Decoder)
           (pl : Pools)
  : Outcome (Decoder * Value float * option GoError * Pools) :=
  match r with
  | None => OutOfFuel
  | Some (_, dest', Some (SyntaxError offset msg)) =>
      Returns (d, dest', Some (ErrorfSyntax offset msg), pl)
  | Some (_, dest', err) => Returns (d, dest', err, pl)
  end.

(** A window with a first value already read, and the tree of the value
    that comes next in it. *)
Definition streamWindow : list byte := B "1 [2, 3] 4".

Definition secondValue : Json :=
  JArray []
    (ECons [] (JNumber (mkNum false (B "2") None None)) []
    (ECons [" "%char] (JNumber (mkNum false (B "3") None None)) [] ENil)).
Example extract_city :
  option_map (fun r => (bytesOf (J "{'address':{'city':'Anytown'}}") (fst r), snd r))
    (Extract (J "{'address':{'city':'Anytown'}}") [B "address"; B "city"])
  = Some (J "'Anytown'", true).
Proof. vm_compute. reflexivity. Qed.

Example skip_nested :
  skipValue (NewParser (J " {'a':[1,'x^'y',{'b':null}], 'c':-1.5e+3} tail"))
  = Some (true, mkParser (J " {'a':[1,'x^'y',{'b':null}], 'c':-1.5e+3} tail") 41).
Proof. vm_compute. reflexivity. Qed.

(** * Properties of the lexical primitives *)

(** ** The cursor never moves backwards *)

Lemma follows_refl p : follows p p.
Proof. split; [reflexivity | apply Nat.le_refl]. Qed.

Lemma follows_trans p q r : follows p q -> follows q r -> follows p r.
Proof. intros [D1 L1] [D2 L2]; split; [congruence | lia]. Qed.

Lemma follows_advance p n : follows p (advance p n).
Proof. split; simpl; [reflexivity | lia]. Qed.

Lemma follows_mk p e : pos p <= e -> follows p (mkParser (data p) e).
Proof. intros; split; simpl; [reflexivity | assumption]. Qed.

Lemma follows_skipWhitespace p : follows p (skipWhitespace p).
Proof. apply follows_advance. Qed.

Create HintDb cursor.
#[local] Hint Resolve follows_refl follows_advance follows_skipWhitespace
  follows_mk : cursor.

Lemma scanString_le_aux n :
  forall l i, length l <= n -> i <= snd (scanString l i).
Proof.
  induction n as [|n IH]; intros l i Hl.
  - destruct l; simpl in *; [lia | lia].
  - destruct l as [|c l']; simpl; [lia|].
    simpl in Hl.
    destruct (beq c cBackslash).
    + destruct l' as [|c' l'']; simpl; [lia|].
      simpl in Hl. specialize (IH l'' (i + 2)). lia.
    + destruct (beq c cQuote); simpl; [lia|].
      specialize (IH l' (i + 1)). lia.
Qed.

Lemma scanString_le l i : i <= snd (scanString l i).
Proof. apply scanString_le_aux with (n := length l); apply Nat.le_refl. Qed.

Lemma parseString_follows p :
  follows p (snd (parseString p)).
Proof.
  unfold parseString.
  destruct (at_ (data p) (pos p)) as [c|]; simpl; auto with cursor.
  destruct (beq c cQuote); simpl; auto with cursor.
  pose proof (scanString_le (skipn (S (pos p)) (data p)) (S (pos p))) as H.
  destruct (scanString _ _) as [ok e]; simpl in H.
  destruct ok; simpl; apply follows_mk; lia.
Qed.

Lemma skipDigits_le d i : i <= skipDigits d i.
Proof. unfold skipDigits; lia. Qed.

Lemma numExponent_le d start i :
  i <= pos (snd (numExponent d start i))
  /\ data (snd (numExponent d start i)) = d.
Proof.
  unfold numExponent, numFail.
  destruct (byteIs d i "e" || byteIs d i "E"); simpl; [|split; auto].
  destruct (byteIs d (S i) "+" || byteIs d (S i) "-").
  - destruct (digitAt d (S (S i))); simpl; split; auto.
    pose proof (skipDigits_le d (S (S i))); lia.
  - destruct (digitAt d (S i)); simpl; split; auto.
    pose proof (skipDigits_le d (S i)); lia.
Qed.

Lemma parseNumber_follows p :
  follows p (snd (parseNumber p)).
Proof.
  unfold parseNumber, follows, numFail.
  set (i0 := if byteIs (data p) (pos p) "-" then S (pos p) else pos p).
  assert (H0 : pos p <= i0) by (unfold i0; destruct (byteIs _ _ _); lia).
  destruct (digitAt (data p) i0); simpl; [|split; auto].
  pose proof (skipDigits_le (data p) (S i0)) as H1.
  destruct (byteIs (data p) (skipDigits (data p) (S i0)) ".").
  - destruct (digitAt (data p) (S (skipDigits (data p) (S i0)))); simpl.
    + pose proof (skipDigits_le (data p) (S (skipDigits (data p) (S i0)))).
      destruct (numExponent_le (data p) (pos p)
                  (skipDigits (data p) (S (skipDigits (data p) (S i0))))).
      split; [assumption | lia].
    + split; [reflexivity | lia].
  - destruct (numExponent_le (data p) (pos p) (skipDigits (data p) (S i0))).
    split; [assumption | lia].
Qed.

Lemma matchLiteral_follows p lit :
  follows p (snd (matchLiteral p lit)).
Proof.
  unfold matchLiteral.
  destruct (_ && _); simpl; auto with cursor.
Qed.

Lemma matchLiteral_progress p lit p' :
  lit <> [] -> matchLiteral p lit = (true, p') -> pos p < pos p'.
Proof.
  unfold matchLiteral. intros Hne.
  destruct (_ && _); intros H; inversion H; subst; simpl.
  destruct lit; [congruence | simpl; lia].
Qed.

Lemma parseString_progress p t v p' :
  parseString p = (t, v, p') -> t = TokenString -> pos p < pos p'.
Proof.
  unfold parseString.
  destruct (at_ (data p) (pos p)) as [c|]; [|intros H; inversion H; congruence].
  destruct (beq c cQuote); [|intros H; inversion H; congruence].
  pose proof (scanString_le (skipn (S (pos p)) (data p)) (S (pos p))) as Hle.
  destruct (scanString _ _) as [ok e]; simpl in Hle.
  destruct ok; intros H; inversion H; subst; simpl; intros; [lia | congruence].
Qed.

Lemma numExponent_data d start i :
  i <= pos (snd (numExponent d start i)).
Proof. apply numExponent_le. Qed.

Lemma parseNumber_progress p t v p' :
  parseNumber p = (t, v, p') -> t = TokenNumber -> pos p < pos p'.
Proof.
  unfold parseNumber, numFail.
  set (i0 := if byteIs (data p) (pos p) "-" then S (pos p) else pos p).
  assert (H0 : pos p <= i0) by (unfold i0; destruct (byteIs _ _ _); lia).
  destruct (digitAt (data p) i0); [|intros H; inversion H; congruence].
  pose proof (skipDigits_le (data p) (S i0)) as H1.
  destruct (byteIs (data p) (skipDigits (data p) (S i0)) ".").
  - destruct (digitAt (data p) (S (skipDigits (data p) (S i0)))).
    + pose proof (skipDigits_le (data p) (S (skipDigits (data p) (S i0)))).
      pose proof (numExponent_data (data p) (pos p)
                  (skipDigits (data p) (S (skipDigits (data p) (S i0))))) as H3.
      intros H4; rewrite H4 in H3; simpl in H3; intros; lia.
    + intros H; inversion H; congruence.
  - pose proof (numExponent_data (data p) (pos p)
                  (skipDigits (data p) (S i0))) as H3.
    intros H4; rewrite H4 in H3; simpl in H3; intros; lia.
Qed.

Lemma skipValueF_S f p :
  skipValueF (S f) p = skipValueBody f (skipWhitespace p).
Proof. reflexivity. Qed.

Lemma skipObjectF_S f p :
  skipObjectF (S f) p = skipObjectBody f (skipWhitespace p).
Proof. reflexivity. Qed.

Lemma skipArrayF_S f p :
  skipArrayF (S f) p = skipArrayBody f (skipWhitespace p).
Proof. reflexivity. Qed.

Lemma skipPost_shift p q r :
  follows p q -> skipPost q r -> skipPost p r.
Proof.
  intros Hpq Hq b p' E. destruct (Hq b p' E) as [F P].
  split; [eapply follows_trans; eauto|].
  intros Hb. specialize (P Hb). destruct Hpq. lia.
Qed.

Lemma skipPost_shift1 p q r :
  follows p q -> pos p < pos q ->
  (forall b p', r = Some (b, p') -> follows q p') -> skipPost p r.
Proof.
  intros [D L] Hlt Hq b p' E. destruct (Hq b p' E) as [D' L'].
  split; [split; [congruence | lia] | intros; lia].
Qed.

Lemma skipPost_ret p b q :
  follows p q -> (b = true -> pos p < pos q) -> skipPost p (Some (b, q)).
Proof. intros F P b' p' E; inversion E; subst; auto. Qed.

Lemma skipPost_weak p r :
  skipPost p r -> forall b p', r = Some (b, p') -> follows p p'.
Proof. intros H b p' E; apply (H b p' E). Qed.

Lemma skipFamily_post fuel :
  (forall p, skipPost p (skipValueF fuel p))
  /\ (forall p b p', skipObjectF fuel p = Some (b, p') -> follows p p')
  /\ (forall p b p', skipArrayF fuel p = Some (b, p') -> follows p p').
Proof.
  induction fuel as [|f [IHv [IHo IHa]]].
  - repeat split; simpl; try discriminate; intros; discriminate.
  - split; [|split].
    + intros p. rewrite skipValueF_S.
      apply skipPost_shift with (q := skipWhitespace p); auto with cursor.
      generalize (skipWhitespace p) as q. clear p. intros q.
      unfold skipValueBody.
      destruct (at_ (data q) (pos q)) as [c|];
        [|apply skipPost_ret; auto with cursor; discriminate].
      destruct (beq c "{").
      { apply skipPost_shift1 with (q := advance q 1); auto with cursor.
        - simpl; lia.
        - intros b p'; apply IHo. }
      destruct (beq c "[").
      { apply skipPost_shift1 with (q := advance q 1); auto with cursor.
        - simpl; lia.
        - intros b p'; apply IHa. }
      destruct (beq c cQuote).
      { pose proof (parseString_follows q) as F.
        pose proof (@parseString_progress q) as P.
        destruct (parseString q) as [[t v] p1]. simpl in F.
        apply skipPost_ret; auto.
        destruct t; try discriminate. intros _. eapply P; reflexivity. }
      destruct (beq c "t").
      { pose proof (matchLiteral_follows q (B "true")) as F.
        pose proof (@matchLiteral_progress q (B "true")) as P.
        destruct (matchLiteral q (B "true")) as [b p1]. simpl in F.
        apply skipPost_ret; auto. intros ->. apply P; [discriminate|reflexivity]. }
      destruct (beq c "f").
      { pose proof (matchLiteral_follows q (B "false")) as F.
        pose proof (@matchLiteral_progress q (B "false")) as P.
        destruct (matchLiteral q (B "false")) as [b p1]. simpl in F.
        apply skipPost_ret; auto. intros ->. apply P; [discriminate|reflexivity]. }
      destruct (beq c "n").
      { pose proof (matchLiteral_follows q (B "null")) as F.
        pose proof (@matchLiteral_progress q (B "null")) as P.
        destruct (matchLiteral q (B "null")) as [b p1]. simpl in F.
        apply skipPost_ret; auto. intros ->. apply P; [discriminate|reflexivity]. }
      destruct (isNumberStart c).
      { pose proof (parseNumber_follows q) as F.
        pose proof (@parseNumber_progress q) as P.
        destruct (parseNumber q) as [[t v] p1]. simpl in F.
        apply skipPost_ret; auto.
        destruct t; try discriminate. intros _. eapply P; reflexivity. }
      apply skipPost_ret; auto with cursor; discriminate.
    + intros p b p'. rewrite skipObjectF_S.
      assert (Fq : follows p (skipWhitespace p)) by auto with cursor.
      revert Fq. generalize (skipWhitespace p) as q. intros q Fq.
      unfold skipObjectBody.
      destruct (at_ (data q) (pos q)) as [c|];
        [|intros H; inversion H; subst; assumption].
      destruct (beq c "}").
      { intros H; inversion H; subst.
        eapply follows_trans; eauto with cursor. }
      destruct (beq c ",").
      { intros H. apply IHo in H.
        eapply follows_trans; [|exact H].
        eapply follows_trans; eauto with cursor. }
      pose proof (parseString_follows q) as F1.
      destruct (parseString q) as [[t v] p1]. simpl in F1.
      assert (Fp1 : follows p p1) by (eapply follows_trans; eauto).
      destruct t; try (intros H; inversion H; subst; assumption).
      cbv zeta.
      assert (Fp2 : follows p (skipWhitespace p1))
        by (eapply follows_trans; [exact Fp1 | auto with cursor]).
      revert Fp2. generalize (skipWhitespace p1) as p2. intros p2 Fp2.
      destruct (byteIs (data p2) (pos p2) ":");
        [|intros H; inversion H; subst; assumption].
      pose proof (IHv (advance p2 1)) as Hv.
      destruct (skipValueF f (advance p2 1)) as [[[|] p3]|]; try discriminate.
      * intros H. apply IHo in H.
        destruct (Hv true p3 eq_refl) as [F3 _].
        eapply follows_trans; [|exact H].
        eapply follows_trans; [|exact F3].
        eapply follows_trans; eauto with cursor.
      * intros H; inversion H; subst.
        destruct (Hv false p' eq_refl) as [F3 _].
        eapply follows_trans; [|exact F3].
        eapply follows_trans; eauto with cursor.
    + intros p b p'. rewrite skipArrayF_S.
      assert (Fq : follows p (skipWhitespace p)) by auto with cursor.
      revert Fq. generalize (skipWhitespace p) as q. intros q Fq.
      unfold skipArrayBody.
      destruct (at_ (data q) (pos q)) as [c|];
        [|intros H; inversion H; subst; assumption].
      destruct (beq c "]").
      { intros H; inversion H; subst.
        eapply follows_trans; eauto with cursor. }
      destruct (beq c ",").
      { intros H. apply IHa in H.
        eapply follows_trans; [|exact H].
        eapply follows_trans; eauto with cursor. }
      pose proof (IHv q) as Hv.
      destruct (skipValueF f q) as [[[|] p3]|]; try discriminate.
      * intros H. apply IHa in H.
        destruct (Hv true p3 eq_refl) as [F3 _].
        eapply follows_trans; [|exact H].
        eapply follows_trans; eauto.
      * intros H; inversion H; subst.
        destruct (Hv false p' eq_refl) as [F3 _].
        eapply follows_trans; eauto.
Qed.

(** ** The skip family never runs out of its fuel *)

Lemma at_Some_lt d i c : at_ d i = Some c -> i < length d.
Proof. unfold at_; intros H; apply nth_error_Some; congruence. Qed.

Lemma at_None_ge d i : at_ d i = None -> length d <= i.
Proof. unfold at_; intros H; apply nth_error_None; assumption. Qed.

Lemma byteIs_lt d i c : byteIs d i c = true -> i < length d.
Proof.
  unfold byteIs. destruct (at_ d i) eqn:E; [|discriminate].
  intros _; eapply at_Some_lt; eauto.
Qed.

Lemma follows_remaining p q : follows p q -> remaining q <= remaining p.
Proof. intros [D L]; unfold remaining; rewrite D; lia. Qed.

Lemma remaining_advance p c :
  at_ (data p) (pos p) = Some c ->
  S (remaining (advance p 1)) = remaining p.
Proof.
  intros H; apply at_Some_lt in H. unfold remaining, advance; simpl; lia.
Qed.

Lemma skipFamily_total fuel :
  (forall p, 2 * remaining p < fuel -> skipValueF fuel p <> None)
  /\ (forall p, 2 * remaining p + 1 < fuel -> skipObjectF fuel p <> None)
  /\ (forall p, 2 * remaining p + 1 < fuel -> skipArrayF fuel p <> None).
Proof.
  induction fuel as [|f [IHv [IHo IHa]]].
  - repeat split; intros; lia.
  - split; [|split].
    + intros p Hf. rewrite skipValueF_S.
      pose proof (follows_remaining (follows_skipWhitespace p)) as Hq.
      revert Hq. generalize (skipWhitespace p) as q. intros q Hq.
      unfold skipValueBody.
      destruct (at_ (data q) (pos q)) as [c|] eqn:Ec; [|discriminate].
      pose proof (remaining_advance _ Ec) as Ha.
      destruct (beq c "{"); [apply IHo; lia|].
      destruct (beq c "["); [apply IHa; lia|].
      destruct (beq c cQuote);
        [destruct (parseString q) as [[t v] p1]; discriminate|].
      destruct (beq c "t"); [discriminate|].
      destruct (beq c "f"); [discriminate|].
      destruct (beq c "n"); [discriminate|].
      destruct (isNumberStart c);
        [destruct (parseNumber q) as [[t v] p1]; discriminate|].
      discriminate.
    + intros p Hf. rewrite skipObjectF_S.
      pose proof (follows_remaining (follows_skipWhitespace p)) as Hq.
      revert Hq. generalize (skipWhitespace p) as q. intros q Hq.
      unfold skipObjectBody.
      destruct (at_ (data q) (pos q)) as [c|] eqn:Ec; [|discriminate].
      pose proof (remaining_advance _ Ec) as Ha.
      destruct (beq c "}"); [discriminate|].
      destruct (beq c ","); [apply IHo; lia|].
      pose proof (parseString_follows q) as F1.
      destruct (parseString q) as [[t v] p1]. simpl in F1.
      apply follows_remaining in F1.
      destruct t; try discriminate.
      cbv zeta.
      pose proof (follows_remaining (follows_skipWhitespace p1)) as H2.
      revert H2. generalize (skipWhitespace p1) as p2. intros p2 H2.
      destruct (byteIs (data p2) (pos p2) ":") eqn:Ecolon; [|discriminate].
      assert (H3 : S (remaining (advance p2 1)) = remaining p2).
      { apply byteIs_lt in Ecolon. unfold remaining, advance; simpl; lia. }
      pose proof (skipFamily_post f) as [Pv _].
      specialize (Pv (advance p2 1)).
      pose proof (IHv (advance p2 1)) as Tv.
      destruct (skipValueF f (advance p2 1)) as [[[|] p3]|].
      * destruct (Pv true p3 eq_refl) as [F3 _].
        apply follows_remaining in F3. apply IHo; lia.
      * discriminate.
      * apply Tv; lia.
    + intros p Hf. rewrite skipArrayF_S.
      pose proof (follows_remaining (follows_skipWhitespace p)) as Hq.
      revert Hq. generalize (skipWhitespace p) as q. intros q Hq.
      unfold skipArrayBody.
      destruct (at_ (data q) (pos q)) as [c|] eqn:Ec; [|discriminate].
      pose proof (remaining_advance _ Ec) as Ha.
      apply at_Some_lt in Ec.
      destruct (beq c "]"); [discriminate|].
      destruct (beq c ","); [apply IHa; lia|].
      pose proof (skipFamily_post f) as [Pv _].
      specialize (Pv q).
      pose proof (IHv q) as Tv.
      destruct (skipValueF f q) as [[[|] p3]|].
      * destruct (Pv true p3 eq_refl) as [[D3 L3] P3].
        specialize (P3 eq_refl).
        apply IHa. unfold remaining in *. rewrite D3. lia.
      * discriminate.
      * apply Tv; lia.
Qed.

(** skipValue always returns, on the same input and no earlier in it. *)
Lemma skipValue_returns p :
  exists b p', skipValue p = Some (b, p')
               /\ follows p p' /\ (b = true -> pos p < pos p').
Proof.
  unfold skipValue.
  pose proof (skipFamily_total (skipFuel p)) as [T _].
  pose proof (skipFamily_post (skipFuel p)) as [P _].
  specialize (T p). specialize (P p).
  destruct (skipValueF (skipFuel p) p) as [[b p']|].
  - exists b, p'. split; [reflexivity|]. apply P; reflexivity.
  - exfalso; apply T; [|reflexivity]. unfold skipFuel, remaining; lia.
Qed.

Lemma extractScan_bounds l i :
  match extractScan l i with
  | Some (inr q) => i <= q
  | _ => True
  end.
Proof.
  revert i; induction l as [|c l IH]; intros i; simpl; [exact I|].
  destruct (beq c cBackslash); [exact I|].
  destruct (beq c cQuote); [apply Nat.le_refl|].
  specialize (IH (i + 1)).
  destruct (extractScan l (i + 1)) as [[u|q]|]; auto. lia.
Qed.

Lemma ExtractString_follows p :
  match ExtractString p with
  | Some (_, _, p') => follows p p'
  | None => length (data p) <= pos p
  end.
Proof.
  unfold ExtractString.
  destruct (at_ (data p) (pos p)) as [c|] eqn:Ec;
    [|apply at_None_ge; assumption].
  destruct (beq c cQuote); simpl; [|apply follows_refl].
  pose proof (extractScan_bounds (skipn (S (pos p)) (data p)) (S (pos p))) as Hb.
  destruct (extractScan _ _) as [[u|q]|].
  - pose proof (parseString_follows (mkParser (data p) (pos p))) as F.
    destruct (parseString _) as [[t v] p1]. simpl in F.
    assert (F' : follows p p1) by (destruct F; split; simpl in *; auto).
    destruct t; assumption.
  - apply follows_mk; lia.
  - apply follows_mk; lia.
Qed.

Lemma ExtractBool_follows p : follows p (snd (ExtractBool p)).
Proof.
  unfold ExtractBool.
  pose proof (follows_skipWhitespace p) as Fq.
  revert Fq. generalize (skipWhitespace p) as q. intros q Fq.
  destruct (at_ (data q) (pos q)) as [c|]; [|assumption].
  destruct (beq c "t").
  { pose proof (matchLiteral_follows q (B "true")) as F.
    destruct (matchLiteral q (B "true")) as [[|] p1]; simpl in *;
      eapply follows_trans; eauto. }
  destruct (beq c "f").
  { pose proof (matchLiteral_follows q (B "false")) as F.
    destruct (matchLiteral q (B "false")) as [[|] p1]; simpl in *;
      eapply follows_trans; eauto. }
  assumption.
Qed.

Lemma ExtractNumber_follows (float : Type) (z : float)
      (pf : list byte -> Z -> option float) p :
  follows p (snd (ExtractNumber z pf p)).
Proof.
  unfold ExtractNumber.
  pose proof (parseNumber_follows p) as F.
  destruct (parseNumber p) as [[t v] p1]. simpl in F.
  destruct t; simpl; auto.
  destruct (pf (GetString v) 64%Z); simpl; auto.
Qed.

(** ** skipValue on well-formed values *)

(** *** Views of the unread input *)

Lemma at_skipn d i : at_ d i = hd_error (skipn i d).
Proof.
  unfold at_. revert d; induction i as [|i IH]; intros [|x d]; simpl; auto.
Qed.

Lemma view_next (d : list byte) i x l : skipn i d = x :: l -> skipn (S i) d = l.
Proof.
  revert d; induction i as [|i IH]; intros [|y d]; simpl; try discriminate.
  - intros H; inversion H; reflexivity.
  - intros H. apply IH in H. exact H.
Qed.

Lemma view_app (d : list byte) i a b : skipn i d = a ++ b -> skipn (i + length a) d = b.
Proof.
  revert i; induction a as [|x a IH]; intros i H; simpl in *.
  - rewrite Nat.add_0_r; assumption.
  - apply view_next in H. apply IH in H.
    replace (i + S (length a)) with (S i + length a) by lia. assumption.
Qed.

Lemma view_byteIs d i x l c : skipn i d = x :: l -> byteIs d i c = beq x c.
Proof. intros H; unfold byteIs; rewrite at_skipn, H; reflexivity. Qed.

Lemma view_byteIs_nil (d : list byte) i c : skipn i d = [] -> byteIs d i c = false.
Proof. intros H; unfold byteIs; rewrite at_skipn, H; reflexivity. Qed.

Lemma view_digitAt d i x l : skipn i d = x :: l -> digitAt d i = isDigit x.
Proof. intros H; unfold digitAt; rewrite at_skipn, H; reflexivity. Qed.

Lemma rest_at p : at_ (data p) (pos p) = hd_error (rest p).
Proof. apply at_skipn. Qed.

Lemma rest_advance_app p a b :
  rest p = a ++ b -> rest (advance p (length a)) = b.
Proof. unfold rest, advance; simpl; apply view_app. Qed.

Lemma advance_advance p a b : advance (advance p a) b = advance p (a + b).
Proof. unfold advance; simpl; f_equal; lia. Qed.

Lemma advance_0 p : advance p 0 = p.
Proof. destruct p; unfold advance; simpl; f_equal; lia. Qed.

#[local] Arguments skipn : simpl never.

(** *** Runs of whitespace and of digits *)

Lemma wsRun_app w tl :
  allWs w = true -> noWsHead tl -> wsRun (w ++ tl) = length w.
Proof.
  induction w as [|c w IH]; simpl; intros Hw Htl.
  - destruct tl as [|x tl]; simpl; auto. simpl in Htl; rewrite Htl; reflexivity.
  - apply andb_true_iff in Hw as [Hc Hw]. rewrite Hc. f_equal; auto.
Qed.

Lemma digitRun_app ds tl :
  allDigits ds = true -> noDigitHead tl -> digitRun (ds ++ tl) = length ds.
Proof.
  induction ds as [|c ds IH]; simpl; intros Hd Htl.
  - destruct tl as [|x tl]; simpl; auto. simpl in Htl; rewrite Htl; reflexivity.
  - apply andb_true_iff in Hd as [Hc Hd]. rewrite Hc. f_equal; auto.
Qed.

Lemma view_skipDigits d i ds tl :
  skipn i d = ds ++ tl -> allDigits ds = true -> noDigitHead tl ->
  skipDigits d i = i + length ds.
Proof.
  intros H Hd Htl. unfold skipDigits. rewrite H, digitRun_app; auto.
Qed.

Lemma skipWhitespace_app p w tl :
  rest p = w ++ tl -> allWs w = true -> noWsHead tl ->
  skipWhitespace p = advance p (length w).
Proof.
  intros H Hw Htl. unfold skipWhitespace. fold (rest p).
  rewrite H, wsRun_app; auto.
Qed.

Lemma allWs_app a b : allWs (a ++ b) = allWs a && allWs b.
Proof. apply forallb_app. Qed.

(** *** Facts about single bytes, by enumeration of the 256 values *)

Ltac byte_cases c :=
  destruct c as [[] [] [] [] [] [] [] []]; vm_compute; try discriminate;
  repeat split; try reflexivity.

Lemma digit_facts c :
  isDigit c = true ->
  beq c "{" = false /\ beq c "[" = false /\ beq c cQuote = false
  /\ beq c "t" = false /\ beq c "f" = false /\ beq c "n" = false
  /\ isNumberStart c = true /\ isWhitespace c = false
  /\ beq c "]" = false /\ beq c "," = false /\ beq c "}" = false
  /\ beq c "." = false /\ beq c "e" = false /\ beq c "E" = false
  /\ beq c "+" = false /\ beq c "-" = false /\ beq c cBackslash = false.
Proof. byte_cases c. Qed.

Lemma hex_facts c :
  isHex c = true -> beq c cBackslash = false /\ beq c cQuote = false.
Proof. byte_cases c. Qed.

Lemma ws_facts c :
  isWhitespace c = true ->
  isDigit c = false /\ beq c "." = false /\ beq c "e" = false
  /\ beq c "E" = false.
Proof. byte_cases c. Qed.

Lemma expMarker_facts c :
  beq c "e" || beq c "E" = true -> isDigit c = false /\ beq c "." = false.
Proof. byte_cases c. Qed.

Lemma sign_facts c :
  beq c "+" || beq c "-" = true -> isDigit c = false.
Proof. byte_cases c. Qed.

Lemma beq_refl c : beq c c = true.
Proof. apply Ascii.eqb_refl. Qed.

Lemma beq_true a b : beq a b = true -> a = b.
Proof. apply Ascii.eqb_eq. Qed.

Lemma bytes_eqb_refl l : bytes_eqb l l = true.
Proof. induction l; simpl; auto. rewrite beq_refl; auto. Qed.

Ltac len_norm :=
  repeat (progress (rewrite ?length_app; cbn [length renderFrac app])).

(** *** Strings *)

Lemma scanString_item it tl i :
  wfItem it = true ->
  scanString (renderItem it ++ tl) i = scanString tl (i + length (renderItem it)).
Proof.
  destruct it as [c|c|h1 h2 h3 h4]; simpl; intros H.
  - apply andb_true_iff in H as [H H3]. apply andb_true_iff in H as [H1 H2].
    apply negb_true_iff in H1, H2. rewrite H2, H1. reflexivity.
  - reflexivity.
  - repeat (apply andb_true_iff in H as [H ?]).
    repeat match goal with
           | Hh : isHex _ = true |- _ =>
               apply hex_facts in Hh; destruct Hh as [? ?]
           end.
    change (beq cBackslash cBackslash) with true. cbv iota.
    repeat match goal with
           | Hb : beq ?h cBackslash = false |- context [beq ?h cBackslash] =>
               rewrite Hb
           | Hq : beq ?h cQuote = false |- context [beq ?h cQuote] =>
               rewrite Hq
           end.
    f_equal; lia.
Qed.

Lemma scanString_items s tl i :
  wfString s = true ->
  scanString (renderItems s ++ tl) i = scanString tl (i + length (renderItems s)).
Proof.
  revert i; induction s as [|it s IH]; intros i H; simpl.
  - rewrite Nat.add_0_r; reflexivity.
  - apply andb_true_iff in H as [Hit Hs].
    rewrite <- app_assoc, scanString_item by assumption.
    rewrite IH by assumption. rewrite length_app. f_equal; lia.
Qed.

Lemma parseString_ok p s suf :
  rest p = renderString s ++ suf -> wfString s = true ->
  exists v, parseString p
            = (TokenString, v, advance p (length (renderString s))).
Proof.
  intros H Hs. unfold parseString. rewrite rest_at, H.
  unfold renderString in *. cbn [app hd_error]. rewrite beq_refl.
  unfold rest in H. cbn [app] in H. apply view_next in H.
  rewrite <- app_assoc in H. rewrite H.
  rewrite scanString_items by assumption. cbn [app scanString].
  rewrite beq_refl. change (beq cQuote cBackslash) with false. cbv iota.
  eexists. f_equal. unfold advance. f_equal.
  cbn [length]. rewrite length_app; cbn [length]; lia.
Qed.

(** *** Literals *)

Lemma sub_prefix d i a b :
  skipn i d = a ++ b -> sub d i (i + length a) = a.
Proof.
  intros H. unfold sub. rewrite H.
  replace (i + length a - i) with (length a) by lia.
  rewrite firstn_app, Nat.sub_diag, firstn_all. simpl. apply app_nil_r.
Qed.

Lemma view_length (d : list byte) i l : skipn i d = l -> l <> [] ->
  i + length l <= length d.
Proof.
  intros H Hne.
  assert (length (skipn i d) = length l) by (rewrite H; reflexivity).
  rewrite length_skipn in *.
  destruct l; [congruence|]. simpl in *. lia.
Qed.

Lemma matchLiteral_ok p lit suf :
  rest p = lit ++ suf -> lit <> [] ->
  matchLiteral p lit = (true, advance p (length lit)).
Proof.
  intros H Hne. unfold matchLiteral. unfold rest in H.
  rewrite (sub_prefix _ _ _ _ H), bytes_eqb_refl.
  assert (L : pos p + length lit <= length (data p)).
  { assert (H' : lit ++ suf <> []) by (destruct lit; [congruence | discriminate]).
    pose proof (view_length _ _ H H') as HL. rewrite length_app in HL. lia. }
  apply Nat.leb_le in L. rewrite L. reflexivity.
Qed.

(** *** Numbers *)

Lemma endsValue_noDigit suf : endsValue suf = true -> noDigitHead suf.
Proof.
  destruct suf as [|c suf]; simpl; auto. intros H.
  apply negb_true_iff in H. repeat (apply orb_false_iff in H as [H ?]).
  assumption.
Qed.

Lemma numExponent_ok d start i e suf :
  skipn i d = renderExp e ++ suf -> wfExp e = true -> endsValue suf = true ->
  exists v, numExponent d start i
            = (TokenNumber, v, mkParser d (i + length (renderExp e))).
Proof.
  intros H He Hs. unfold numExponent.
  destruct e as [[[m sg] ds]|]; simpl in *.
  - apply andb_true_iff in He as [He Hall].
    apply andb_true_iff in He as [He Hne].
    apply andb_true_iff in He as [Hmk Hsg].
    rewrite (view_byteIs _ _ "e" H), (view_byteIs _ _ "E" H), Hmk.
    cbv iota.
    pose proof (view_next _ _ H) as V1.
    destruct ds as [|dg ds]; [discriminate|].
    assert (Hdg : isDigit dg = true)
      by (simpl in Hall; apply andb_true_iff in Hall as []; assumption).
    destruct (digit_facts _ Hdg) as
      (_ & _ & _ & _ & _ & _ & _ & _ & _ & _ & _ & _ & _ & _ & Hp & Hm & _).
    destruct sg as [|sc [|sc' sg]]; [| |discriminate]; cbn [app] in *.
    + rewrite (view_byteIs _ _ "+" V1), (view_byteIs _ _ "-" V1), Hp, Hm.
      cbn [orb]. rewrite (view_digitAt _ _ V1), Hdg.
      rewrite (view_skipDigits _ _ (dg :: ds) suf V1); auto.
      * eexists. f_equal. f_equal. cbn [length]. lia.
      * apply endsValue_noDigit; assumption.
    + cbn [wfSign] in Hsg.
      rewrite (view_byteIs _ _ "+" V1), (view_byteIs _ _ "-" V1), Hsg.
      pose proof (view_next _ _ V1) as V3.
      rewrite (view_digitAt _ _ V3), Hdg.
      rewrite (view_skipDigits _ _ (dg :: ds) suf V3); auto.
      * eexists. f_equal. f_equal. cbn [length]. lia.
      * apply endsValue_noDigit; assumption.
  - rewrite Nat.add_0_r.
    destruct suf as [|c suf].
    + rewrite !(view_byteIs_nil _ _ _ H). eexists; reflexivity.
    + rewrite (view_byteIs _ _ "e" H), (view_byteIs _ _ "E" H).
      apply negb_true_iff in Hs.
      apply orb_false_iff in Hs as [Hs HE].
      apply orb_false_iff in Hs as [Hs He'].
      rewrite He', HE. eexists; reflexivity.
Qed.

Lemma exp_head e suf :
  wfExp e = true -> endsValue suf = true ->
  noDigitHead (renderExp e ++ suf)
  /\ match renderExp e ++ suf with
     | [] => True
     | c :: _ => beq c "." = false
     end.
Proof.
  intros He Hs. destruct e as [[[m sg] ds]|]; simpl in *.
  - apply andb_true_iff in He as [He Hall].
    apply andb_true_iff in He as [He Hne].
    apply andb_true_iff in He as [Hmk Hsg].
    destruct (expMarker_facts _ Hmk); auto.
  - split; [apply endsValue_noDigit; assumption|].
    destruct suf as [|c suf]; simpl in *; auto.
    apply negb_true_iff in Hs.
    apply orb_false_iff in Hs as [Hs HE].
    apply orb_false_iff in Hs as [Hs He'].
    apply orb_false_iff in Hs as [Hs Hdot]. assumption.
Qed.

Lemma parseNumber_ok p n suf :
  rest p = renderNum n ++ suf -> wfNum n = true -> endsValue suf = true ->
  exists v, parseNumber p
            = (TokenNumber, v, advance p (length (renderNum n))).
Proof.
  destruct n as [neg int frac e]. unfold renderNum, wfNum, rest.
  cbn [numNeg numInt numFrac numExp].
  intros H Hn Hs. rewrite <- !app_assoc in H.
  apply andb_true_iff in Hn as [Hn He]. apply andb_true_iff in Hn as [Hi Hf].
  destruct int as [|dg ds]; [discriminate|]. simpl in Hi.
  apply andb_true_iff in Hi as [Hi _]. apply andb_true_iff in Hi as [Hdg Hds].
  destruct (digit_facts _ Hdg) as
    (_ & _ & _ & _ & _ & _ & _ & _ & _ & _ & _ & _ & _ & _ & _ & Hm & _).
  unfold parseNumber.
  set (d := data p) in *. set (s := pos p) in *.
  (* the cursor after the optional sign *)
  assert (Hsign : exists i0,
             (if byteIs d s "-" then S s else s) = i0
             /\ i0 = s + length (if neg then ["-"] else [])
             /\ skipn i0 d
                = (dg :: ds) ++ renderFrac frac ++ renderExp e ++ suf).
  { destruct neg; cbn [app] in H.
    - rewrite (view_byteIs _ _ "-" H). rewrite beq_refl.
      exists (S s). repeat split; [cbn [length]; lia|]. apply (view_next _ _ H).
    - rewrite (view_byteIs _ _ "-" H), Hm.
      exists s. repeat split; [cbn [length]; lia | assumption]. }
  destruct Hsign as (i0 & -> & Ei0 & V0).
  cbn [app] in V0.
  rewrite (view_digitAt _ _ V0), Hdg.
  pose proof (view_next _ _ V0) as V1.
  destruct (exp_head e suf He Hs) as [HexpD HexpDot].
  (* the integer digits *)
  assert (R1 : skipDigits d (S i0) = S i0 + length ds).
  { apply (view_skipDigits _ _ ds _ V1); auto.
    destruct frac as [fd|]; simpl; [reflexivity | assumption]. }
  rewrite R1.
  pose proof (view_app _ _ _ _ V1) as V2.
  remember (S i0 + length ds) as i1 eqn:Ei1.
  destruct frac as [fd|]; cbn [renderFrac wfFrac app] in V2, Hf.
  - apply andb_true_iff in Hf as [Hne Hfd].
    destruct fd as [|fg fd]; [discriminate|].
    rewrite (view_byteIs _ _ "." V2), beq_refl.
    pose proof (view_next _ _ V2) as V3.
    assert (Hfg : isDigit fg = true)
      by (simpl in Hfd; apply andb_true_iff in Hfd as []; assumption).
    cbn [app] in V3.
    rewrite (view_digitAt _ _ V3), Hfg.
    change (fg :: fd ++ renderExp e ++ suf)
      with ((fg :: fd) ++ renderExp e ++ suf) in V3.
    rewrite (view_skipDigits _ _ (fg :: fd) _ V3); auto.
    pose proof (view_app _ _ _ _ V3) as V4.
    destruct (numExponent_ok d s _ e suf V4 He Hs) as [v Ev].
    rewrite Ev. eexists. f_equal. unfold advance. fold d. fold s. f_equal.
    len_norm. subst i1 i0. destruct neg; cbn [length]; lia.
  - assert (Hdot : byteIs d i1 "." = false).
    { destruct (renderExp e ++ suf) as [|c l] eqn:El.
      - apply view_byteIs_nil; assumption.
      - rewrite (view_byteIs _ _ "." V2). assumption. }
    rewrite Hdot.
    destruct (numExponent_ok d s _ e suf V2 He Hs) as [v Ev].
    rewrite Ev. eexists. f_equal. unfold advance. fold d. fold s. f_equal.
    len_norm. subst i1 i0. destruct neg; cbn [length]; lia.
Qed.

(** *** Dispatch on the first byte *)

Lemma valueStart_facts c :
  isValueStart c = true ->
  isWhitespace c = false /\ beq c "]" = false /\ beq c "," = false
  /\ beq c "}" = false.
Proof. byte_cases c. Qed.

Lemma numberStart_facts c :
  isNumberStart c = true ->
  beq c "{" = false /\ beq c "[" = false /\ beq c cQuote = false
  /\ beq c "t" = false /\ beq c "f" = false /\ beq c "n" = false.
Proof. byte_cases c. Qed.

Lemma render_head j :
  wfJson j = true ->
  exists c tl, render j = c :: tl /\ isValueStart c = true.
Proof.
  destruct j as [| | |n|s|w es|w ms]; intros H;
    try (eexists; eexists; split; [reflexivity | reflexivity]).
  destruct n as [neg int frac e]. unfold render, renderNum.
  cbn [numNeg numInt numFrac numExp].
  destruct neg.
  - eexists; eexists; split; [reflexivity | reflexivity].
  - cbn [wfJson] in H. unfold wfNum in H. cbn [numInt] in H.
    destruct int as [|dg ds]; [discriminate|].
    cbn [wfInt] in H. do 4 (apply andb_true_iff in H as [H _]).
    eexists; eexists; split; [reflexivity|].
    destruct (digit_facts _ H) as (_ & _ & _ & _ & _ & _ & Hn & _).
    unfold isValueStart. rewrite Hn. repeat rewrite orb_true_r. reflexivity.
Qed.

Lemma head_noWs c tl : isValueStart c = true -> noWsHead (c :: tl).
Proof. intros H; apply valueStart_facts in H as [H _]; exact H. Qed.

Lemma skipValueBody_literal f q c tl lit :
  rest q = c :: tl ->
  (c = "t" /\ lit = B "true") \/ (c = "f" /\ lit = B "false")
  \/ (c = "n" /\ lit = B "null") ->
  skipValueBody f q = Some (matchLiteral q lit).
Proof.
  intros H Hc. unfold skipValueBody. rewrite rest_at, H.
  destruct Hc as [[-> ->]|[[-> ->]|[-> ->]]]; reflexivity.
Qed.

Lemma skipValueBody_string f q tl :
  rest q = cQuote :: tl ->
  skipValueBody f q
  = (let '(t, _, p') := parseString q in
     Some (match t with TokenString => true | _ => false end, p')).
Proof. intros H. unfold skipValueBody. rewrite rest_at, H. reflexivity. Qed.

Lemma skipValueBody_number f q c tl :
  rest q = c :: tl -> isNumberStart c = true ->
  skipValueBody f q
  = (let '(t, _, p') := parseNumber q in
     Some (match t with TokenNumber => true | _ => false end, p')).
Proof.
  intros H Hc. unfold skipValueBody. rewrite rest_at, H. cbn [hd_error].
  destruct (numberStart_facts _ Hc) as (H1 & H2 & H3 & H4 & H5 & H6).
  rewrite H1, H2, H3, H4, H5, H6, Hc. reflexivity.
Qed.

Lemma skipValueBody_array f q tl :
  rest q = "["%char :: tl ->
  skipValueBody f q = skipArrayF f (advance q 1).
Proof. intros H. unfold skipValueBody. rewrite rest_at, H. reflexivity. Qed.

Lemma skipValueBody_object f q tl :
  rest q = "{"%char :: tl ->
  skipValueBody f q = skipObjectF f (advance q 1).
Proof. intros H. unfold skipValueBody. rewrite rest_at, H. reflexivity. Qed.

Lemma rest_advance1 p c tl : rest p = c :: tl -> rest (advance p 1) = tl.
Proof. intros H. apply (rest_advance_app p [c] tl H). Qed.

Lemma endsValue_sep w c tl :
  allWs w = true -> c = ","%char \/ c = "]"%char \/ c = "}"%char ->
  endsValue (w ++ c :: tl) = true.
Proof.
  intros Hw Hc. destruct w as [|x w]; simpl.
  - destruct Hc as [ -> | [ -> | -> ] ]; reflexivity.
  - simpl in Hw. apply andb_true_iff in Hw as [Hx _].
    destruct (ws_facts _ Hx) as (H1 & H2 & H3 & H4).
    rewrite H1, H2, H3, H4. reflexivity.
Qed.

Lemma sepElems_head more tl :
  exists c tl', sepElems more ++ "]"%char :: tl = c :: tl'
                /\ (c = ","%char \/ c = "]"%char \/ c = "}"%char).
Proof.
  destruct more; simpl; eexists; eexists; split; try reflexivity; auto.
Qed.

Lemma sepMembers_head more tl :
  exists c tl', sepMembers more ++ "}"%char :: tl = c :: tl'
                /\ (c = ","%char \/ c = "]"%char \/ c = "}"%char).
Proof.
  destruct more; simpl; eexists; eexists; split; try reflexivity; auto.
Qed.

(** *** The induction over well-formed values *)

Ltac finish_advance :=
  split; [reflexivity|];
  rewrite ?advance_advance; unfold advance; f_equal;
  len_norm; cbn [length]; lia.

(** Entering a call: one unit of fuel is spent and the leading whitespace
    [w] is skipped. *)
Lemma enter_ws p w tl c tl' :
  rest p = w ++ tl -> allWs w = true -> tl = c :: tl' ->
  isWhitespace c = false ->
  skipWhitespace p = advance p (length w)
  /\ rest (advance p (length w)) = c :: tl'.
Proof.
  intros H Hw -> Hc. split.
  - eapply skipWhitespace_app; eauto.
  - apply rest_advance_app; assumption.
Qed.

(** The loop of skipArray once an element has been skipped. *)
Lemma after_element more :
  (wfElems more = true -> skipsElems more) ->
  wfElems more = true ->
  forall wa fuel p suf b p',
    allWs wa = true ->
    rest p = wa ++ sepElems more ++ "]"%char :: suf ->
    skipArrayF fuel p = Some (b, p') ->
    b = true
    /\ p' = advance p (length wa + length (sepElems more) + 1).
Proof.
  intros IH Hwf wa fuel p suf b p' Hwa Hrest Hrun.
  destruct more as [|wb v wa' more'].
  - cbn [sepElems app] in *.
    destruct (IH Hwf wa fuel p suf b p' Hwa Hrest Hrun) as [-> ->].
    finish_advance.
  - cbn [sepElems] in *.
    destruct fuel as [|f]; [discriminate|].
    rewrite skipArrayF_S in Hrun.
    destruct (@enter_ws p wa _ ","%char
                (renderElems (ECons wb v wa' more') ++ "]"%char :: suf)
                Hrest Hwa eq_refl eq_refl) as [Ews Eq].
    rewrite Ews in Hrun. unfold skipArrayBody in Hrun.
    rewrite rest_at, Eq in Hrun. cbn [hd_error] in Hrun.
    change (beq "," "]") with false in Hrun.
    change (beq "," ",") with true in Hrun. cbv iota in Hrun.
    apply rest_advance1 in Eq.
    destruct (IH Hwf [] f _ suf b p' eq_refl Eq Hrun) as [-> ->].
    finish_advance.
Qed.

Lemma after_member more :
  (wfMembers more = true -> skipsMembers more) ->
  wfMembers more = true ->
  forall wa fuel p suf b p',
    allWs wa = true ->
    rest p = wa ++ sepMembers more ++ "}"%char :: suf ->
    skipObjectF fuel p = Some (b, p') ->
    b = true
    /\ p' = advance p (length wa + length (sepMembers more) + 1).
Proof.
  intros IH Hwf wa fuel p suf b p' Hwa Hrest Hrun.
  destruct more as [|wb key wk wv v wa' more'].
  - cbn [sepMembers app] in *.
    destruct (IH Hwf wa fuel p suf b p' Hwa Hrest Hrun) as [-> ->].
    finish_advance.
  - cbn [sepMembers] in *.
    destruct fuel as [|f]; [discriminate|].
    rewrite skipObjectF_S in Hrun.
    destruct (@enter_ws p wa _ ","%char
                (renderMembers (MCons wb key wk wv v wa' more')
                 ++ "}"%char :: suf)
                Hrest Hwa eq_refl eq_refl) as [Ews Eq].
    rewrite Ews in Hrun. unfold skipObjectBody in Hrun.
    rewrite rest_at, Eq in Hrun. cbn [hd_error] in Hrun.
    change (beq "," "}") with false in Hrun.
    change (beq "," ",") with true in Hrun. cbv iota in Hrun.
    apply rest_advance1 in Eq.
    destruct (IH Hwf [] f _ suf b p' eq_refl Eq Hrun) as [-> ->].
    finish_advance.
Qed.

Lemma followOK_ends j suf : endsValue suf = true -> followOK j suf = true.
Proof. destruct j; simpl; auto. Qed.

Lemma skip_literal lit c tl :
  lit = c :: tl -> isWhitespace c = false ->
  (c = "t"%char /\ lit = B "true") \/ (c = "f"%char /\ lit = B "false")
  \/ (c = "n"%char /\ lit = B "null") ->
  forall w0 fuel p suf b p',
    allWs w0 = true ->
    rest p = w0 ++ lit ++ suf ->
    skipValueF fuel p = Some (b, p') ->
    b = true /\ p' = advance p (length w0 + length lit).
Proof.
  intros El Hc Hlit w0 fuel p suf b p' Hw0 Hrest Hrun.
  destruct fuel as [|f]; [discriminate|].
  rewrite skipValueF_S in Hrun.
  assert (Etl : lit ++ suf = c :: tl ++ suf) by (rewrite El; reflexivity).
  destruct (@enter_ws _ _ _ _ _ Hrest Hw0 Etl Hc) as [Ews Eq].
  rewrite Ews in Hrun.
  rewrite (@skipValueBody_literal f _ _ _ _ Eq Hlit) in Hrun.
  rewrite <- Etl in Eq.
  rewrite (@matchLiteral_ok _ _ _ Eq) in Hrun by (rewrite El; discriminate).
  inversion Hrun; subst b p'. finish_advance.
Qed.

Theorem skipFamily_wellformed :
  (forall j, wfJson j = true -> skipsValue j)
  /\ (forall es, wfElems es = true -> skipsElems es)
  /\ (forall ms, wfMembers ms = true -> skipsMembers ms).
Proof.
  apply Json_mutind.
  - (* null *)
    intros _ w0 fuel p suf b p' Hw0 _.
    apply (@skip_literal (B "null") "n"%char (B "ull")); auto.
  - (* true *)
    intros _ w0 fuel p suf b p' Hw0 _.
    apply (@skip_literal (B "true") "t"%char (B "rue")); auto.
  - (* false *)
    intros _ w0 fuel p suf b p' Hw0 _.
    apply (@skip_literal (B "false") "f"%char (B "alse")); auto.
  - (* number *)
    intros n Hwf w0 fuel p suf b p' Hw0 Hsuf Hrest Hrun.
    destruct fuel as [|f]; [discriminate|].
    rewrite skipValueF_S in Hrun.
    destruct (@render_head (JNumber n) Hwf) as (c & tl & Ehd & Hc).
    cbn [render] in *.
    assert (Etl : renderNum n ++ suf = c :: tl ++ suf)
      by (rewrite Ehd; reflexivity).
    destruct (@enter_ws _ _ _ _ _ Hrest Hw0 Etl (@head_noWs _ tl Hc)) as [Ews Eq].
    rewrite Ews in Hrun.
    assert (Hns : isNumberStart c = true).
    { destruct n as [[] [|dg ds] fr e]; cbn in Ehd; inversion Ehd;
        try reflexivity.
      - discriminate Hwf.
      - subst. cbn [wfJson] in Hwf. unfold wfNum in Hwf. cbn [numInt wfInt] in Hwf.
        do 4 (apply andb_true_iff in Hwf as [Hwf _]).
        apply digit_facts in Hwf. apply Hwf. }
    rewrite (@skipValueBody_number f _ _ _ Eq Hns) in Hrun.
    rewrite <- Etl in Eq.
    destruct (@parseNumber_ok _ _ _ Eq Hwf Hsuf) as [v Ev].
    rewrite Ev in Hrun. inversion Hrun; subst b p'. finish_advance.
  - (* string *)
    intros s Hwf w0 fuel p suf b p' Hw0 Hsuf Hrest Hrun.
    destruct fuel as [|f]; [discriminate|].
    rewrite skipValueF_S in Hrun.
    cbn [render wfJson] in *.
    assert (Etl : renderString s ++ suf
                  = cQuote :: (renderItems s ++ [cQuote]) ++ suf)
      by reflexivity.
    destruct (@enter_ws _ _ _ _ _ Hrest Hw0 Etl eq_refl) as [Ews Eq].
    rewrite Ews in Hrun.
    rewrite (@skipValueBody_string f _ _ Eq) in Hrun.
    rewrite <- Etl in Eq.
    destruct (@parseString_ok _ _ _ Eq Hwf) as [v Ev].
    rewrite Ev in Hrun. inversion Hrun; subst b p'. finish_advance.
  - (* array *)
    intros w es IH Hwf w0 fuel p suf b p' Hw0 Hsuf Hrest Hrun.
    destruct fuel as [|f]; [discriminate|].
    rewrite skipValueF_S in Hrun.
    cbn [render wfJson] in *.
    apply andb_true_iff in Hwf as [Hw Hes].
    assert (Etl : ("["%char :: w ++ renderElems es ++ ["]"%char]) ++ suf
                  = "["%char :: w ++ renderElems es ++ "]"%char :: suf).
    { cbn [app]. rewrite <- !app_assoc. reflexivity. }
    destruct (@enter_ws _ _ _ _ _ Hrest Hw0 Etl eq_refl) as [Ews Eq].
    rewrite Ews in Hrun.
    rewrite (@skipValueBody_array f _ _ Eq) in Hrun.
    apply rest_advance1 in Eq.
    destruct (IH Hes w f _ suf b p' Hw Eq Hrun) as [-> ->].
    finish_advance.
  - (* object *)
    intros w ms IH Hwf w0 fuel p suf b p' Hw0 Hsuf Hrest Hrun.
    destruct fuel as [|f]; [discriminate|].
    rewrite skipValueF_S in Hrun.
    cbn [render wfJson] in *.
    apply andb_true_iff in Hwf as [Hw Hms].
    assert (Etl : ("{"%char :: w ++ renderMembers ms ++ ["}"%char]) ++ suf
                  = "{"%char :: w ++ renderMembers ms ++ "}"%char :: suf).
    { cbn [app]. rewrite <- !app_assoc. reflexivity. }
    destruct (@enter_ws _ _ _ _ _ Hrest Hw0 Etl eq_refl) as [Ews Eq].
    rewrite Ews in Hrun.
    rewrite (@skipValueBody_object f _ _ Eq) in Hrun.
    apply rest_advance1 in Eq.
    destruct (IH Hms w f _ suf b p' Hw Eq Hrun) as [-> ->].
    finish_advance.
  - (* no element left: the closing bracket *)
    intros _ w0 fuel p suf b p' Hw0 Hrest Hrun.
    destruct fuel as [|f]; [discriminate|].
    rewrite skipArrayF_S in Hrun. cbn [renderElems app] in *.
    destruct (@enter_ws _ _ _ _ _ Hrest Hw0 eq_refl eq_refl) as [Ews Eq].
    rewrite Ews in Hrun. unfold skipArrayBody in Hrun.
    rewrite rest_at, Eq in Hrun. cbn [hd_error] in Hrun.
    change (beq "]" "]") with true in Hrun. cbv iota in Hrun.
    inversion Hrun; subst b p'. finish_advance.
  - (* an element, then the rest of the array *)
    intros wb v IHv wa more IHmore Hwf w0 fuel p suf b p' Hw0 Hrest Hrun.
    cbn [wfElems] in Hwf.
    apply andb_true_iff in Hwf as [Hwf Hmore].
    apply andb_true_iff in Hwf as [Hwf Hwa].
    apply andb_true_iff in Hwf as [Hwb Hv].
    destruct fuel as [|f]; [discriminate|].
    rewrite skipArrayF_S in Hrun.
    change (renderElems (ECons wb v wa more))
      with (wb ++ render v ++ wa ++ sepElems more) in *.
    destruct (@render_head v Hv) as (c & tl & Ehd & Hc).
    assert (Hrest' : rest p = (w0 ++ wb)
                              ++ render v ++ wa ++ sepElems more ++ "]"%char :: suf).
    { rewrite Hrest. rewrite <- !app_assoc. reflexivity. }
    assert (Hws : allWs (w0 ++ wb) = true)
      by (rewrite allWs_app, Hw0, Hwb; reflexivity).
    assert (Etl : render v ++ wa ++ sepElems more ++ "]"%char :: suf
                  = c :: tl ++ wa ++ sepElems more ++ "]"%char :: suf)
      by (rewrite Ehd; reflexivity).
    destruct (@enter_ws _ _ _ _ _ Hrest' Hws Etl (@head_noWs _ tl Hc)) as [Ews Eq].
    rewrite Ews in Hrun. unfold skipArrayBody in Hrun.
    rewrite rest_at, Eq in Hrun. cbn [hd_error] in Hrun.
    destruct (@valueStart_facts _ Hc) as (_ & Hb & Hcm & _).
    rewrite Hb, Hcm in Hrun.
    rewrite <- Etl in Eq.
    destruct (skipValueF f (advance p (length (w0 ++ wb))))
      as [[b1 p3]|] eqn:Ev; [|discriminate].
    assert (Hends : endsValue (wa ++ sepElems more ++ "]"%char :: suf) = true).
    { destruct (@sepElems_head more suf) as (c' & tl' & E' & Hc').
      rewrite E'. apply endsValue_sep; assumption. }
    destruct (IHv Hv [] f _ _ b1 p3 eq_refl (followOK_ends v _ Hends) Eq Ev)
      as [-> ->].
    assert (Eq3 : rest (advance (advance p (length (w0 ++ wb)))
                                (length (@nil byte) + length (render v)))
                  = wa ++ sepElems more ++ "]"%char :: suf).
    { cbn [length Nat.add]. apply rest_advance_app. assumption. }
    destruct (@after_element more IHmore Hmore wa f _ suf _ _ Hwa Eq3 Hrun) as [-> ->].
    finish_advance.
  - (* no member left: the closing brace *)
    intros _ w0 fuel p suf b p' Hw0 Hrest Hrun.
    destruct fuel as [|f]; [discriminate|].
    rewrite skipObjectF_S in Hrun. cbn [renderMembers app] in *.
    destruct (@enter_ws _ _ _ _ _ Hrest Hw0 eq_refl eq_refl) as [Ews Eq].
    rewrite Ews in Hrun. unfold skipObjectBody in Hrun.
    rewrite rest_at, Eq in Hrun. cbn [hd_error] in Hrun.
    change (beq "}" "}") with true in Hrun. cbv iota in Hrun.
    inversion Hrun; subst b p'. finish_advance.
  - (* a member, then the rest of the object *)
    intros wb key wk wv v IHv wa more IHmore Hwf w0 fuel p suf b p'
           Hw0 Hrest Hrun.
    cbn [wfMembers] in Hwf.
    apply andb_true_iff in Hwf as [Hwf Hmore].
    apply andb_true_iff in Hwf as [Hwf Hwa].
    apply andb_true_iff in Hwf as [Hwf Hv].
    apply andb_true_iff in Hwf as [Hwf Hwv].
    apply andb_true_iff in Hwf as [Hwf Hwk].
    apply andb_true_iff in Hwf as [Hwb Hkey].
    destruct fuel as [|f]; [discriminate|].
    rewrite skipObjectF_S in Hrun.
    change (renderMembers (MCons wb key wk wv v wa more))
      with (wb ++ renderString key ++ wk
            ++ ":"%char :: wv ++ render v ++ wa ++ sepMembers more) in *.
    set (tailV := wa ++ sepMembers more ++ "}"%char :: suf) in *.
    assert (Hrest' : rest p = (w0 ++ wb) ++ renderString key
                              ++ wk ++ ":"%char :: wv ++ render v ++ tailV).
    { rewrite Hrest. unfold tailV. rewrite <- !app_assoc. cbn [app].
      rewrite <- !app_assoc. reflexivity. }
    assert (Hws : allWs (w0 ++ wb) = true)
      by (rewrite allWs_app, Hw0, Hwb; reflexivity).
    assert (Etl : renderString key ++ wk ++ ":"%char :: wv ++ render v ++ tailV
                  = cQuote :: (renderItems key ++ [cQuote])
                           ++ wk ++ ":"%char :: wv ++ render v ++ tailV)
      by reflexivity.
    destruct (@enter_ws _ _ _ _ _ Hrest' Hws Etl eq_refl) as [Ews Eq].
    rewrite Ews in Hrun. unfold skipObjectBody in Hrun.
    rewrite rest_at, Eq in Hrun. cbn [hd_error] in Hrun.
    change (beq cQuote "}") with false in Hrun.
    change (beq cQuote ",") with false in Hrun. cbv iota in Hrun.
    rewrite <- Etl in Eq.
    destruct (@parseString_ok _ _ _ Eq Hkey) as [kv Ek].
    rewrite Ek in Hrun. cbv zeta in Hrun.
    apply rest_advance_app in Eq.
    destruct (@enter_ws _ _ _ _ _ Eq Hwk eq_refl eq_refl) as [Ews2 Eq2].
    rewrite Ews2 in Hrun.
    assert (Hcolon : byteIs (data (advance (advance (advance p (length (w0 ++ wb)))
                                     (length (renderString key))) (length wk)))
                            (pos (advance (advance (advance p (length (w0 ++ wb)))
                                     (length (renderString key))) (length wk)))
                            ":" = true).
    { unfold rest in Eq2. rewrite (@view_byteIs _ _ _ _ ":" Eq2). reflexivity. }
    rewrite Hcolon in Hrun.
    apply rest_advance1 in Eq2.
    destruct (skipValueF f _) as [[b1 p3]|] eqn:Ev in Hrun; [|discriminate].
    assert (Hends : endsValue tailV = true).
    { unfold tailV. destruct (@sepMembers_head more suf) as (c' & tl' & E' & Hc').
      rewrite E'. apply endsValue_sep; assumption. }
    destruct (IHv Hv wv f _ _ b1 p3 Hwv (followOK_ends v _ Hends) Eq2 Ev)
      as [-> ->].
    assert (Eq3 : rest (advance
                          (advance (advance (advance (advance p (length (w0 ++ wb)))
                                     (length (renderString key))) (length wk)) 1)
                          (length wv + length (render v)))
                  = tailV).
    { rewrite <- length_app. apply rest_advance_app.
      rewrite <- app_assoc. assumption. }
    destruct (@after_member more IHmore Hmore wa f _ suf _ _ Hwa Eq3 Hrun) as [-> ->].
    finish_advance.
Qed.

(** An escaped quote inside a string: after any complete run of string items
    the two bytes backslash, quote are passed over and the scan goes on with
    what follows them. *)
Lemma scanString_escaped_quote s tl i :
  wfString s = true ->
  scanString (renderItems s ++ cBackslash :: cQuote :: tl) i
  = scanString tl (i + length (renderItems s) + 2).
Proof.
  intros Hs. rewrite scanString_items by assumption. reflexivity.
Qed.

(** C8.  For every well-formed JSON value [j], at every nesting depth, with
    any whitespace [w0] in front of it, skipValue returns [true] and leaves
    the cursor on the first byte after the value; for a number this needs the
    next byte, if there is one, not to continue the number.  In particular a
    quote that follows an unconsumed backslash does not end a string: the scan
    of parseString passes over the pair and continues behind it. *)
Theorem skipValue_wellformed :
  (forall (j : Json) (p : Parser) (w0 suf : list byte),
      wfJson j = true -> allWs w0 = true -> followOK j suf = true ->
      rest p = w0 ++ render j ++ suf ->
      skipValue p
      = Some (true, mkParser (data p) (pos p + length w0 + length (render j))))
  /\ (forall (s : list StrItem) (tl : list byte) (i : nat),
         wfString s = true ->
         scanString (renderItems s ++ cBackslash :: cQuote :: tl) i
         = scanString tl (i + length (renderItems s) + 2)).
Proof.
  split.
  - intros j p w0 suf Hj Hw Hs Hrest.
    destruct (skipValue_returns p) as (b & p' & E & _).
    rewrite E. unfold skipValue in E.
    destruct skipFamily_wellformed as [Hv _].
    destruct (Hv j Hj w0 (skipFuel p) p suf b p' Hw Hs Hrest E) as [-> ->].
    replace (pos p + length w0 + length (render j))
      with (pos p + (length w0 + length (render j))) by lia.
    reflexivity.
  - exact scanString_escaped_quote.
Qed.

Lemma skipValue_wellformed_witness :
  (wfJson sampleValue = true /\ allWs (B "  ") = true
   /\ followOK sampleValue (B " 1") = true
   /\ rest (NewParser sampleInput) = B "  " ++ render sampleValue ++ B " 1")
  /\ skipValue (NewParser sampleInput) = Some (true, mkParser sampleInput 28).
Proof.
  assert (H : wfJson sampleValue = true /\ allWs (B "  ") = true
              /\ followOK sampleValue (B " 1") = true
              /\ rest (NewParser sampleInput)
                 = B "  " ++ render sampleValue ++ B " 1")
    by (repeat split; reflexivity).
  split; [exact H|].
  destruct H as (H1 & H2 & H3 & H4).
  exact (proj1 skipValue_wellformed sampleValue (NewParser sampleInput)
               (B "  ") (B " 1") H1 H2 H3 H4).
Defined.

(** ** C9 and C10 *)

(** C9.  Every operation of the parser leaves the input slice untouched and
    the cursor at or after its previous offset; the state of a parser is
    exactly the pair of the input slice and the offset.  skipValue always
    returns; ExtractString returns unless the cursor is already at or past
    the end of the input, where the index expression of the source panics. *)
Theorem cursor_monotone :
  (forall p, follows p (skipWhitespace p))
  /\ (forall p, follows p (snd (parseString p)))
  /\ (forall p, follows p (snd (parseNumber p)))
  /\ (forall p literal, follows p (snd (matchLiteral p literal)))
  /\ (forall p, exists b p', skipValue p = Some (b, p') /\ follows p p')
  /\ (forall p, match ExtractString p with
                | Some (_, _, p') => follows p p'
                | None => length (data p) <= pos p
                end)
  /\ (forall (float : Type) (zero : float)
             (ParseFloat : list byte -> Z -> option float) p,
         follows p (snd (ExtractNumber zero ParseFloat p)))
  /\ (forall p, follows p (snd (ExtractBool p)))
  /\ (forall p : Parser, p = mkParser (data p) (pos p)).
Proof.
  split; [exact follows_skipWhitespace|].
  split; [exact parseString_follows|].
  split; [exact parseNumber_follows|].
  split; [exact matchLiteral_follows|].
  split.
  { intros p. destruct (skipValue_returns p) as (b & p' & E & F & _).
    exists b, p'. split; assumption. }
  split; [exact ExtractString_follows|].
  split; [intros float zero pf p; apply ExtractNumber_follows|].
  split; [exact ExtractBool_follows|].
  intros [d i]; reflexivity.
Qed.

(** C10.  With no path segment Extract returns its argument itself, the
    caller's slice and not a copy, with found = true, whatever the bytes of
    the argument are. *)
Theorem Extract_empty_path :
  forall input : list byte,
    Extract input [] = Some (Whole, true) /\ bytesOf input Whole = input.
Proof. intros input; split; reflexivity. Qed.

(** * Properties of the buffer *)

Lemma N_le_lor a b : (a <= N.lor a b)%N.
Proof.
  assert (E : N.lor a b = (a + N.ldiff b a)%N).
  { assert (Z0 : N.land a (N.ldiff b a) = 0%N).
    { apply N.bits_inj; intro n.
      rewrite N.land_spec, N.ldiff_spec, N.bits_0.
      destruct (N.testbit a n), (N.testbit b n); reflexivity. }
    rewrite N.add_nocarry_lxor by exact Z0.
    rewrite N.lxor_lor by exact Z0.
    apply N.bits_inj; intro n.
    rewrite !N.lor_spec, N.ldiff_spec.
    destruct (N.testbit a n), (N.testbit b n); reflexivity. }
  rewrite E. lia.
Qed.

Lemma roundSmall_ge c : (c <= roundSmall c)%N.
Proof.
  unfold roundSmall.
  pose proof (N_le_lor (N.pred c) (N.shiftr (N.pred c) 1)) as H1.
  set (c1 := N.lor (N.pred c) (N.shiftr (N.pred c) 1)) in *.
  pose proof (N_le_lor c1 (N.shiftr c1 2)) as H2.
  set (c2 := N.lor c1 (N.shiftr c1 2)) in *.
  pose proof (N_le_lor c2 (N.shiftr c2 4)) as H3.
  set (c3 := N.lor c2 (N.shiftr c2 4)) in *.
  pose proof (N_le_lor c3 (N.shiftr c3 8)) as H4.
  lia.
Qed.

Lemma doubleUntil_ge fuel c need :
  (1 <= c)%N -> (need <= c + N.of_nat fuel)%N ->
  (need <= doubleUntil fuel c need)%N.
Proof.
  revert c; induction fuel as [|f IH]; intros c Hc Hn; simpl.
  - lia.
  - destruct (N.ltb_spec c need) as [Hlt|Hge]; [|assumption].
    apply IH; rewrite N.shiftl_mul_pow2; simpl; lia.
Qed.

Lemma growCap_ge cur needed : needed <= growCap cur needed.
Proof.
  unfold growCap.
  set (need := N.of_nat needed).
  set (c0 := if N.eqb (N.of_nat cur) 0 then doubleUntil needed 64 need
             else if N.ltb (N.of_nat cur) 512
                  then roundSmall (N.max (N.of_nat cur * 4) need)
                  else if N.ltb (N.of_nat cur) 8192
                       then N.max (N.of_nat cur * 2) need
                       else N.max (N.of_nat cur + N.of_nat cur / 2) need).
  assert (H0 : (need <= c0)%N).
  { unfold c0.
    destruct (N.eqb (N.of_nat cur) 0).
    - apply doubleUntil_ge; unfold need; lia.
    - destruct (N.ltb (N.of_nat cur) 512).
      + pose proof (roundSmall_ge (N.max (N.of_nat cur * 4) need)). lia.
      + destruct (N.ltb (N.of_nat cur) 8192); lia. }
  assert (H1 : (need <= (if N.ltb maxBufferSize c0 && N.leb need maxBufferSize
                         then maxBufferSize else c0))%N).
  { destruct (N.ltb maxBufferSize c0); simpl; [|assumption].
    destruct (N.leb_spec need maxBufferSize); [assumption | assumption]. }
  revert H1.
  generalize (if N.ltb maxBufferSize c0 && N.leb need maxBufferSize
              then maxBufferSize else c0).
  intros m Hm. unfold need in Hm. lia.
Qed.

Lemma length_firstn_le (l : list byte) n :
  n <= length l -> length (firstn n l) = n.
Proof. intros H. rewrite length_firstn. lia. Qed.

(** What grow establishes: the offset and the bytes before it are kept, and
    the logical length becomes [off + n]. *)
Lemma grow_spec b n :
  off b <= cap b ->
  exists b', grow b n = Some b'
             /\ off b' = off b
             /\ length (buf b') = off b + n
             /\ firstn (off b) (buf b') = firstn (off b) (buf b ++ spare b)
             /\ cap b <= cap b'.
Proof.
  intros Hoff. unfold grow.
  assert (Hcap : cap b = length (buf b ++ spare b))
    by (unfold cap; rewrite length_app; reflexivity).
  destruct (Nat.leb_spec (off b + n) (cap b)) as [Hle|Hgt].
  - eexists; split; [reflexivity|]. unfold reslice, cap; simpl.
    repeat split.
    + apply length_firstn_le. lia.
    + rewrite firstn_firstn. f_equal. lia.
    + rewrite length_firstn, length_skipn, length_app. lia.
  - destruct (Nat.ltb_spec (cap b) (off b)) as [Hbad|_]; [lia|].
    pose proof (growCap_ge (cap b) (off b + n)) as Hg.
    destruct (Nat.ltb_spec (growCap (cap b) (off b + n)) (off b + n)) as [Hbad|_];
      [lia|].
    eexists; split; [reflexivity|]. unfold cap; simpl.
    assert (Hf : length (firstn (off b) (buf b ++ spare b)) = off b)
      by (apply length_firstn_le; lia).
    repeat split.
    + rewrite length_app, Hf, repeat_length. lia.
    + rewrite firstn_app, Hf, Nat.sub_diag. simpl.
      rewrite app_nil_r. rewrite firstn_firstn. f_equal. lia.
    + rewrite length_app, Hf, !repeat_length. unfold cap in *. lia.
Qed.

(** What [copy(dst[at:], src)] does. *)
Lemma copyAt_spec dst at' src :
  at' <= length dst ->
  length (fst (copyAt dst at' src)) = length dst
  /\ snd (copyAt dst at' src) = Nat.min (length dst - at') (length src)
  /\ firstn at' (fst (copyAt dst at' src)) = firstn at' dst
  /\ sub (fst (copyAt dst at' src)) at' (at' + snd (copyAt dst at' src))
     = firstn (snd (copyAt dst at' src)) src.
Proof.
  intros Hat. unfold copyAt; simpl.
  set (n := Nat.min (length dst - at') (length src)).
  assert (Hf : length (firstn at' dst) = at') by (apply length_firstn_le; lia).
  assert (Hn : length (firstn n src) = n)
    by (apply length_firstn_le; unfold n; lia).
  repeat split.
  - rewrite !length_app, Hf, Hn, length_skipn. unfold n. lia.
  - rewrite firstn_app, Hf, Nat.sub_diag. simpl. rewrite app_nil_r.
    rewrite firstn_firstn. f_equal. lia.
  - unfold sub. replace (at' + n - at') with n by lia.
    rewrite skipn_app, Hf, Nat.sub_diag, skipn_O.
    rewrite (skipn_all2 (firstn at' dst)) by lia. cbn [app].
    rewrite firstn_app, Hn, Nat.sub_diag, firstn_O, app_nil_r.
    apply firstn_all2; lia.
Qed.

Lemma firstn_app_le (l r : list byte) n :
  n <= length l -> firstn n (l ++ r) = firstn n l.
Proof.
  intros H. rewrite firstn_app.
  replace (n - length l) with 0 by lia. rewrite firstn_O. apply app_nil_r.
Qed.

Lemma copyIn_spec b src :
  off b <= length (buf b) ->
  exists b' n, copyIn b src = Some (b', n)
    /\ off b' = off b /\ spare b' = spare b
    /\ length (buf b') = length (buf b)
    /\ n = Nat.min (length (buf b) - off b) (length src)
    /\ firstn (off b) (buf b') = firstn (off b) (buf b)
    /\ sub (buf b') (off b) (off b + n) = firstn n src.
Proof.
  intros Hoff. unfold copyIn.
  destruct (Nat.ltb_spec (length (buf b)) (off b)) as [Hbad|_]; [lia|].
  destruct (@copyAt_spec (buf b) (off b) src Hoff) as (H1 & H2 & H3 & H4).
  destruct (copyAt (buf b) (off b) src) as [dst n]. simpl in *.
  exists (mkBuffer dst (spare b) (off b)), n. simpl.
  repeat split; assumption.
Qed.

Lemma Write_spec b p :
  off b <= cap b ->
  exists b', Write b p = Some (b', length p)
    /\ off b' = off b
    /\ length (buf b') = off b + length p
    /\ sub (buf b') (off b) (off b + length p) = p
    /\ copyOut b' = copyOut b.
Proof.
  intros Hoff. unfold Write.
  destruct (@grow_spec b (length p) Hoff) as (b1 & -> & E1 & L1 & F1 & C1).
  assert (Hoff1 : off b1 <= length (buf b1)) by lia.
  destruct (@copyIn_spec b1 p Hoff1) as (b2 & n & -> & E2 & S2 & L2 & N2 & F2 & P2).
  assert (Hn : n = length p) by lia. clear N2. subst n.
  exists b2. rewrite firstn_all in P2. rewrite E1 in *.
  split; [reflexivity|]. split; [assumption|]. split; [lia|].
  split; [assumption|].
  unfold copyOut, cap in *.
  destruct (Nat.ltb_spec (length (buf b) + length (spare b)) (off b))
    as [Hbad|_]; [lia|].
  destruct (Nat.ltb_spec (length (buf b2) + length (spare b2)) (off b2))
    as [Hbad|_]; [lia|].
  f_equal. rewrite E2.
  rewrite firstn_app_le by lia. congruence.
Qed.

Lemma WriteByte_spec b c :
  off b <= cap b ->
  exists b', WriteByte b c = Some b'
    /\ off b' = off b + 1
    /\ sub (buf b') (off b) (off b + 1) = [c].
Proof.
  intros Hoff. unfold WriteByte.
  destruct (@grow_spec b 1 Hoff) as (b1 & -> & E1 & L1 & F1 & C1).
  destruct (Nat.leb_spec (length (buf b1)) (off b1)) as [Hbad|_]; [lia|].
  eexists; split; [reflexivity|]. simpl. rewrite E1. split; [lia|].
  unfold sub. replace (off b + 1 - off b) with 1 by lia.
  assert (Hf : length (firstn (off b) (buf b1)) = off b)
    by (apply length_firstn_le; lia).
  rewrite skipn_app, Hf, Nat.sub_diag, skipn_O.
  rewrite (skipn_all2 (firstn (off b) (buf b1))) by lia. reflexivity.
Qed.


(** * The codec on concrete inputs *)

(** ** Numbers *)

(** Every number of the RFC 8259 grammar is accepted whole by parseNumber. *)
Lemma parseNumber_accepts_rfc n :
  wfNum n = true ->
  exists v, parseNumber (NewParser (renderNum n))
            = (TokenNumber, v, mkParser (renderNum n) (length (renderNum n))).
Proof.
  intros Hn.
  assert (Hrest : rest (NewParser (renderNum n)) = renderNum n ++ []).
  { unfold rest, NewParser. cbn [pos data]. rewrite skipn_O, app_nil_r.
    reflexivity. }
  destruct (@parseNumber_ok _ _ _ Hrest Hn eq_refl) as [v Ev].
  exists v. rewrite Ev. reflexivity.
Qed.

(** No rendering of a well-formed number is [0123]. *)
Lemma rfc_excludes_0123 (n : NumText) :
  wfNum n = true -> renderNum n <> B "0123".
Proof.
  destruct n as [neg int frac e]. intros Hn E. unfold renderNum in E. cbn in E.
  unfold wfNum in Hn. cbn [numInt numFrac numExp] in Hn.
  apply andb_true_iff in Hn as [Hn He]. apply andb_true_iff in Hn as [Hi Hf].
  destruct neg; [discriminate E|]. cbn [app] in E.
  destruct int as [|d ds]; [discriminate Hi|].
  cbn [app] in E. injection E as Ed Eds. subst d.
  cbn [wfInt] in Hi. apply andb_true_iff in Hi as [Hi Hz].
  change (beq "0" "0") with true in Hz. cbn [negb orb] in Hz.
  destruct ds as [|d' ds]; [|discriminate Hz].
  cbn [app] in Eds.
  destruct frac as [fd|]; [discriminate Eds|]. cbn [renderFrac app] in Eds.
  destruct e as [[[m sg] eds]|]; [|discriminate Eds].
  cbn [renderExp] in Eds. injection Eds as Em _. subst m.
  cbn [wfExp] in He. discriminate He.
Qed.

(** C4, on the input [0123].  parseNumber skips the first digit whatever it
    is and then every further digit: it returns the number token [0123] with
    the cursor at the end, where the grammar of RFC 8259 has no number with a
    zero in front of further digits.  isCompleteLiteral, which checks the
    same grammar for the streaming decoder, does reject [0123]; and Unmarshal
    reads [0123] into an int64 as 123. *)
Theorem parseNumber_leading_zero :
  parseNumber (NewParser (B "0123"))
  = (TokenNumber, B "0123", mkParser (B "0123") 4)
  /\ isCompleteLiteral (B "0123") = false
  /\ isCompleteLiteral (B "123") = true.
Proof. repeat split. Qed.

(** ** The literal null *)

Section WithFloats.

Variable float : Type.
Variable ParseFloat : list byte -> Z -> option float.
Variable OverflowFloat : Z -> float -> bool.
Variable floatZero : float.


(** On a first byte [n], unmarshalValue moves the cursor four bytes on and
    calls setNull; it reads none of the three bytes that follow. *)
Lemma unmarshalValue_n fuel p t v :
  at_ (data (skipWhitespace p)) (pos (skipWhitespace p)) = Some "n"%char ->
  unmarshalValue ParseFloat OverflowFloat floatZero (S fuel) p t v
  = Some (advance (skipWhitespace p) 4, fst (setNull t v), snd (setNull t v)).
Proof.
  intros H. cbn [unmarshalValue]. rewrite H.
  change (beq "n" "n") with true. cbv iota.
  destruct (setNull t v); reflexivity.
Qed.

(** setNull: nil for a pointer, a map, a slice or an interface; a type
    error for the other kinds. *)
Lemma setNull_kinds (v : Value float) :
  (forall e, setNull (TPtr e) v = (VNil, None))
  /\ (forall k e, setNull (TMap k e) v = (VNil, None))
  /\ (forall e, setNull (TSlice e) v = (VNil, None))
  /\ (forall n, setNull (TInterface n) v = (VNil, None))
  /\ (forall bits, setNull (TInt bits) v
                   = (v, Some (UnmarshalTypeError (B "null") (TInt bits) 0))).
Proof. repeat split. Qed.

(** C3, on the input [nope] and a destination of type [*int64]: the code
    returns no error, leaves the destination nil and the cursor four bytes
    on, where the claim requires the exact literal [null] and a syntax
    error for any other bytes.  skipValue, on the same bytes, does compare
    them with the literal and fails.  The rest of the claim holds: [null]
    into a pointer gives nil, [null] into an int64 gives a type error. *)
Theorem null_literal_unchecked :
  Unmarshal ParseFloat OverflowFloat floatZero (B "nope") (TPtr (TInt 64)) (VPtr (VInt 5))
  = Some (mkParser (B "nope") 4, VNil, None)
  /\ skipValue (NewParser (B "nope")) = Some (false, NewParser (B "nope"))
  /\ Unmarshal ParseFloat OverflowFloat floatZero (B "null") (TPtr (TInt 64)) (VPtr (VInt 5))
     = Some (mkParser (B "null") 4, VNil, None)
  /\ Unmarshal ParseFloat OverflowFloat floatZero (B "null") (TInt 64) (VInt 5)
     = Some (mkParser (B "null") 4, VInt 5,
             Some (UnmarshalTypeError (B "null") (TInt 64) 0)).
Proof. repeat split. Qed.

(** ** Round trip *)

(** C1, on the value [true]: marshalValue emits the literal with
    Buffer.Write, which leaves the offset at 0, so Marshal returns the empty
    byte sequence, and Unmarshal of it fails with a syntax error instead of
    giving [true] back.  The same happens to an integer. *)
Theorem marshal_roundtrip_bool :
  option_map fst (Marshal (SBool true) initialPools) = Some (inl [])
  /\ Unmarshal ParseFloat OverflowFloat floatZero [] TBool (VBool false)
     = Some (NewParser [], VBool false,
             Some (SyntaxError 0 "unexpected end of JSON input"))
  /\ option_map fst (Marshal (SInt 42) initialPools) = Some (inl []).
Proof. repeat split; vm_compute; reflexivity. Qed.

(** ** Streaming *)

(** C7, on the source [1 2 3] read into int64 destinations: the first two
    calls give 1 and 2; the third gives 31, because refillBuffer puts the
    read offset back to 0 at the end of the source and the framing loop
    goes on reading from the start of the window; the fourth gives 2 with no
    error, where the claim has the values 1, 2, 3 and then end-of-input. *)
Theorem decode_three_values :
  decodeMany ParseFloat OverflowFloat floatZero 4 64
             (NewDecoder (B "1 2 3")) (TInt 64) initialPools
  = [Returns (VInt 1, None); Returns (VInt 2, None);
     Returns (VInt 31, None); Returns (VInt 2, None)].
Proof. vm_compute. reflexivity. Qed.

(** With a newline after the last value the three values come out right,
    and the fourth call starts over with the first one. *)
Lemma decode_three_values_newline :
  decodeMany ParseFloat OverflowFloat floatZero 4 64
             (NewDecoder (B "1 2 3" ++ [cNewline])) (TInt 64) initialPools
  = [Returns (VInt 1, None); Returns (VInt 2, None);
     Returns (VInt 3, None); Returns (VInt 1, None)].
Proof. vm_compute. reflexivity. Qed.

(** End-of-input is returned only when the source was empty from the
    start. *)
Lemma decode_empty_source :
  decodeMany ParseFloat OverflowFloat floatZero 1 64
             (NewDecoder []) (TInt 64) initialPools
  = [Returns (VInt 0, Some EOF)].
Proof. vm_compute. reflexivity. Qed.

End WithFloats.

(** ** String escapes *)

(** C5, on the one-byte string 0x01: needsEscaping reports that the byte
    needs escaping, but escapeMap has no entry for it and
    writeEscapedStringString copies it verbatim, so Marshal gives the three
    bytes quote, 0x01, quote, where the claim has the six bytes of the
    escape [\u0001] between the quotes.  The five named escapes and the
    verbatim copy of [/] are as the claim says. *)
Theorem control_byte_verbatim :
  option_map fst (Marshal (SString ["001"]) initialPools)
  = Some (inl [cQuote; "001"; cQuote])
  /\ needsEscaping ["001"] = true
  /\ escapeMap "001" = None
  /\ option_map fst (Marshal (SString (J "a'^/" ++ [cNewline; cReturn; cTab])) initialPools)
     = Some (inl (J "'a^'^^/^n^r^t'")).
Proof. repeat split; vm_compute; reflexivity. Qed.

(** The room grown in advance is [len s + 16] bytes: the seventeenth escape
    of a string does not fit and is cut. *)
Lemma escapes_truncated :
  option_map fst (Marshal (SString (repeat cQuote 17)) initialPools)
  = Some (inl (cQuote :: concat (repeat [cBackslash; cQuote] 16)
                      ++ [cBackslash; cQuote])).
Proof. vm_compute. reflexivity. Qed.

(** ** The pool *)

(** C6, on the size hint 2000: hints up to 4096 are served from the medium
    pool, whose buffers are made with capacity 1024, and unlike the branch
    for larger hints this one does not compare the capacity with the hint;
    the buffer returned has capacity 1024, less than 2000.  Its offset is
    0. *)
Theorem getBufferSize_medium_short :
  option_map (fun r => (cap (fst r), off (fst r), length (buf (fst r))))
             (getBufferSize 2000 initialPools)
  = Some (1024, 0, 0)
  /\ option_map (fun r => (cap (fst r), off (fst r), length (buf (fst r))))
                (getBufferSize 2000 emptyPools)
     = Some (1024, 0, 0).
Proof. split; vm_compute; reflexivity. Qed.

(** The buffer returned always has offset 0 and length 0. *)
Lemma getBufferSize_reset sizeHint pl b pl' :
  getBufferSize sizeHint pl = Some (b, pl') ->
  off b = 0 /\ buf b = [].
Proof.
  unfold getBufferSize.
  match goal with
  | |- match ?x with _ => _ end = _ -> _ => destruct x as [[b0 pl0]|]
  end; intros H; inversion H; subst; split; reflexivity.
Qed.

(** Releasing: nothing happens above 64 KiB; otherwise the buffer goes, reset,
    to the head of the pool whose bound its capacity meets. *)
Lemma putBuffer_spec b pl :
  (poolLimit < cap b -> putBuffer b pl = pl)
  /\ (cap b <= 64 ->
      putBuffer b pl = mkPools (Reset b :: tinyBuffers pl) (smallBuffers pl)
                               (mediumBuffers pl) (largeBuffers pl))
  /\ (64 < cap b <= 256 ->
      putBuffer b pl = mkPools (tinyBuffers pl) (Reset b :: smallBuffers pl)
                               (mediumBuffers pl) (largeBuffers pl))
  /\ (256 < cap b <= 4096 ->
      putBuffer b pl = mkPools (tinyBuffers pl) (smallBuffers pl)
                               (Reset b :: mediumBuffers pl) (largeBuffers pl))
  /\ (4096 < cap b <= poolLimit ->
      putBuffer b pl = mkPools (tinyBuffers pl) (smallBuffers pl)
                               (mediumBuffers pl) (Reset b :: largeBuffers pl))
  /\ off (Reset b) = 0 /\ buf (Reset b) = [] /\ cap (Reset b) = cap b.
Proof.
  assert (Hc : cap (Reset b) = cap b)
    by (unfold Reset, cap; simpl; rewrite length_app; reflexivity).
  assert (HL : 4096 <= poolLimit) by (apply Nat.leb_le; vm_compute; reflexivity).
  unfold putBuffer. rewrite Hc.
  repeat split; try assumption; intros H.
  - destruct (Nat.ltb_spec poolLimit (cap b)); [reflexivity | lia].
  - destruct (Nat.ltb_spec poolLimit (cap b)); [lia|].
    destruct (Nat.leb_spec (cap b) 64); [reflexivity | lia].
  - destruct (Nat.ltb_spec poolLimit (cap b)); [lia|].
    destruct (Nat.leb_spec (cap b) 64); [lia|].
    destruct (Nat.leb_spec (cap b) 256); [reflexivity | lia].
  - destruct (Nat.ltb_spec poolLimit (cap b)); [lia|].
    destruct (Nat.leb_spec (cap b) 64); [lia|].
    destruct (Nat.leb_spec (cap b) 256); [lia|].
    destruct (Nat.leb_spec (cap b) 4096); [reflexivity | lia].
  - destruct (Nat.ltb_spec poolLimit (cap b)); [lia|].
    destruct (Nat.leb_spec (cap b) 64); [lia|].
    destruct (Nat.leb_spec (cap b) 256); [lia|].
    destruct (Nat.leb_spec (cap b) 4096); [lia | reflexivity].
Qed.

(** ** The same defects in general *)

(** Whatever the pools hold, Marshal returns the empty byte sequence for
    every boolean, every integer and every nil: what Buffer.Write stores lies
    behind the offset. *)
Lemma Marshal_written_whole_empty v pl :
  writtenWhole v = true ->
  option_map fst (Marshal v pl) = Some (inl []).
Proof.
  intros Hv. unfold Marshal, getBuffer.
  destruct (getBufferSize 256 pl) as [[b pl1]|] eqn:Eg.
  - destruct (getBufferSize_reset _ _ Eg) as [Hoff Hbuf].
    assert (Hcap : off b <= cap b) by (rewrite Hoff; apply Nat.le_0_l).
    assert (Hw : forall lit, exists b', writeBytes b lit = Some (b', None)
                                        /\ copyOut b' = Some []).
    { intros lit. unfold writeBytes.
      destruct (@Write_spec b lit Hcap) as (b' & -> & _ & _ & _ & C).
      exists b'. split; [reflexivity|]. rewrite C. unfold copyOut.
      rewrite Hoff. reflexivity. }
    assert (Hm : exists b', marshalValue v b = Some (b', None)
                            /\ copyOut b' = Some []).
    { destruct v as [|[|]|n|n|s| | | |]; try discriminate Hv; apply Hw. }
    destruct Hm as (b' & -> & ->). reflexivity.
  - exfalso. revert Eg. unfold getBufferSize. cbn.
    destruct (poolGet (smallBuffers pl) (newBuffer 256)); discriminate.
Qed.

(** parseNumber accepts every non-empty run of digits, whatever the first
    one is. *)
Lemma parseNumber_any_digits ds :
  nonEmpty ds = true -> allDigits ds = true ->
  parseNumber (NewParser ds) = (TokenNumber, ds, mkParser ds (length ds)).
Proof.
  intros Hne Hd. destruct ds as [|d ds']; [discriminate|].
  set (l := d :: ds').
  assert (V0 : skipn 0 l = d :: ds' ++ [])
    by (rewrite skipn_O, app_nil_r; reflexivity).
  assert (Hdg : isDigit d = true)
    by (simpl in Hd; apply andb_true_iff in Hd as []; assumption).
  assert (Hds : allDigits ds' = true)
    by (simpl in Hd; apply andb_true_iff in Hd as []; assumption).
  destruct (digit_facts _ Hdg) as
    (_ & _ & _ & _ & _ & _ & _ & _ & _ & _ & _ & _ & _ & _ & _ & Hm & _).
  unfold parseNumber, NewParser. cbn [data pos].
  rewrite (@view_byteIs l 0 d _ "-" V0), Hm.
  rewrite (@view_digitAt l 0 d _ V0), Hdg.
  pose proof (@view_next l 0 d _ V0) as V1.
  rewrite (@view_skipDigits l 1 ds' [] V1 Hds I).
  pose proof (@view_app l 1 ds' [] V1) as V2.
  rewrite (@view_byteIs_nil l (1 + length ds') "." V2).
  unfold numExponent.
  rewrite (@view_byteIs_nil l (1 + length ds') "e" V2).
  rewrite (@view_byteIs_nil l (1 + length ds') "E" V2).
  cbn [orb]. unfold sub. rewrite skipn_O, Nat.sub_0_r.
  change (1 + length ds') with (length l).
  rewrite firstn_all. reflexivity.
Qed.

(** For every hint from 257 to 4096, on pools whose medium buffers have the
    capacity 1024 they are made with, the buffer returned has capacity 1024:
    too small for every hint above 1024. *)
Lemma getBufferSize_medium sizeHint pl :
  (256 < sizeHint <= 4096)%Z ->
  (forall b, In b (mediumBuffers pl) -> cap b = 1024) ->
  exists b pl', getBufferSize sizeHint pl = Some (b, pl') /\ cap b = 1024.
Proof.
  intros [Hlo Hhi] Hpool. unfold getBufferSize.
  destruct (Z.leb_spec sizeHint 64) as [H64|_]; [lia|].
  destruct (Z.leb_spec sizeHint 256) as [H256|_]; [lia|].
  destruct (Z.leb_spec sizeHint 4096) as [_|H4096]; [|lia].
  assert (Hb : cap (fst (poolGet (mediumBuffers pl) (newBuffer 1024))) = 1024).
  { destruct (mediumBuffers pl) as [|b more]; simpl.
    - reflexivity.
    - apply Hpool. left; reflexivity. }
  destruct (poolGet (mediumBuffers pl) (newBuffer 1024)) as [b more].
  simpl in Hb.
  eexists; eexists; split; [reflexivity|].
  unfold cap in *. simpl. rewrite length_app. exact Hb.
Qed.

(** * The streaming decoder in general *)

(** refillBuffer on a byte source never returns an error, always puts the
    read offset back to 0, and never shrinks the window. *)
Lemma refillBuffer_spec d :
  snd (refillBuffer d) = None
  /\ readPos (fst (refillBuffer d)) = 0
  /\ length (dbuf d) <= length (dbuf (fst (refillBuffer d))).
Proof.
  unfold refillBuffer, readInto.
  destruct (src d) as [|x r]; simpl.
  - repeat split; apply Nat.le_refl.
  - repeat split. rewrite length_app. lia.
Qed.

Lemma decoderSkipWhitespace_S f d :
  decoderSkipWhitespace (S f) d
  = let d1 := setReadPos d (readPos d + wsRun (skipn (readPos d) (dbuf d))) in
    if Nat.ltb (readPos d1) (length (dbuf d1)) then Returns (d1, None)
    else
      match refillBuffer d1 with
      | (d2, Some e) => Returns (d2, Some e)
      | (d2, None) =>
          if Nat.eqb (length (dbuf d2)) 0 then Returns (d2, Some EOF)
          else decoderSkipWhitespace f d2
      end.
Proof. reflexivity. Qed.

(** The decoder's skipWhitespace returns an error only when the window is
    empty: once any byte has been read it never reports end-of-input. *)
Lemma decoderSkipWhitespace_error fuel :
  forall d d' e,
    decoderSkipWhitespace fuel d = Returns (d', Some e) -> dbuf d = [].
Proof.
  induction fuel as [|f IH]; intros d d' e; [discriminate|].
  rewrite decoderSkipWhitespace_S. cbv zeta.
  set (d1 := setReadPos d (readPos d + wsRun (skipn (readPos d) (dbuf d)))).
  destruct (Nat.ltb (readPos d1) (length (dbuf d1))); [discriminate|].
  destruct (refillBuffer_spec d1) as (E & _ & L).
  destruct (refillBuffer d1) as [d2 err]. simpl in E, L. subst err.
  destruct (Nat.eqb_spec (length (dbuf d2)) 0) as [Hz|Hnz].
  - intros _. unfold d1 in L. simpl in L.
    destruct (dbuf d); [reflexivity | simpl in L; lia].
  - intros H. apply IH in H. rewrite H in Hnz. contradiction.
Qed.

Lemma wsRun_stops l :
  match at_ l (wsRun l) with
  | Some c => isWhitespace c = false
  | None => True
  end.
Proof.
  induction l as [|x l IH]; simpl; [exact I|].
  destruct (isWhitespace x) eqn:E; simpl; [exact IH | exact E].
Qed.

Lemma at_skipn_add (l : list byte) i k : at_ (skipn i l) k = at_ l (i + k).
Proof.
  unfold at_. revert l; induction i as [|i IH]; intros l.
  - rewrite skipn_O. reflexivity.
  - destruct l as [|x l]; [destruct k; reflexivity|]. apply IH.
Qed.

(** When it returns without error, the read offset is on a byte that is not
    whitespace. *)
Lemma decoderSkipWhitespace_ok fuel :
  forall d d',
    decoderSkipWhitespace fuel d = Returns (d', None) ->
    exists c, at_ (dbuf d') (readPos d') = Some c /\ isWhitespace c = false.
Proof.
  induction fuel as [|f IH]; intros d d'; [discriminate|].
  rewrite decoderSkipWhitespace_S. cbv zeta.
  set (d1 := setReadPos d (readPos d + wsRun (skipn (readPos d) (dbuf d)))).
  destruct (Nat.ltb_spec (readPos d1) (length (dbuf d1))) as [Hlt|Hge].
  - intros H; inversion H; subst d'.
    pose proof (wsRun_stops (skipn (readPos d) (dbuf d))) as Hs.
    rewrite at_skipn_add in Hs. unfold d1 in *. simpl in *.
    destruct (at_ (dbuf d) (readPos d + wsRun (skipn (readPos d) (dbuf d))))
      as [c|] eqn:Ec.
    + exists c; split; [reflexivity | assumption].
    + apply at_None_ge in Ec. lia.
  - destruct (refillBuffer d1) as [d2 [e|]]; [discriminate|].
    destruct (Nat.eqb (length (dbuf d2)) 0); [discriminate|].
    apply IH.
Qed.

Lemma leave_Errorf d msg pl : notEOF (leave d (inr (Errorf msg)) pl).
Proof. intros d' pl' H; inversion H. Qed.

Lemma leaveWith_notEOF d parts pl : notEOF (leaveWith d parts pl).
Proof.
  unfold leaveWith. destruct (AppendBuffers parts pl) as [[r pl1]|];
    intros d' pl' H; inversion H.
Qed.

Create HintDb stream.
#[local] Hint Resolve leave_Errorf leaveWith_notEOF : stream.

(** The framing loop never reports end-of-input. *)
Lemma readValueLoop_notEOF fuel :
  forall d st pl, notEOF (readValueLoop fuel d st pl).
Proof.
  induction fuel as [|f IH]; intros d st pl; simpl.
  - intros d' pl' H; inversion H.
  - assert (Hr : exists d0,
               (if Nat.leb (length (dbuf d)) (readPos d) then refillBuffer d
                else (d, None)) = (d0, None)).
    { destruct (Nat.leb (length (dbuf d)) (readPos d)).
      - destruct (refillBuffer_spec d) as (E & _).
        destruct (refillBuffer d) as [d0 e]; simpl in E; subst e.
        exists d0; reflexivity.
      - exists d; reflexivity. }
    destruct Hr as [d0 ->].
    destruct (at_ (dbuf d0) (readPos d0)) as [c|];
      [|intros d' pl' H; inversion H].
    repeat match goal with
           | |- notEOF (if ?c then _ else _) => destruct c
           | |- notEOF (match ?x with _ => _ end) => destruct x
           | |- notEOF (let (_, _) := ?x in _) => destruct x
           end;
      auto with stream;
      try (intros d' pl' H; inversion H; fail).
Qed.

(** Called with the read offset on a byte that is not whitespace, readValue
    never reports end-of-input. *)
Lemma readValue_notEOF fuel d pl c :
  at_ (dbuf d) (readPos d) = Some c -> isWhitespace c = false ->
  notEOF (readValue fuel d pl).
Proof.
  intros Hc Hw. unfold readValue.
  pose proof (at_Some_lt _ _ Hc) as Hlt.
  assert (E1 : (Nat.eqb (length (dbuf (setTokenBuf d []))) 0
                || Nat.leb (length (dbuf (setTokenBuf d [])))
                           (readPos (setTokenBuf d []))) = false).
  { simpl. apply orb_false_iff. split.
    - apply Nat.eqb_neq. lia.
    - apply Nat.leb_gt. assumption. }
  rewrite E1.
  change (dbuf (setTokenBuf d [])) with (dbuf d).
  change (readPos (setTokenBuf d [])) with (readPos d).
  rewrite Hc.
  destruct fuel as [|f]; [intros d' pl' H; inversion H|].
  cbn [readValueWs].
  change (dbuf (setTokenBuf d [])) with (dbuf d).
  change (readPos (setTokenBuf d [])) with (readPos d).
  rewrite Hc, Hw.
  change (dbuf (setTokenBuf d [])) with (dbuf d).
  change (readPos (setTokenBuf d [])) with (readPos d).
  assert (E2 : Nat.leb (length (dbuf d)) (readPos d) = false)
    by (apply Nat.leb_gt; assumption).
  rewrite E2. apply readValueLoop_notEOF.
Qed.

(** ** The errors of Unmarshal *)

Section UnmarshalErrors.

Variable float : Type.
Variable ParseFloat : list byte -> Z -> option float.
Variable OverflowFloat : Z -> float -> bool.
Variable floatZero : float.

Lemma setNull_error t (v v' : Value float) e :
  setNull t v = (v', Some e) -> isParseError e.
Proof. destruct t; simpl; intros H; inversion H; exact I. Qed.

Lemma setBool_error t (v v' : Value float) b e :
  setBool t v b = (v', Some e) -> isParseError e.
Proof.
  destruct t as [| | | | | |[|n]| | |]; simpl; intros H; inversion H; exact I.
Qed.

Lemma setString_error t (v v' : Value float) s e :
  setString t v s = (v', Some e) -> isParseError e.
Proof.
  destruct t as [| | | | | |[|n]| | |]; simpl; intros H; inversion H; exact I.
Qed.

Lemma setNumber_error t (v v' : Value float) s e :
  setNumber ParseFloat OverflowFloat t v s = (v', Some e) -> isParseError e.
Proof.
  destruct t as [|bits|bits|bits| | |[|n]| | |]; simpl;
    repeat match goal with
           | |- context [match ?x with _ => _ end] => destruct x
           end;
    intros H; inversion H; exact I.
Qed.

Lemma uFail_parseErrors p (v : Value float) msg : parseErrors (uFail p v msg).
Proof. intros p' v' e H; inversion H; exact I. Qed.

Ltac split_result H :=
  repeat match type of H with
         | context [if ?c then _ else _] => destruct c
         | context [match ?x with _ => _ end] =>
             let E := fresh "E" in destruct x eqn:E
         end.

(** Unmarshal returns syntax errors and type errors only; in particular it
    never returns the end-of-input signal. *)
Lemma unmarshal_parseErrors fuel :
  (forall p t v,
      parseErrors (unmarshalValue ParseFloat OverflowFloat floatZero fuel p t v))
  /\ (forall p k e m,
         parseErrors (mapLoop ParseFloat OverflowFloat floatZero fuel p k e m))
  /\ (forall p t e sl elems i,
         parseErrors (sliceLoop ParseFloat OverflowFloat floatZero fuel p t e
                                sl elems i)).
Proof.
  induction fuel as [|f (IHv & IHm & IHs)].
  - repeat split; intros; intros p' v' e' H; discriminate H.
  - split; [|split].
    + intros p t v p' v' e H. cbn [unmarshalValue] in H.
      split_result H; try discriminate H;
        try (eapply IHm; eassumption); try (eapply IHs; eassumption);
        try (inversion H; subst; exact I);
        inversion H; subst;
        first [ eapply setNull_error; eassumption
              | eapply setBool_error; eassumption
              | eapply setString_error; eassumption
              | eapply setNumber_error; eassumption ].
    + intros p k e m p' v' e' H. cbn [mapLoop] in H.
      split_result H; try discriminate H;
        try (eapply IHm; eassumption);
        try (inversion H; subst; exact I);
        inversion H; subst; eapply IHv; eassumption.
    + intros p t e sl elems i p' v' e' H. cbn [sliceLoop] in H.
      split_result H; try discriminate H;
        try (eapply IHs; eassumption);
        try (inversion H; subst; exact I);
        inversion H; subst; eapply IHv; eassumption.
Qed.

(** Once the window holds a byte, Decode never returns the end-of-input
    signal, whatever the source and the destination: the fourth call on a
    source of three values cannot return it. *)
Lemma Decode_no_EOF fuel d t dest pl d' v pl' :
  dbuf d <> [] ->
  Decode ParseFloat OverflowFloat floatZero fuel d t dest pl
  <> Returns (d', v, Some EOF, pl').
Proof.
  intros Hne H. unfold Decode in H.
  destruct (decoderSkipWhitespace fuel d) as [[d1 [e|]]| |] eqn:Ews;
    try discriminate H.
  - apply decoderSkipWhitespace_error in Ews. contradiction.
  - destruct (decoderSkipWhitespace_ok _ _ Ews) as (c & Hc & Hw).
    pose proof (readValue_notEOF fuel d1 pl Hc Hw) as Hrv.
    destruct (readValue fuel d1 pl) as [[[d2 [value|err]] pl2]| |] eqn:Erv;
      try discriminate H.
    + pose proof (proj1 (unmarshal_parseErrors (2 * length value + 2))
                        (NewParser value) t dest) as Hu.
      unfold Unmarshal in H.
      destruct (unmarshalValue _ _ _ _ _ _ _) as [[[p1 v1] [e1|]]|];
        try discriminate H.
      specialize (Hu p1 v1 e1 eq_refl).
      destruct e1; inversion H; subst; try contradiction.
    + inversion H; subst. apply (Hrv d' pl'). reflexivity.
Qed.

End UnmarshalErrors.

(** * Extract along a path of keys *)

(** skipValue on a well-formed value with whitespace in front. *)
Lemma skipValue_on_wellformed j p w0 suf :
  wfJson j = true -> allWs w0 = true -> followOK j suf = true ->
  rest p = w0 ++ render j ++ suf ->
  skipValue p = Some (true, advance p (length w0 + length (render j))).
Proof.
  intros Hj Hw Hs Hrest.
  destruct (skipValue_returns p) as (b & p' & E & _).
  rewrite E. unfold skipValue in E.
  destruct skipFamily_wellformed as [Hv _].
  destruct (Hv j Hj w0 (skipFuel p) p suf b p' Hw Hs Hrest E) as [-> ->].
  reflexivity.
Qed.

(** parseString on a well-formed string: the token is the text between the
    quotes, as spelled. *)
Lemma parseString_ok_value p s suf :
  rest p = renderString s ++ suf -> wfString s = true ->
  parseString p
  = (TokenString, renderItems s, advance p (length (renderString s))).
Proof.
  intros H Hs. unfold parseString. rewrite rest_at, H.
  unfold renderString in *. cbn [app hd_error]. rewrite beq_refl.
  unfold rest in H. cbn [app] in H. pose proof (view_next _ _ H) as V.
  rewrite <- app_assoc in V. rewrite V.
  rewrite scanString_items by assumption. cbn [app scanString].
  rewrite beq_refl. change (beq cQuote cBackslash) with false. cbv iota.
  f_equal; [f_equal|].
  - replace (S (pos p) + length (renderItems s) + 1 - 1)
      with (S (pos p) + length (renderItems s)) by lia.
    replace (pos p + 1) with (S (pos p)) by lia.
    apply (sub_prefix _ _ _ _ V).
  - unfold advance. f_equal. cbn [length]. rewrite length_app; cbn [length]; lia.
Qed.

Ltac len_solve :=
  unfold renderString in *;
  repeat (progress (rewrite ?length_app in *; cbn [length] in *)); lia.

Lemma sepMembers_ends more wa suf :
  allWs wa = true ->
  endsValue (wa ++ sepMembers more ++ "}"%char :: suf) = true.
Proof.
  intros Hwa. destruct (@sepMembers_head more suf) as (c' & tl' & E' & Hc').
  rewrite E'. apply endsValue_sep; assumption.
Qed.

(** Where [findMember] finds its member in the text of the members. *)
Lemma findMember_split seg ms suf :
  wfMembers ms = true ->
  forall o wv v,
    findMember seg ms = Some (o, wv, v) ->
    exists pre tl,
      renderMembers ms ++ "}"%char :: suf = pre ++ wv ++ render v ++ tl
      /\ length pre = o /\ endsValue tl = true
      /\ wfJson v = true /\ allWs wv = true.
Proof.
  induction ms as [|wb key wk wv0 v0 wa more IH]; intros Hwf o wv v Hfind.
  - discriminate.
  - cbn [wfMembers] in Hwf.
    apply andb_true_iff in Hwf as [Hwf Hmore].
    apply andb_true_iff in Hwf as [Hwf Hwa].
    apply andb_true_iff in Hwf as [Hwf Hv].
    apply andb_true_iff in Hwf as [Hwf Hwv].
    apply andb_true_iff in Hwf as [Hwf Hwk].
    apply andb_true_iff in Hwf as [Hwb Hkey].
    change (renderMembers (MCons wb key wk wv0 v0 wa more))
      with (wb ++ renderString key ++ wk
            ++ ":"%char :: wv0 ++ render v0 ++ wa ++ sepMembers more).
    cbn [findMember] in Hfind.
    destruct (bytes_eqb (renderItems key) seg).
    + inversion Hfind; subst o wv v.
      exists (wb ++ renderString key ++ wk ++ [":"%char]),
             (wa ++ sepMembers more ++ "}"%char :: suf).
      repeat split; try assumption.
      * rewrite <- !app_assoc. cbn [app]. rewrite <- !app_assoc. reflexivity.
      * len_solve.
      * apply sepMembers_ends; assumption.
    + destruct (findMember seg more) as [[[o1 wv1] v1]|] eqn:Ef; [|discriminate].
      inversion Hfind; subst o wv v.
      destruct (IH Hmore o1 wv1 v1 eq_refl) as (pre1 & tl1 & E1 & L1 & H1 & H2 & H3).
      assert (Esep : sepMembers more = ","%char :: renderMembers more)
        by (destruct more; [discriminate Ef | reflexivity]).
      exists (wb ++ renderString key ++ wk ++ ":"%char :: wv0 ++ render v0
              ++ wa ++ ","%char :: pre1), tl1.
      repeat split; try assumption.
      * rewrite Esep. rewrite <- !app_assoc. cbn [app].
        rewrite <- !app_assoc. cbn [app]. rewrite E1.
        rewrite <- ?app_assoc. reflexivity.
      * len_solve.
Qed.

Lemma extractFind_S f seg p :
  extractFind (S f) seg p
  = let p := skipWhitespace p in
    match at_ (data p) (pos p) with
    | None => Some (inr tt)
    | Some c =>
        if beq c "}" then Some (inr tt)
        else
          let '(t, keyBytes, p1) := parseString p in
          match t with
          | TokenString =>
              let key := GetString keyBytes in
              let p2 := skipWhitespace p1 in
              if byteIs (data p2) (pos p2) ":" then
                let p3 := advance p2 1 in
                if bytes_eqb key seg then Some (inl p3)
                else
                  match skipValue p3 with
                  | None => None
                  | Some (false, _) => Some (inr tt)
                  | Some (true, p4) =>
                      let p5 := skipWhitespace p4 in
                      match at_ (data p5) (pos p5) with
                      | None => Some (inr tt)
                      | Some c' =>
                          if beq c' "}" then Some (inr tt)
                          else if negb (beq c' ",") then Some (inr tt)
                          else extractFind f seg (advance p5 1)
                      end
                  end
              else Some (inr tt)
          | _ => Some (inr tt)
          end
    end.
Proof. reflexivity. Qed.

Lemma rest_length p l : rest p = l -> length (rest p) = length l.
Proof. intros ->; reflexivity. Qed.

(** The loop of Extract over the members of a well-formed object: it stops
    behind the colon of the first member whose key is the segment, or reports
    that there is none. *)
Lemma extractFind_members seg ms :
  wfMembers ms = true ->
  forall w0 fuel p suf,
    allWs w0 = true ->
    rest p = w0 ++ renderMembers ms ++ "}"%char :: suf ->
    length (rest p) < fuel ->
    extractFind fuel seg p
    = Some (match findMember seg ms with
            | Some (o, _, _) => inl (advance p (length w0 + o))
            | None => inr tt
            end).
Proof.
  induction ms as [|wb key wk wv v wa more IH];
    intros Hwf w0 fuel p suf Hw0 Hrest Hfuel.
  - destruct fuel as [|f]; [lia|].
    rewrite extractFind_S. cbn [renderMembers app] in Hrest.
    destruct (@enter_ws _ _ _ _ _ Hrest Hw0 eq_refl eq_refl) as [Ews Eq].
    cbv zeta. rewrite Ews. rewrite rest_at, Eq. reflexivity.
  - cbn [wfMembers] in Hwf.
    apply andb_true_iff in Hwf as [Hwf Hmore].
    apply andb_true_iff in Hwf as [Hwf Hwa].
    apply andb_true_iff in Hwf as [Hwf Hv].
    apply andb_true_iff in Hwf as [Hwf Hwv].
    apply andb_true_iff in Hwf as [Hwf Hwk].
    apply andb_true_iff in Hwf as [Hwb Hkey].
    destruct fuel as [|f]; [lia|].
    rewrite extractFind_S.
    change (renderMembers (MCons wb key wk wv v wa more))
      with (wb ++ renderString key ++ wk
            ++ ":"%char :: wv ++ render v ++ wa ++ sepMembers more) in Hrest.
    set (tailV := wa ++ sepMembers more ++ "}"%char :: suf) in *.
    assert (Hrest' : rest p = (w0 ++ wb) ++ renderString key
                              ++ wk ++ ":"%char :: wv ++ render v ++ tailV).
    { rewrite Hrest. unfold tailV. rewrite <- !app_assoc. cbn [app].
      rewrite <- !app_assoc. reflexivity. }
    assert (Hws : allWs (w0 ++ wb) = true)
      by (rewrite allWs_app, Hw0, Hwb; reflexivity).
    assert (Etl : renderString key ++ wk ++ ":"%char :: wv ++ render v ++ tailV
                  = cQuote :: (renderItems key ++ [cQuote])
                           ++ wk ++ ":"%char :: wv ++ render v ++ tailV)
      by reflexivity.
    destruct (@enter_ws _ _ _ _ _ Hrest' Hws Etl eq_refl) as [Ews Eq].
    cbv zeta. rewrite Ews. rewrite rest_at, Eq. cbn [hd_error].
    change (beq cQuote "}") with false. cbv iota.
    rewrite <- Etl in Eq.
    rewrite (@parseString_ok_value _ _ _ Eq Hkey).
    apply rest_advance_app in Eq.
    destruct (@enter_ws _ _ _ _ _ Eq Hwk eq_refl eq_refl) as [Ews2 Eq2].
    rewrite Ews2.
    set (p2 := advance (advance (advance p (length (w0 ++ wb)))
                                (length (renderString key))) (length wk)) in *.
    assert (Hcolon : byteIs (data p2) (pos p2) ":" = true).
    { unfold rest in Eq2. rewrite (@view_byteIs _ _ _ _ ":" Eq2). reflexivity. }
    rewrite Hcolon.
    apply rest_advance1 in Eq2.
    unfold GetString. cbn [findMember].
    destruct (bytes_eqb (renderItems key) seg).
    + f_equal. f_equal. unfold p2. rewrite !advance_advance.
      unfold advance. f_equal. rewrite length_app. lia.
    + assert (Hends : endsValue tailV = true)
        by (apply sepMembers_ends; assumption).
      rewrite (@skipValue_on_wellformed v _ wv tailV Hv Hwv
                 (followOK_ends v _ Hends) Eq2).
      pose proof (@rest_advance_app (advance p2 1) (wv ++ render v) tailV) as Eq3.
      rewrite <- app_assoc in Eq3. specialize (Eq3 Eq2).
      rewrite length_app in Eq3.
      set (p4 := advance (advance p2 1) (length wv + length (render v))) in *.
      destruct more as [|wb' key' wk' wv' v' wa' more'].
      * unfold tailV in Eq3. cbn [sepMembers app] in Eq3.
        destruct (@enter_ws _ _ _ _ _ Eq3 Hwa eq_refl eq_refl) as [Ews5 Eq5].
        rewrite Ews5. rewrite rest_at, Eq5. reflexivity.
      * unfold tailV in Eq3. cbn [sepMembers] in Eq3.
        destruct (@enter_ws p4 wa _ ","%char
                    (renderMembers (MCons wb' key' wk' wv' v' wa' more')
                     ++ "}"%char :: suf)
                    Eq3 Hwa eq_refl eq_refl) as [Ews5 Eq5].
        rewrite Ews5. rewrite rest_at, Eq5. cbn [hd_error].
        change (beq "," "}") with false.
        change (beq "," ",") with true. cbv iota. cbn [negb].
        apply rest_advance1 in Eq5.
        assert (Hf : length (rest (advance (advance p4 (length wa)) 1)) < f).
        { rewrite (rest_length _ Eq5).
          rewrite (rest_length _ Hrest') in Hfuel.
          unfold tailV in Hfuel. cbn [sepMembers] in Hfuel.
          clear - Hfuel. len_solve. }
        rewrite (IH Hmore [] f _ suf eq_refl Eq5 Hf).
        f_equal.
        destruct (findMember seg (MCons wb' key' wk' wv' v' wa' more'))
          as [[[o1 wv1] v1]|]; [|reflexivity].
        f_equal. unfold p4, p2. rewrite !advance_advance.
        unfold advance. f_equal. rewrite length_app. cbn [length]. lia.
Qed.

Lemma extractPath_cons segment more p :
  extractPath (segment :: more) p
  = let p := skipWhitespace p in
    match at_ (data p) (pos p) with
    | None => Some (NilSlice, false)
    | Some c =>
        if negb (beq c "{") then Some (NilSlice, false)
        else
          match extractFind (S (length (data p))) segment (advance p 1) with
          | None => None
          | Some (inr _) => Some (NilSlice, false)
          | Some (inl p1) =>
              match more with
              | [] =>
                  let p2 := skipWhitespace p1 in
                  let start := pos p2 in
                  match skipValue p2 with
                  | None => None
                  | Some (false, _) => Some (NilSlice, false)
                  | Some (true, p3) => Some (Window start (pos p3), true)
                  end
              | _ :: _ => extractPath more p1
              end
          end
    end.
Proof. destruct more; reflexivity. Qed.

Lemma rest_le p : length (rest p) <= length (data p).
Proof. unfold rest. rewrite length_skipn. lia. Qed.

(** The first byte of a well-formed value that is not an object. *)
Lemma render_head_other j :
  wfJson j = true ->
  match j with JObject _ _ => False | _ => True end ->
  exists c tl, render j = c :: tl /\ beq c "{" = false.
Proof.
  destruct j as [| | |n|s|w es|w ms]; intros H Hj;
    try (eexists; eexists; split; [reflexivity | reflexivity]);
    [|contradiction].
  destruct n as [neg int frac e]. unfold render, renderNum.
  cbn [numNeg numInt numFrac numExp].
  destruct neg.
  - eexists; eexists; split; [reflexivity | reflexivity].
  - cbn [wfJson] in H. unfold wfNum in H. cbn [numInt] in H.
    destruct int as [|dg ds]; [discriminate|].
    cbn [wfInt] in H. do 4 (apply andb_true_iff in H as [H _]).
    eexists; eexists; split; [reflexivity|].
    apply digit_facts in H. apply H.
Qed.

(** The loop of Extract over the path segments, on a well-formed value. *)
Lemma extractPath_locate path :
  path <> [] ->
  forall j w0 p suf,
    wfJson j = true -> allWs w0 = true ->
    rest p = w0 ++ render j ++ suf ->
    extractPath path p
    = Some (match locate j path with
            | Some (o, j') =>
                (Window (pos p + length w0 + o)
                        (pos p + length w0 + o + length (render j')), true)
            | None => (NilSlice, false)
            end).
Proof.
  induction path as [|seg more IH]; [congruence|].
  intros _ j w0 p suf Hj Hw0 Hrest.
  rewrite extractPath_cons. cbv zeta.
  destruct (@render_head j Hj) as (c & tl & Ehd & Hc).
  assert (Etl : render j ++ suf = c :: tl ++ suf) by (rewrite Ehd; reflexivity).
  destruct (@enter_ws _ _ _ _ _ Hrest Hw0 Etl (@head_noWs _ tl Hc)) as [Ews Eq].
  rewrite Ews, rest_at, Eq. cbn [hd_error].
  assert (Hobj : (exists w ms, j = JObject w ms)
                 \/ match j with JObject _ _ => False | _ => True end)
    by (destruct j; try (right; exact I); left; eauto).
  destruct Hobj as [(w & ms & ->)|Hother].
  - cbn [render] in Ehd. injection Ehd as <- <-.
    change (beq "{" "{") with true. cbn [negb].
    cbn [wfJson] in Hj. apply andb_true_iff in Hj as [Hw Hms].
    assert (Eq1 : rest (advance (advance p (length w0)) 1)
                  = w ++ renderMembers ms ++ "}"%char :: suf).
    { apply rest_advance1 in Eq. rewrite Eq. rewrite <- !app_assoc. reflexivity. }
    assert (Hfuel : length (rest (advance (advance p (length w0)) 1))
                    < S (length (data (advance p (length w0))))).
    { pose proof (rest_le (advance (advance p (length w0)) 1)) as L.
      cbn [advance data] in *. lia. }
    rewrite (@extractFind_members seg ms Hms w _ _ suf Hw Eq1 Hfuel).
    cbn [locate].
    destruct (findMember seg ms) as [[[o wv] v]|] eqn:Ef; [|reflexivity].
    destruct (@findMember_split seg ms suf Hms o wv v Ef)
      as (pre & tl' & E & L & Hends & Hv & Hwv).
    set (p1 := advance (advance (advance p (length w0)) 1) (length w + o)).
    assert (Eq2 : rest p1 = wv ++ render v ++ tl').
    { unfold p1. rewrite <- L, <- length_app.
      apply rest_advance_app. rewrite Eq1, E, <- app_assoc. reflexivity. }
    destruct more as [|s2 r2].
    + cbn [locate].
      destruct (@render_head v Hv) as (c1 & tl1 & Ehd1 & Hc1).
      assert (Etl1 : render v ++ tl' = c1 :: tl1 ++ tl')
        by (rewrite Ehd1; reflexivity).
      destruct (@enter_ws _ _ _ _ _ Eq2 Hwv Etl1 (@head_noWs _ tl1 Hc1))
        as [Ews2 Eq3].
      rewrite Ews2. rewrite <- Etl1 in Eq3.
      rewrite (@skipValue_on_wellformed v _ [] tl' Hv eq_refl
                 (followOK_ends v _ Hends) Eq3).
      f_equal. f_equal. unfold p1. cbn [advance pos length]. f_equal; lia.
    + rewrite (IH ltac:(discriminate) v wv p1 tl' Hv Hwv Eq2).
      f_equal. destruct (locate v (s2 :: r2)) as [[o' j']|]; [|reflexivity].
      f_equal. unfold p1. cbn [advance pos]. f_equal; lia.
  - destruct (@render_head_other j Hj Hother) as (c' & tl'' & Ehd' & Hb).
    rewrite Ehd in Ehd'. injection Ehd' as <- <-. rewrite Hb. cbn [negb].
    destruct j; try reflexivity. contradiction.
Qed.

(** Where [locate] finds its value in the text of the document. *)
Lemma locate_split path :
  forall j o j',
    wfJson j = true -> locate j path = Some (o, j') ->
    exists pre post,
      render j = pre ++ render j' ++ post /\ length pre = o
      /\ wfJson j' = true.
Proof.
  induction path as [|seg more IH]; intros j o j' Hj Hloc.
  - injection Hloc as <- <-. exists [], []. rewrite app_nil_r. auto.
  - destruct j as [| | |n|s|w es|w ms]; try discriminate Hloc.
    cbn [locate] in Hloc. cbn [wfJson] in Hj.
    apply andb_true_iff in Hj as [Hw Hms].
    destruct (findMember seg ms) as [[[o1 wv] v]|] eqn:Ef; [|discriminate].
    destruct (locate v more) as [[o2 j2]|] eqn:El; [|discriminate].
    injection Hloc as <- <-.
    destruct (@findMember_split seg ms [] Hms o1 wv v Ef)
      as (pre & tl & E & L & _ & Hv & _).
    destruct (IH v o2 j2 Hv El) as (pre2 & post2 & E2 & L2 & Hj2).
    exists ("{"%char :: w ++ pre ++ wv ++ pre2), (post2 ++ tl).
    split; [|split; [len_solve | assumption]].
    cbn [render]. rewrite E, E2. rewrite <- !app_assoc. cbn [app].
    rewrite <- ?app_assoc. reflexivity.
Qed.

Lemma sub_window (a b c : list byte) :
  sub (a ++ b ++ c) (length a) (length a + length b) = b.
Proof.
  apply sub_prefix with (b := c).
  rewrite skipn_app, skipn_all, Nat.sub_diag, skipn_O. reflexivity.
Qed.

(** Every value of a well-formed document can be addressed by its path of
    keys: Extract returns exactly the bytes of the value that is reached by
    taking, in each object on the way, the first member whose key is spelled
    like the segment.  The result is a window of the input, starting at the
    first byte of the value (the whitespace after the colon is not part of
    it) and ending right after its last byte. *)
Theorem Extract_path_found :
  forall (j : Json) (w0 suf : list byte) (path : list (list byte))
         (o : nat) (j' : Json),
    wfJson j = true -> allWs w0 = true -> path <> [] ->
    locate j path = Some (o, j') ->
    Extract (w0 ++ render j ++ suf) path
    = Some (Window (length w0 + o) (length w0 + o + length (render j')), true)
    /\ bytesOf (w0 ++ render j ++ suf)
               (Window (length w0 + o) (length w0 + o + length (render j')))
       = render j'.
Proof.
  intros j w0 suf path o j' Hj Hw0 Hne Hloc. split.
  - destruct path as [|seg more]; [congruence|].
    unfold Extract.
    set (input := w0 ++ render j ++ suf).
    assert (Hrest : rest (NewParser input) = w0 ++ render j ++ suf)
      by (unfold rest, NewParser; cbn [pos data]; rewrite skipn_O; reflexivity).
    destruct (@render_head j Hj) as (c & tl & Ehd & Hc).
    assert (Etl : render j ++ suf = c :: tl ++ suf)
      by (rewrite Ehd; reflexivity).
    destruct (@enter_ws _ _ _ _ _ Hrest Hw0 Etl (@head_noWs _ tl Hc))
      as [Ews Eq].
    rewrite Ews. rewrite <- Etl in Eq.
    rewrite (@extractPath_locate (seg :: more) Hne j [] _ suf Hj eq_refl Eq).
    rewrite Hloc. cbn [advance NewParser pos length]. f_equal. f_equal.
    f_equal; lia.
  - destruct (@locate_split path j o j' Hj Hloc) as (pre & post & E & L & _).
    cbn [bytesOf]. rewrite E. rewrite <- L, <- length_app.
    replace (w0 ++ (pre ++ render j' ++ post) ++ suf)
      with ((w0 ++ pre) ++ render j' ++ (post ++ suf))
      by (rewrite <- !app_assoc; reflexivity).
    apply sub_window.
Qed.

Lemma Extract_path_found_witness :
  (wfJson nestedValue = true /\ allWs (B " ") = true
   /\ [B "user"; B "tags"] <> []
   /\ locate nestedValue [B "user"; B "tags"]
      = Some (40, JArray []
                (ECons [] (JNumber (mkNum false (B "1") None None)) []
                (ECons [] (JNumber (mkNum false (B "2") None None)) [] ENil))))
  /\ Extract nestedInput [B "user"; B "tags"] = Some (Window 41 46, true)
  /\ bytesOf nestedInput (Window 41 46) = B "[1,2]".
Proof.
  assert (H : wfJson nestedValue = true /\ allWs (B " ") = true
              /\ [B "user"; B "tags"] <> []
              /\ locate nestedValue [B "user"; B "tags"]
                 = Some (40, JArray []
                     (ECons [] (JNumber (mkNum false (B "1") None None)) []
                     (ECons [] (JNumber (mkNum false (B "2") None None)) []
                        ENil))))
    by (repeat split; try reflexivity; discriminate).
  split; [exact H|].
  destruct H as (H1 & H2 & H3 & H4).
  exact (Extract_path_found nestedValue (B " ") (B " ") H1 H2 H3 H4).
Defined.

(** When the path addresses nothing in a well-formed document (the document
    or a value on the way is not an object, or an object on the way has no
    member with the key), Extract returns nil and false. *)
Theorem Extract_path_missing :
  forall (j : Json) (w0 suf : list byte) (path : list (list byte)),
    wfJson j = true -> allWs w0 = true ->
    locate j path = None ->
    Extract (w0 ++ render j ++ suf) path = Some (NilSlice, false)
    /\ bytesOf (w0 ++ render j ++ suf) NilSlice = [].
Proof.
  intros j w0 suf path Hj Hw0 Hloc. split; [|reflexivity].
  destruct path as [|seg more]; [discriminate Hloc|].
  unfold Extract.
  set (input := w0 ++ render j ++ suf).
  assert (Hrest : rest (NewParser input) = w0 ++ render j ++ suf)
    by (unfold rest, NewParser; cbn [pos data]; rewrite skipn_O; reflexivity).
  destruct (@render_head j Hj) as (c & tl & Ehd & Hc).
  assert (Etl : render j ++ suf = c :: tl ++ suf)
    by (rewrite Ehd; reflexivity).
  destruct (@enter_ws _ _ _ _ _ Hrest Hw0 Etl (@head_noWs _ tl Hc))
    as [Ews Eq].
  rewrite Ews. rewrite <- Etl in Eq.
  rewrite (@extractPath_locate (seg :: more) ltac:(discriminate) j [] _ suf
             Hj eq_refl Eq).
  rewrite Hloc. reflexivity.
Qed.

Lemma Extract_path_missing_witness :
  (wfJson nestedValue = true /\ allWs (B " ") = true
   /\ locate nestedValue [B "user"; B "age"] = None)
  /\ Extract nestedInput [B "user"; B "age"] = Some (NilSlice, false)
  /\ Extract nestedInput [B "id"; B "x"] = Some (NilSlice, false).
Proof.
  assert (H : wfJson nestedValue = true /\ allWs (B " ") = true
              /\ locate nestedValue [B "user"; B "age"] = None)
    by (repeat split; reflexivity).
  split; [exact H|].
  destruct H as (H1 & H2 & H3).
  split.
  - exact (proj1 (Extract_path_missing nestedValue (B " ") (B " ")
                    [B "user"; B "age"] H1 H2 H3)).
  - exact (proj1 (Extract_path_missing nestedValue (B " ") (B " ")
                    [B "id"; B "x"] H1 H2 eq_refl)).
Defined.

(** ** Extract on any input *)

Lemma scanString_true_bound l :
  forall i e, scanString l i = (true, e) -> i < e <= i + length l.
Proof.
  induction l as [l IH] using (induction_ltof1 _ (@length byte)).
  unfold ltof in IH. intros i e.
  destruct l as [|c l']; cbn [scanString]; [discriminate|].
  destruct (beq c cBackslash).
  - destruct l' as [|c' l'']; [discriminate|].
    intros H. apply IH in H; cbn [length] in *; lia.
  - destruct (beq c cQuote).
    + intros H; inversion H; subst. cbn [length]. lia.
    + intros H. apply IH in H; cbn [length] in *; lia.
Qed.

Lemma parseString_in_bounds p v p' :
  parseString p = (TokenString, v, p') -> pos p' <= length (data p').
Proof.
  unfold parseString.
  destruct (at_ (data p) (pos p)) as [c|] eqn:Ec; [|discriminate].
  destruct (beq c cQuote); [|discriminate].
  apply at_Some_lt in Ec.
  destruct (scanString (skipn (S (pos p)) (data p)) (S (pos p)))
    as [[|] e] eqn:Es; [|discriminate].
  apply scanString_true_bound in Es. rewrite length_skipn in Es.
  intros H; inversion H; subst. cbn [pos data]. lia.
Qed.

Lemma digitRun_le l : digitRun l <= length l.
Proof.
  induction l as [|c l IH]; simpl; [lia|]. destruct (isDigit c); lia.
Qed.

Lemma skipDigits_bound d i : i <= length d -> skipDigits d i <= length d.
Proof.
  intros H. unfold skipDigits.
  pose proof (digitRun_le (skipn i d)) as L. rewrite length_skipn in L. lia.
Qed.

Lemma digitAt_lt d i : digitAt d i = true -> i < length d.
Proof.
  unfold digitAt. destruct (at_ d i) eqn:E; [|discriminate].
  intros _; eapply at_Some_lt; eauto.
Qed.

Lemma numExponent_in_bounds d start i v p' :
  i <= length d ->
  numExponent d start i = (TokenNumber, v, p') -> pos p' <= length (data p').
Proof.
  intros Hi. unfold numExponent, numFail.
  destruct (byteIs d i "e" || byteIs d i "E").
  - destruct (byteIs d (S i) "+" || byteIs d (S i) "-").
    + destruct (digitAt d (S (S i))) eqn:Ed; [|discriminate].
      apply digitAt_lt in Ed.
      intros H; inversion H; subst; cbn [pos data].
      apply skipDigits_bound; lia.
    + destruct (digitAt d (S i)) eqn:Ed; [|discriminate].
      apply digitAt_lt in Ed.
      intros H; inversion H; subst; cbn [pos data].
      apply skipDigits_bound; lia.
  - intros H; inversion H; subst; cbn [pos data]. assumption.
Qed.

Lemma parseNumber_in_bounds p v p' :
  parseNumber p = (TokenNumber, v, p') -> pos p' <= length (data p').
Proof.
  unfold parseNumber, numFail.
  set (i0 := if byteIs (data p) (pos p) "-" then S (pos p) else pos p).
  destruct (digitAt (data p) i0) eqn:Ed; [|discriminate].
  apply digitAt_lt in Ed.
  assert (H1 : skipDigits (data p) (S i0) <= length (data p))
    by (apply skipDigits_bound; lia).
  destruct (byteIs (data p) (skipDigits (data p) (S i0)) ".").
  - destruct (digitAt (data p) (S (skipDigits (data p) (S i0)))) eqn:Ed2;
      [|discriminate].
    apply digitAt_lt in Ed2.
    apply numExponent_in_bounds. apply skipDigits_bound; lia.
  - apply numExponent_in_bounds. assumption.
Qed.

Lemma matchLiteral_in_bounds p lit p' :
  matchLiteral p lit = (true, p') -> pos p' <= length (data p').
Proof.
  unfold matchLiteral.
  destruct (Nat.leb_spec (pos p + length lit) (length (data p))) as [H|H];
    cbn [andb]; [|discriminate].
  destruct (bytes_eqb _ _); [|discriminate].
  intros E; inversion E; subst; cbn [advance pos data]. assumption.
Qed.

(** A successful run of the skip family ends inside the input. *)
Lemma skipFamily_in_bounds fuel :
  (forall p p', skipValueF fuel p = Some (true, p') ->
                pos p' <= length (data p'))
  /\ (forall p p', skipObjectF fuel p = Some (true, p') ->
                   pos p' <= length (data p'))
  /\ (forall p p', skipArrayF fuel p = Some (true, p') ->
                   pos p' <= length (data p')).
Proof.
  induction fuel as [|f [IHv [IHo IHa]]].
  - repeat split; intros; discriminate.
  - split; [|split].
    + intros p p'. rewrite skipValueF_S.
      generalize (skipWhitespace p) as q. clear p. intros q.
      unfold skipValueBody.
      destruct (at_ (data q) (pos q)) as [c|] eqn:Ec; [|discriminate].
      destruct (beq c "{"); [apply IHo|].
      destruct (beq c "["); [apply IHa|].
      destruct (beq c cQuote).
      { destruct (parseString q) as [[t v] p1] eqn:Ep.
        destruct t; try discriminate.
        intros H; inversion H; subst. eapply parseString_in_bounds; eauto. }
      destruct (beq c "t").
      { intros H; inversion H. eapply matchLiteral_in_bounds; eauto. }
      destruct (beq c "f").
      { intros H; inversion H. eapply matchLiteral_in_bounds; eauto. }
      destruct (beq c "n").
      { intros H; inversion H. eapply matchLiteral_in_bounds; eauto. }
      destruct (isNumberStart c); [|discriminate].
      destruct (parseNumber q) as [[t v] p1] eqn:Ep.
      destruct t; try discriminate.
      intros H; inversion H; subst. eapply parseNumber_in_bounds; eauto.
    + intros p p'. rewrite skipObjectF_S.
      generalize (skipWhitespace p) as q. clear p. intros q.
      unfold skipObjectBody.
      destruct (at_ (data q) (pos q)) as [c|] eqn:Ec; [|discriminate].
      apply at_Some_lt in Ec.
      destruct (beq c "}").
      { intros H; inversion H; subst; cbn [advance pos data]. lia. }
      destruct (beq c ","); [apply IHo|].
      destruct (parseString q) as [[t v] p1].
      destruct t; try discriminate. cbv zeta.
      destruct (byteIs _ _ ":"); [|discriminate].
      destruct (skipValueF f _) as [[[|] p3]|]; try discriminate.
      apply IHo.
    + intros p p'. rewrite skipArrayF_S.
      generalize (skipWhitespace p) as q. clear p. intros q.
      unfold skipArrayBody.
      destruct (at_ (data q) (pos q)) as [c|] eqn:Ec; [|discriminate].
      apply at_Some_lt in Ec.
      destruct (beq c "]").
      { intros H; inversion H; subst; cbn [advance pos data]. lia. }
      destruct (beq c ","); [apply IHa|].
      destruct (skipValueF f q) as [[[|] p3]|]; try discriminate.
      apply IHa.
Qed.

Lemma skipValue_success p p' :
  skipValue p = Some (true, p') ->
  data p' = data p /\ pos p < pos p' <= length (data p).
Proof.
  intros E.
  destruct (skipValue_returns p) as (b & q & E' & [D L] & P).
  rewrite E in E'. injection E' as <- <-.
  pose proof (proj1 (skipFamily_in_bounds (skipFuel p)) p p' E) as Hb.
  rewrite D in Hb. specialize (P eq_refl). auto.
Qed.

(** The loop over the members never runs out of its fuel, and stops, when it
    has found the key, further on and inside the input. *)
Lemma extractFind_total seg fuel :
  forall p,
    remaining p < fuel ->
    extractFind fuel seg p <> None
    /\ (forall p1, extractFind fuel seg p = Some (inl p1) ->
                   data p1 = data p /\ pos p < pos p1 <= length (data p)).
Proof.
  induction fuel as [|f IH]; intros p Hf; [lia|].
  rewrite extractFind_S. cbv zeta.
  pose proof (follows_skipWhitespace p) as Fq.
  revert Fq. generalize (skipWhitespace p) as q. intros q [Dq Lq].
  destruct (at_ (data q) (pos q)) as [c|] eqn:Ec;
    [|split; [discriminate | intros p1 H; discriminate]].
  destruct (beq c "}"); [split; [discriminate | intros p1 H; discriminate]|].
  pose proof (parseString_follows q) as F1.
  pose proof (@parseString_in_bounds q) as B1.
  pose proof (@parseString_progress q) as P1.
  destruct (parseString q) as [[t kb] p1]. cbn [snd] in F1.
  destruct t; try (split; [discriminate | intros p0 H; discriminate]).
  specialize (B1 kb p1 eq_refl). specialize (P1 _ _ _ eq_refl eq_refl).
  destruct F1 as [D1 L1].
  pose proof (follows_skipWhitespace p1) as F2.
  revert F2. generalize (skipWhitespace p1) as p2. intros p2 [D2 L2].
  destruct (byteIs (data p2) (pos p2) ":") eqn:Ecol;
    [|split; [discriminate | intros p0 H; discriminate]].
  apply byteIs_lt in Ecol.
  destruct (bytes_eqb (GetString kb) seg).
  { split; [discriminate|]. intros p0 H. injection H as <-.
    cbn [advance data pos]. split; [congruence|].
    rewrite <- Dq, <- D1, <- D2. lia. }
  pose proof (@skipValue_success (advance p2 1)) as S3.
  destruct (skipValue_returns (advance p2 1)) as (b & p4 & E4 & _).
  rewrite E4. destruct b; [|split; [discriminate | intros p0 H; discriminate]].
  destruct (S3 p4 E4) as (D4 & L4 & B4). cbn [advance data pos] in D4, L4, B4.
  pose proof (follows_skipWhitespace p4) as F5.
  revert F5. generalize (skipWhitespace p4) as p5. intros p5 [D5 L5].
  destruct (at_ (data p5) (pos p5)) as [c'|] eqn:Ec';
    [|split; [discriminate | intros p0 H; discriminate]].
  apply at_Some_lt in Ec'.
  destruct (beq c' "}"); [split; [discriminate | intros p0 H; discriminate]|].
  destruct (negb (beq c' ","));
    [split; [discriminate | intros p0 H; discriminate]|].
  assert (Hrem : remaining (advance p5 1) < f).
  { unfold remaining in *. cbn [advance data pos].
    rewrite D5, D4, D2, D1, Dq in *. lia. }
  destruct (IH (advance p5 1) Hrem) as [T R].
  split; [exact T|].
  intros p0 H. destruct (R p0 H) as (D0 & L0 & B0).
  cbn [advance data pos] in D0, L0, B0.
  split; [congruence|].
  rewrite D5, D4, D2, D1, Dq in *. lia.
Qed.

Lemma extractPath_total path :
  forall p,
    exists r ok,
      extractPath path p = Some (r, ok)
      /\ (ok = false -> r = NilSlice)
      /\ (ok = true ->
          exists lo hi,
            r = Window lo hi /\ pos p < lo /\ lo < hi <= length (data p)
            /\ skipValue (mkParser (data p) lo)
               = Some (true, mkParser (data p) hi)).
Proof.
  induction path as [|seg more IH]; intros p.
  - exists NilSlice, false. repeat split; discriminate.
  - rewrite extractPath_cons. cbv zeta.
    pose proof (follows_skipWhitespace p) as Fq.
    revert Fq. generalize (skipWhitespace p) as q. intros q [Dq Lq].
    assert (Hnil : exists r ok,
               Some (NilSlice, false) = Some (r, ok)
               /\ (ok = false -> r = NilSlice)
               /\ (ok = true ->
                   exists lo hi,
                     r = Window lo hi /\ pos p < lo
                     /\ lo < hi <= length (data p)
                     /\ skipValue (mkParser (data p) lo)
                        = Some (true, mkParser (data p) hi)))
      by (exists NilSlice, false; repeat split; discriminate).
    destruct (at_ (data q) (pos q)) as [c|] eqn:Ec; [|exact Hnil].
    destruct (negb (beq c "{")); [exact Hnil|].
    apply at_Some_lt in Ec.
    assert (Hf : remaining (advance q 1) < S (length (data q)))
      by (unfold remaining; cbn [advance data pos]; lia).
    destruct (@extractFind_total seg _ (advance q 1) Hf) as [T R].
    destruct (extractFind (S (length (data q))) seg (advance q 1))
      as [[p1|u]|]; [| exact Hnil | congruence].
    destruct (R p1 eq_refl) as (D1 & L1 & B1).
    cbn [advance data pos] in D1, L1, B1.
    destruct more as [|s2 r2].
    + pose proof (follows_skipWhitespace p1) as F2.
      revert F2. generalize (skipWhitespace p1) as p2. intros p2 [D2 L2].
      destruct (skipValue_returns p2) as (b & p3 & E3 & _).
      rewrite E3. destruct b; [|exact Hnil].
      destruct (@skipValue_success p2 p3 E3) as (D3 & L3 & B3).
      exists (Window (pos p2) (pos p3)), true.
      split; [reflexivity|]. split; [discriminate|]. intros _.
      exists (pos p2), (pos p3). split; [reflexivity|].
      rewrite D2, D1, Dq in *.
      split; [lia|]. split; [lia|].
      rewrite <- D2.
      replace (mkParser (data p2) (pos p2)) with p2 by (destruct p2; reflexivity).
      rewrite E3. f_equal. f_equal. destruct p3; cbn in *; congruence.
    + destruct (IH p1) as (r & ok & E & Hf' & Ht).
      exists r, ok. split; [exact E|]. split; [exact Hf'|].
      intros Hok. destruct (Ht Hok) as (lo & hi & Er & Hlo & Hhi & Hs).
      exists lo, hi. rewrite D1, Dq in *.
      split; [exact Er|]. split; [lia|]. split; [lia|]. exact Hs.
Qed.

(** On every input and every path Extract returns (its loops always end).
    It either fails with nil, or succeeds with a window of the input that is
    not empty, lies inside the input and holds exactly one value as skipValue
    delimits it, with no whitespace in front; with an empty path it returns
    the whole input. *)
Theorem Extract_returns :
  forall (input : list byte) (path : list (list byte)),
    exists r ok,
      Extract input path = Some (r, ok)
      /\ (ok = false -> r = NilSlice)
      /\ (ok = true -> path = [] -> r = Whole)
      /\ (ok = true -> path <> [] ->
          exists lo hi,
            r = Window lo hi /\ lo < hi <= length input
            /\ skipValue (mkParser input lo) = Some (true, mkParser input hi)).
Proof.
  intros input [|seg more].
  - exists Whole, true. repeat split; congruence.
  - unfold Extract.
    destruct (extractPath_total (seg :: more) (skipWhitespace (NewParser input)))
      as (r & ok & E & Hf & Ht).
    exists r, ok. split; [exact E|]. split; [exact Hf|].
    split; [discriminate|].
    intros Hok _. destruct (Ht Hok) as (lo & hi & Er & _ & Hhi & Hs).
    exists lo, hi. split; [exact Er|]. split; assumption.
Qed.

(** * More on the buffer *)

Lemma copyOut_Some b :
  off b <= cap b -> copyOut b = Some (firstn (off b) (buf b ++ spare b)).
Proof.
  intros H. unfold copyOut.
  destruct (Nat.ltb_spec (cap b) (off b)); [lia | reflexivity].
Qed.

Lemma cap_length b : cap b = length (buf b ++ spare b).
Proof. unfold cap. rewrite length_app. reflexivity. Qed.

(** grow fails only when the offset lies beyond the capacity (the slice
    expression [b.buf[:b.off]] of its reallocating branch); otherwise it
    makes the logical length [off + n], keeps the offset and the bytes before
    it, never lowers the capacity, and leaves the backing array alone when
    the capacity already suffices. *)
Theorem grow_behaviour :
  forall (b : Buffer) (n : nat),
    (cap b < off b -> grow b n = None)
    /\ (off b <= cap b ->
        exists b',
          grow b n = Some b'
          /\ off b' = off b
          /\ length (buf b') = off b + n
          /\ cap b <= cap b'
          /\ firstn (off b) (buf b') = firstn (off b) (buf b ++ spare b)
          /\ (off b + n <= cap b -> buf b' ++ spare b' = buf b ++ spare b)).
Proof.
  intros b n. split.
  - intros H. unfold grow.
    destruct (Nat.leb_spec (off b + n) (cap b)); [lia|].
    destruct (Nat.ltb_spec (cap b) (off b)); [reflexivity | lia].
  - intros H.
    destruct (@grow_spec b n H) as (b' & E & H1 & H2 & H3 & H4).
    exists b'. repeat split; try assumption.
    intros Hfit. unfold grow in E.
    destruct (Nat.leb_spec (off b + n) (cap b)); [|lia].
    injection E as <-. unfold reslice. cbn [buf spare].
    apply firstn_skipn.
Qed.

Lemma grow_behaviour_witness :
  (cap strayBuffer < off strayBuffer /\ grow strayBuffer 3 = None)
  /\ (off sampleBuffer <= cap sampleBuffer
      /\ exists b', grow sampleBuffer 3 = Some b' /\ off b' = 2
                    /\ length (buf b') = 5
                    /\ buf b' ++ spare b' = B "ab....").
Proof.
  assert (H0 : cap strayBuffer < off strayBuffer)
    by (apply Nat.ltb_lt; reflexivity).
  assert (H : off sampleBuffer <= cap sampleBuffer)
    by (apply Nat.leb_le; reflexivity).
  assert (H' : off sampleBuffer + 3 <= cap sampleBuffer)
    by (apply Nat.leb_le; reflexivity).
  split; [split; [exact H0 | exact (proj1 (grow_behaviour strayBuffer 3) H0)]|].
  split; [exact H|].
  destruct (proj2 (grow_behaviour sampleBuffer 3) H)
    as (b' & E & H1 & H2 & _ & _ & H5).
  exists b'. repeat split; try assumption. exact (H5 H').
Defined.

Lemma WriteByte_copyOut b c :
  off b <= cap b ->
  exists b',
    WriteByte b c = Some b'
    /\ off b' = off b + 1
    /\ length (buf b') = off b + 1
    /\ cap b <= cap b'
    /\ copyOut b' = Some (firstn (off b) (buf b ++ spare b) ++ [c]).
Proof.
  intros Hoff. unfold WriteByte.
  destruct (@grow_spec b 1 Hoff) as (b1 & -> & E1 & L1 & F1 & C1).
  destruct (Nat.leb_spec (length (buf b1)) (off b1)) as [Hbad|_]; [lia|].
  eexists; split; [reflexivity|].
  assert (Hs : skipn (S (off b1)) (buf b1) = [])
    by (apply skipn_all2; lia).
  assert (Hf : length (firstn (off b1) (buf b1)) = off b)
    by (rewrite length_firstn; lia).
  cbn [off buf spare]. rewrite Hs.
  split; [lia|].
  split; [rewrite length_app, Hf; cbn [length]; lia|].
  split.
  { unfold cap in *. cbn [buf spare]. rewrite length_app, Hf. cbn [length]. lia. }
  unfold copyOut, cap. cbn [off buf spare].
  rewrite length_app, Hf. cbn [length].
  destruct (Nat.ltb_spec (off b + 1 + length (spare b1)) (S (off b1)));
    [lia|].
  f_equal. rewrite firstn_app, length_app, Hf. cbn [length].
  replace (S (off b1) - (off b + 1)) with 0 by lia.
  rewrite firstn_O, app_nil_r.
  rewrite firstn_all2 by (rewrite length_app, Hf; cbn [length]; lia).
  rewrite E1, F1. reflexivity.
Qed.

(** ** WriteString *)

Lemma firstn_split (l : list byte) a n :
  firstn (a + n) l = firstn a l ++ sub l a (a + n).
Proof.
  unfold sub. replace (a + n - a) with n by lia.
  rewrite <- (firstn_skipn a (firstn (a + n) l)) at 1.
  rewrite firstn_firstn, firstn_skipn_comm.
  replace (Nat.min a (a + n)) with a by lia.
  reflexivity.
Qed.

Lemma copyAdvance_spec b s :
  off b <= length (buf b) ->
  exists b',
    copyAdvance b s
    = Some (b', Nat.min (length (buf b) - off b) (length s))
    /\ off b' = off b + Nat.min (length (buf b) - off b) (length s)
    /\ length (buf b') = length (buf b)
    /\ spare b' = spare b
    /\ firstn (off b') (buf b')
       = firstn (off b) (buf b)
         ++ firstn (Nat.min (length (buf b) - off b) (length s)) s.
Proof.
  intros Hoff. unfold copyAdvance.
  destruct (@copyIn_spec b s Hoff)
    as (b2 & n & -> & E2 & S2 & L2 & N2 & F2 & P2).
  subst n. eexists. split; [reflexivity|]. cbn [off buf spare].
  rewrite E2. repeat split; try assumption.
  rewrite firstn_split, F2, P2. reflexivity.
Qed.

Lemma copyOut_within b :
  off b <= length (buf b) -> copyOut b = Some (firstn (off b) (buf b)).
Proof.
  intros H. rewrite copyOut_Some by (unfold cap; lia).
  rewrite firstn_app_le by assumption. reflexivity.
Qed.

(** Beyond the capacity every writer panics: grow takes its reallocating
    branch and slices [b.buf[:b.off]]. *)
Lemma writers_panic b p s c :
  cap b < off b ->
  Write b p = None /\ WriteByte b c = None /\ WriteString b s = None.
Proof.
  intros H.
  assert (G : forall n, grow b n = None).
  { intros n. unfold grow.
    destruct (Nat.leb_spec (off b + n) (cap b)); [lia|].
    destruct (Nat.ltb_spec (cap b) (off b)); [reflexivity | lia]. }
  unfold Write, WriteByte, WriteString. rewrite !G.
  destruct (Nat.ltb_spec (cap b) (off b + length s)); [|lia].
  repeat split.
Qed.

(** Write, with the bytes before the offset. *)
Lemma Write_prefix b p :
  off b <= cap b ->
  exists b', Write b p = Some (b', length p)
    /\ off b' = off b
    /\ length (buf b') = off b + length p
    /\ firstn (off b) (buf b') = firstn (off b) (buf b ++ spare b)
    /\ sub (buf b') (off b) (off b + length p) = p
    /\ copyOut b' = copyOut b.
Proof.
  intros Hoff. unfold Write.
  destruct (@grow_spec b (length p) Hoff) as (b1 & -> & E1 & L1 & F1 & C1).
  assert (Hoff1 : off b1 <= length (buf b1)) by lia.
  destruct (@copyIn_spec b1 p Hoff1)
    as (b2 & n & -> & E2 & S2 & L2 & N2 & F2 & P2).
  assert (Hn : n = length p) by lia. clear N2. subst n.
  exists b2. rewrite firstn_all in P2. rewrite E1 in *.
  split; [reflexivity|]. split; [assumption|]. split; [lia|].
  split; [congruence|]. split; [assumption|].
  rewrite (@copyOut_Some b) by assumption.
  rewrite copyOut_within by lia. rewrite E2. f_equal. congruence.
Qed.

(** WriteString on a string that does not fit the capacity: the buffer is
    grown and the whole string is written. *)
Lemma WriteString_grown b s :
  off b <= cap b -> cap b < off b + length s ->
  exists b', WriteString b s = Some (b', length s)
    /\ off b' = off b + length s
    /\ length (buf b') = off b + length s
    /\ copyOut b' = Some (firstn (off b) (buf b ++ spare b) ++ s).
Proof.
  intros Hcap Hgrow. unfold WriteString.
  destruct (Nat.ltb_spec (cap b) (off b + length s)) as [_|Hfit]; [|lia].
  destruct (@grow_spec b (length s) Hcap) as (b1 & -> & E1 & L1 & F1 & C1).
  assert (Hoff1 : off b1 <= length (buf b1)) by lia.
  destruct (@copyAdvance_spec b1 s Hoff1) as (b2 & -> & O2 & L2 & S2 & F2).
  replace (Nat.min (length (buf b1) - off b1) (length s))
    with (length s) in * by lia.
  exists b2. split; [reflexivity|]. split; [lia|]. split; [lia|].
  rewrite copyOut_within by lia. rewrite F2, E1, F1.
  rewrite firstn_all. reflexivity.
Qed.

(** WriteString on a string that fits the capacity: nothing is grown, and
    [copy] stops at the logical length. *)
Lemma WriteString_fitting b s :
  off b + length s <= cap b -> off b <= length (buf b) ->
  exists b',
    WriteString b s
    = Some (b', Nat.min (length (buf b) - off b) (length s))
    /\ off b' = off b + Nat.min (length (buf b) - off b) (length s)
    /\ length (buf b') = length (buf b)
    /\ copyOut b'
       = Some (firstn (off b) (buf b)
               ++ firstn (Nat.min (length (buf b) - off b) (length s)) s).
Proof.
  intros Hfit Hoff. unfold WriteString.
  destruct (Nat.ltb_spec (cap b) (off b + length s)) as [Hgrow|_]; [lia|].
  destruct (@copyAdvance_spec b s Hoff) as (b2 & -> & O2 & L2 & S2 & F2).
  exists b2. split; [reflexivity|]. split; [exact O2|]. split; [exact L2|].
  rewrite copyOut_within by lia. rewrite F2. reflexivity.
Qed.

(** With the offset beyond the logical length, a string that fits the
    capacity makes WriteString panic on [b.buf[b.off:]]. *)
Lemma WriteString_beyond b s :
  off b + length s <= cap b -> length (buf b) < off b ->
  WriteString b s = None.
Proof.
  intros Hfit Hoff. unfold WriteString, copyAdvance, copyIn.
  destruct (Nat.ltb_spec (cap b) (off b + length s)) as [Hgrow|_]; [lia|].
  destruct (Nat.ltb_spec (length (buf b)) (off b)); [reflexivity | lia].
Qed.

(** C2, as amended.  In every buffer state: with the offset beyond the
    capacity Write, WriteByte and WriteString panic.  Otherwise Write makes
    the logical length [off + len p] (lower than before when the buffer was
    longer), stores [p] at the offset, returns [len p] and keeps the offset
    and the bytes before it, so that what Marshal copies out, the prefix
    [[0, off)], is the same before and after and holds none of the bytes of
    [p]; WriteByte stores its byte at the offset and moves the offset one on,
    so that the byte is part of what Marshal copies out; WriteString moves
    the offset by the number of bytes it wrote, which is [len s] when the
    string did not fit the capacity and otherwise the number of bytes that
    fit below the logical length, and it panics when the string fits the
    capacity but the offset lies beyond the logical length. *)
Theorem Write_keeps_offset :
  forall (b : Buffer) (p s : list byte) (c : byte),
    (cap b < off b ->
     Write b p = None /\ WriteByte b c = None /\ WriteString b s = None)
    /\ (off b <= cap b ->
        (exists b', Write b p = Some (b', length p)
           /\ off b' = off b
           /\ length (buf b') = off b + length p
           /\ firstn (off b) (buf b') = firstn (off b) (buf b ++ spare b)
           /\ sub (buf b') (off b) (off b + length p) = p
           /\ copyOut b' = copyOut b)
        /\ (exists b', WriteByte b c = Some b'
              /\ off b' = off b + 1
              /\ length (buf b') = off b + 1
              /\ copyOut b' = Some (firstn (off b) (buf b ++ spare b) ++ [c]))
        /\ (cap b < off b + length s ->
            exists b', WriteString b s = Some (b', length s)
              /\ off b' = off b + length s
              /\ length (buf b') = off b + length s
              /\ copyOut b' = Some (firstn (off b) (buf b ++ spare b) ++ s))
        /\ (off b + length s <= cap b -> off b <= length (buf b) ->
            exists b',
              WriteString b s
              = Some (b', Nat.min (length (buf b) - off b) (length s))
              /\ off b' = off b + Nat.min (length (buf b) - off b) (length s)
              /\ length (buf b') = length (buf b)
              /\ copyOut b'
                 = Some (firstn (off b) (buf b)
                         ++ firstn (Nat.min (length (buf b) - off b) (length s))
                                   s))
        /\ (off b + length s <= cap b -> length (buf b) < off b ->
            WriteString b s = None)).
Proof.
  intros b p s c. split; [apply writers_panic|].
  intros Hcap.
  split; [apply Write_prefix; assumption|].
  split.
  { destruct (@WriteByte_copyOut b c Hcap) as (b' & E & O & L & _ & C).
    exists b'. repeat split; assumption. }
  split; [apply WriteString_grown; assumption|].
  split; [apply WriteString_fitting | apply WriteString_beyond].
Qed.

(** The writers on the buffer [ab] with four spare bytes: Write leaves what
    Marshal copies out at [ab], WriteByte makes it [abx]; WriteString of a
    string that fits writes nothing, of one that does not fit all of it. *)
Lemma Write_keeps_offset_witness :
  (exists b', Write sampleBuffer (B "true") = Some (b', 4)
              /\ off b' = 2 /\ copyOut b' = Some (B "ab"))
  /\ (exists b', WriteByte sampleBuffer "x" = Some b'
                 /\ off b' = 3 /\ copyOut b' = Some (B "abx"))
  /\ (exists b', WriteString sampleBuffer (B "true") = Some (b', 0)
                 /\ off b' = 2 /\ copyOut b' = Some (B "ab"))
  /\ (exists b', WriteString sampleBuffer (B "truefalse") = Some (b', 9)
                 /\ off b' = 11 /\ copyOut b' = Some (B "abtruefalse"))
  /\ Write strayBuffer (B "true") = None.
Proof.
  assert (H : off sampleBuffer <= cap sampleBuffer)
    by (apply Nat.leb_le; reflexivity).
  destruct (proj2 (Write_keeps_offset sampleBuffer (B "true") (B "true") "x") H)
    as ((b1 & W1 & O1 & _ & _ & _ & C1) & (b2 & W2 & O2 & _ & C2)
        & _ & Hfit & _).
  destruct (Hfit ltac:(apply Nat.leb_le; reflexivity)
                 ltac:(apply Nat.leb_le; reflexivity))
    as (b3 & W3 & O3 & _ & C3).
  destruct (proj2 (Write_keeps_offset sampleBuffer (B "true") (B "truefalse") "x") H)
    as (_ & _ & Hgrow & _).
  destruct (Hgrow ltac:(apply Nat.ltb_lt; reflexivity))
    as (b4 & W4 & O4 & _ & C4).
  split; [exists b1; repeat split; assumption|].
  split; [exists b2; repeat split; assumption|].
  split; [exists b3; repeat split; assumption|].
  split; [exists b4; repeat split; assumption|].
  apply (proj1 (Write_keeps_offset strayBuffer (B "true") (B "true") "x")).
  apply Nat.ltb_lt. reflexivity.
Defined.

(** The claim as it was stated fails: a Write of [hi] on the buffer that a
    Write of [hello] has left lowers the logical length from 5 to 2, and a
    Write on a buffer whose offset lies beyond its capacity panics. *)
Lemma Write_lowers_length :
  exists b1 b2,
    Write (newBuffer 8) (B "hello") = Some (b1, 5)
    /\ off b1 = 0 /\ length (buf b1) = 5
    /\ Write b1 (B "hi") = Some (b2, 2)
    /\ off b2 = 0 /\ length (buf b2) = 2
    /\ length (buf b2) < length (buf b1)
    /\ Write strayBuffer (B "hi") = None.
Proof.
  eexists. eexists.
  split; [reflexivity|]. split; [reflexivity|]. split; [reflexivity|].
  split; [reflexivity|]. split; [reflexivity|]. split; [reflexivity|].
  split; [apply Nat.ltb_lt; reflexivity | reflexivity].
Qed.

(** ** ReadString and Seek *)

Lemma wrap64_id z : (- 2 ^ 63 <= z < 2 ^ 63)%Z -> wrap64 z = z.
Proof.
  intros H. unfold wrap64.
  rewrite Z.mod_small by (change (2 ^ 64)%Z with (2 ^ 63 + 2 ^ 63)%Z; lia).
  lia.
Qed.

Lemma sub_app_le (a b : list byte) lo hi :
  hi <= length a -> sub (a ++ b) lo hi = sub a lo hi.
Proof.
  intros H. unfold sub.
  destruct (Nat.le_gt_cases lo hi) as [Hle|Hgt].
  - rewrite skipn_app.
    replace (lo - length a) with 0 by lia. rewrite skipn_O.
    rewrite firstn_app_le; [reflexivity|].
    rewrite length_skipn. lia.
  - replace (hi - lo) with 0 by lia. reflexivity.
Qed.

Lemma ReadString_ok b len :
  off b <= length (buf b) ->
  (Z.of_nat (length (buf b)) < 2 ^ 62)%Z ->
  (0 <= len < 2 ^ 62)%Z ->
  ReadString b len
  = Some (sub (buf b) (off b)
              (off b + Nat.min (Z.to_nat len) (length (buf b) - off b)),
          mkBuffer (buf b) (spare b)
                   (off b + Nat.min (Z.to_nat len) (length (buf b) - off b))).
Proof.
  intros Hoff Hl Hlen. unfold ReadString, GetString.
  assert (P63 : (2 ^ 63 = 2 * 2 ^ 62)%Z) by reflexivity.
  rewrite (@wrap64_id (Z.of_nat (off b) + len)%Z) by lia.
  destruct (Z.ltb_spec (Z.of_nat (length (buf b))) (Z.of_nat (off b) + len)%Z)
    as [Hclamp|Hfit].
  - rewrite wrap64_id by lia.
    replace (Z.of_nat (off b) + (Z.of_nat (length (buf b)) - Z.of_nat (off b)))%Z
      with (Z.of_nat (length (buf b))) by lia.
    rewrite Nat2Z.id.
    destruct (Z.ltb_spec (Z.of_nat (length (buf b))) (Z.of_nat (off b)));
      [lia|].
    destruct (Z.ltb_spec (Z.of_nat (cap b)) (Z.of_nat (length (buf b))));
      [unfold cap in *; lia|].
    cbn [orb].
    replace (off b + Nat.min (Z.to_nat len) (length (buf b) - off b))
      with (length (buf b)) by lia.
    rewrite sub_app_le by lia. reflexivity.
  - rewrite wrap64_id by lia.
    destruct (Z.ltb_spec (Z.of_nat (off b) + len)%Z (Z.of_nat (off b))); [lia|].
    destruct (Z.ltb_spec (Z.of_nat (cap b)) (Z.of_nat (off b) + len)%Z);
      [unfold cap in *; lia|].
    cbn [orb].
    replace (Z.to_nat (Z.of_nat (off b) + len)%Z)
      with (off b + Nat.min (Z.to_nat len) (length (buf b) - off b)) by lia.
    rewrite sub_app_le by lia. reflexivity.
Qed.



(** What has been written can be read back.  The bytes that Write stores at
    the offset, which it leaves in place, are what ReadString returns next;
    and after WriteByte, which moves the offset on, Seek back to the old
    offset and ReadString of one byte return the byte. *)
Theorem Write_ReadString_roundtrip :
  forall (b : Buffer) (p : list byte) (c : byte),
    off b <= cap b ->
    (Z.of_nat (off b + length p) < 2 ^ 61)%Z ->
    (exists b1 b2,
        Write b p = Some (b1, length p)
        /\ ReadString b1 (Z.of_nat (length p)) = Some (p, b2)
        /\ off b2 = off b + length p /\ buf b2 = buf b1)
    /\ (exists b1 b2,
           WriteByte b c = Some b1
           /\ ReadString (Seek b1 (Z.of_nat (off b))) 1%Z = Some ([c], b2)
           /\ off b2 = off b1 /\ buf b2 = buf b1).
Proof.
  intros b p c Hoff Hsize.
  assert (P62 : (2 ^ 62 = 2 * 2 ^ 61)%Z) by reflexivity.
  assert (P61 : (1 < 2 ^ 61)%Z) by reflexivity.
  split.
  - destruct (@Write_spec b p Hoff) as (b1 & E & O1 & L1 & P1 & _).
    exists b1. eexists. split; [exact E|].
    rewrite ReadString_ok by lia.
    rewrite Nat2Z.id, O1, L1.
    replace (Nat.min (length p) (off b + length p - off b))
      with (length p) by lia.
    rewrite P1. split; [reflexivity|]. split; reflexivity.
  - destruct (@WriteByte_copyOut b c Hoff) as (b1 & E & O1 & L1 & _).
    destruct (@WriteByte_spec b c Hoff) as (b1' & E' & _ & P1).
    rewrite E in E'. injection E' as <-.
    exists b1, (mkBuffer (buf b1) (spare b1) (off b + 1)). split; [exact E|].
    assert (Hseek : Seek b1 (Z.of_nat (off b))
                    = mkBuffer (buf b1) (spare b1) (off b)).
    { unfold Seek.
      destruct (Z.leb_spec 0 (Z.of_nat (off b))); [|lia].
      destruct (Z.leb_spec (Z.of_nat (off b)) (Z.of_nat (length (buf b1))));
        [|lia].
      cbn [andb]. rewrite Nat2Z.id. reflexivity. }
    rewrite Hseek.
    rewrite ReadString_ok; cbn [off buf spare]; try lia.
    rewrite L1.
    replace (Nat.min (Z.to_nat 1) (off b + 1 - off b)) with 1 by lia.
    rewrite P1, O1. split; [reflexivity|]. split; reflexivity.
Qed.

Lemma Write_ReadString_roundtrip_witness :
  (off sampleBuffer <= cap sampleBuffer
   /\ (Z.of_nat (off sampleBuffer + length (B "true")) < 2 ^ 61)%Z)
  /\ (exists b1 b2,
         Write sampleBuffer (B "true") = Some (b1, 4)
         /\ ReadString b1 4%Z = Some (B "true", b2) /\ off b2 = 6)
  /\ (exists b1 b2,
         WriteByte sampleBuffer "x" = Some b1
         /\ ReadString (Seek b1 2%Z) 1%Z = Some (B "x", b2) /\ off b2 = 3).
Proof.
  assert (H1 : off sampleBuffer <= cap sampleBuffer)
    by (apply Nat.leb_le; reflexivity).
  assert (H2 : (Z.of_nat (off sampleBuffer + length (B "true")) < 2 ^ 61)%Z)
    by reflexivity.
  split; [split; assumption|].
  destruct (@Write_ReadString_roundtrip sampleBuffer (B "true") "x" H1 H2)
    as ((b1 & b2 & E1 & R1 & O1 & _) & (b3 & b4 & E2 & R2 & O2 & _)).
  split.
  - exists b1, b2. repeat split; assumption.
  - exists b3, b4. split; [exact E2|]. split; [exact R2|].
    rewrite O2.
    destruct (@WriteByte_copyOut sampleBuffer "x" H1) as (b5 & E5 & O5 & _).
    rewrite E2 in E5. injection E5 as <-. exact O5.
Defined.

(** ** getBufferSize for large hints *)

Lemma Z_le_lor a b : (0 <= a)%Z -> (0 <= b)%Z -> (a <= Z.lor a b)%Z.
Proof.
  intros Ha Hb.
  rewrite <- (Z2N.id a Ha), <- (Z2N.id b Hb), <- N2Z.inj_lor.
  apply N2Z.inj_le. apply N_le_lor.
Qed.

Lemma log2_lt_62 a : (0 <= a < 2 ^ 62)%Z -> (Z.log2 a < 62)%Z.
Proof.
  intros [Ha Hb]. destruct (Z.eq_dec a 0) as [->|Hn]; [reflexivity|].
  apply Z.log2_lt_pow2; lia.
Qed.

Lemma Z_lor_lt a b :
  (0 <= a < 2 ^ 62)%Z -> (0 <= b < 2 ^ 62)%Z -> (Z.lor a b < 2 ^ 62)%Z.
Proof.
  intros Ha Hb.
  assert (Hn : (0 <= Z.lor a b)%Z) by (apply Z.lor_nonneg; lia).
  destruct (Z.eq_dec (Z.lor a b) 0) as [E|E]; [rewrite E; reflexivity|].
  apply Z.log2_lt_pow2; [lia|].
  rewrite Z.log2_lor by lia.
  pose proof (log2_lt_62 Ha). pose proof (log2_lt_62 Hb). lia.
Qed.

Lemma shiftr_bounds a n :
  (0 <= a < 2 ^ 62)%Z -> (0 <= n)%Z -> (0 <= Z.shiftr a n < 2 ^ 62)%Z.
Proof.
  intros [Ha Hb] Hn. rewrite Z.shiftr_div_pow2 by assumption.
  assert (Hp : (0 < 2 ^ n)%Z) by (apply Z.pow_pos_nonneg; lia).
  split.
  - apply Z.div_pos; lia.
  - apply Z.div_lt_upper_bound; [assumption | nia].
Qed.

Lemma orShift_bounds s k :
  (0 <= s < 2 ^ 62)%Z -> (0 <= k)%Z ->
  (s <= Z.lor s (Z.shiftr s k) < 2 ^ 62)%Z.
Proof.
  intros Hs Hk. pose proof (shiftr_bounds Hs Hk) as Hr. split.
  - apply Z_le_lor; lia.
  - apply Z_lor_lt; assumption.
Qed.

(** The rounding of the large branch never goes below the hint. *)
Lemma roundHint_bounds h :
  (0 < h <= 2 ^ 62)%Z -> (h <= roundHint h <= 2 ^ 62)%Z.
Proof.
  intros Hh. unfold roundHint.
  assert (P63 : (2 ^ 63 = 2 * 2 ^ 62)%Z) by reflexivity.
  assert (P62 : (0 < 2 ^ 62)%Z) by reflexivity.
  rewrite (@wrap64_id (h - 1)%Z) by lia.
  assert (H0 : (0 <= h - 1 < 2 ^ 62)%Z) by lia.
  pose proof (@orShift_bounds _ 1 H0 ltac:(lia)) as H1.
  set (s1 := Z.lor (h - 1) (Z.shiftr (h - 1) 1)) in *.
  pose proof (@orShift_bounds s1 2 ltac:(lia) ltac:(lia)) as H2.
  set (s2 := Z.lor s1 (Z.shiftr s1 2)) in *.
  pose proof (@orShift_bounds s2 4 ltac:(lia) ltac:(lia)) as H3.
  set (s3 := Z.lor s2 (Z.shiftr s2 4)) in *.
  pose proof (@orShift_bounds s3 8 ltac:(lia) ltac:(lia)) as H4.
  set (s4 := Z.lor s3 (Z.shiftr s3 8)) in *.
  pose proof (@orShift_bounds s4 16 ltac:(lia) ltac:(lia)) as H5.
  set (s5 := Z.lor s4 (Z.shiftr s4 16)) in *.
  rewrite wrap64_id by lia. lia.
Qed.

Lemma alignPage_bounds s :
  (0 <= s <= 2 ^ 62)%Z -> (s <= alignPage s <= s + 4095)%Z.
Proof.
  intros Hs. unfold alignPage.
  assert (P63 : (2 ^ 63 = 2 * 2 ^ 62)%Z) by reflexivity.
  assert (P62 : (4096 < 2 ^ 62)%Z) by reflexivity.
  rewrite wrap64_id by lia.
  rewrite <- Z.ldiff_land. change 4095%Z with (Z.ones 12).
  rewrite Z.ldiff_ones_r by lia.
  rewrite Z.shiftl_mul_pow2, Z.shiftr_div_pow2 by lia.
  change (2 ^ 12)%Z with 4096%Z. change (Z.ones 12) with 4095%Z.
  pose proof (Z.div_mod (s + 4095) 4096 ltac:(lia)) as Hd.
  pose proof (Z.mod_pos_bound (s + 4095) 4096 ltac:(lia)) as Hm.
  lia.
Qed.

Lemma getBufferSize_large_cap sizeHint pl :
  (4096 < sizeHint <= 2 ^ 62)%Z ->
  exists b pl',
    getBufferSize sizeHint pl = Some (b, pl')
    /\ (sizeHint <= Z.of_nat (cap b))%Z
    /\ off b = 0 /\ buf b = []
    /\ ((65536 < sizeHint)%Z -> pl' = pl).
Proof.
  intros Hh. unfold getBufferSize.
  destruct (Z.leb_spec sizeHint 64); [lia|].
  destruct (Z.leb_spec sizeHint 256); [lia|].
  destruct (Z.leb_spec sizeHint 4096); [lia|].
  pose proof (@roundHint_bounds sizeHint ltac:(lia)) as Hr.
  set (s := roundHint sizeHint) in *.
  destruct (Z.ltb_spec 65536 s) as [Hbig|Hsmall].
  - pose proof (@alignPage_bounds s ltac:(lia)) as Ha.
    destruct (Z.ltb_spec (alignPage s) 0); [lia|].
    eexists; eexists. split; [reflexivity|].
    unfold cap, newBuffer. cbn [buf spare off app length].
    rewrite repeat_length. repeat split; try lia.
  - destruct (poolGet (largeBuffers pl) (newBuffer 4096)) as [b more].
    eexists; eexists. split; [reflexivity|].
    cbn [off buf]. repeat split; [|lia].
    destruct (Z.ltb_spec (Z.of_nat (cap b)) s) as [Hlt|Hge].
    + unfold cap. cbn [buf spare app length].
      rewrite repeat_length. lia.
    + unfold cap in *. cbn [buf spare length]. rewrite length_app. lia.
Qed.

(** For every size hint above 4096 the buffer returned has at least the
    capacity asked for, offset 0 and length 0; above 64 KiB the buffer is
    newly made and the pools are left as they are. *)
Theorem getBufferSize_large :
  forall (sizeHint : Z) (pl : Pools),
    (4096 < sizeHint <= 2 ^ 62)%Z ->
    exists b pl',
      getBufferSize sizeHint pl = Some (b, pl')
      /\ (sizeHint <= Z.of_nat (cap b))%Z
      /\ off b = 0 /\ length (buf b) = 0
      /\ ((65536 < sizeHint)%Z -> pl' = pl).
Proof.
  intros sizeHint pl Hh.
  destruct (@getBufferSize_large_cap sizeHint pl Hh)
    as (b & pl' & E & Hc & Ho & Hb & Hp).
  exists b, pl'. rewrite Hb. repeat split; assumption.
Qed.

Lemma getBufferSize_large_witness :
  (4096 < 5000 <= 2 ^ 62)%Z
  /\ exists b pl',
       getBufferSize 5000 initialPools = Some (b, pl')
       /\ (5000 <= Z.of_nat (cap b))%Z /\ off b = 0.
Proof.
  assert (H : (4096 < 5000 <= 2 ^ 62)%Z) by (split; [reflexivity | discriminate]).
  split; [exact H|].
  destruct (@getBufferSize_large 5000%Z initialPools H)
    as (b & pl' & E & Hc & Ho & _).
  exists b, pl'. repeat split; assumption.
Defined.

(** ** AppendBuffers *)

Lemma getBufferSize_returns sizeHint pl :
  (sizeHint <= 2 ^ 62)%Z ->
  exists b pl', getBufferSize sizeHint pl = Some (b, pl').
Proof.
  intros Hh.
  destruct (Z.leb_spec sizeHint 4096) as [Hs|Hl].
  - unfold getBufferSize.
    destruct (sizeHint <=? 64)%Z.
    { destruct (poolGet _ _); eexists; eexists; reflexivity. }
    destruct (sizeHint <=? 256)%Z.
    { destruct (poolGet _ _); eexists; eexists; reflexivity. }
    destruct (Z.leb_spec sizeHint 4096); [|lia].
    destruct (poolGet _ _); eexists; eexists; reflexivity.
  - destruct (@getBufferSize_large_cap sizeHint pl ltac:(lia))
      as (b & pl' & E & _).
    exists b, pl'. exact E.
Qed.

Lemma writeAll_keeps_offset buffers :
  forall b,
    off b <= cap b ->
    exists b', writeAll b buffers = Some b' /\ off b' = off b
               /\ off b' <= cap b'.
Proof.
  induction buffers as [|x more IH]; intros b Hoff; cbn [writeAll].
  - exists b. repeat split; assumption.
  - destruct (@Write_spec b x Hoff) as (b1 & -> & O1 & L1 & _).
    assert (Hoff1 : off b1 <= cap b1) by (unfold cap; lia).
    destruct (IH b1 Hoff1) as (b' & E & O & C).
    exists b'. split; [exact E|]. split; [lia | exact C].
Qed.

(** AppendBuffers returns an empty slice for no slice and the bytes of the
    slice for a single one.  For two or more slices it writes each of them
    with Buffer.Write, which stores them one over the other at offset 0 and
    leaves the offset there, and then copies out the [buf.off] = 0 bytes
    before the offset: the result is empty, whatever the slices hold. *)
Theorem AppendBuffers_behaviour :
  forall (x y : list byte) (more : list (list byte)) (pl : Pools),
    (Z.of_nat (totalSize (x :: y :: more)) <= 2 ^ 62)%Z ->
    AppendBuffers [] pl = Some ([], pl)
    /\ AppendBuffers [x] pl = Some (x, pl)
    /\ exists pl', AppendBuffers (x :: y :: more) pl = Some ([], pl').
Proof.
  intros x y more pl Hsize.
  split; [reflexivity|]. split; [reflexivity|].
  unfold AppendBuffers. fold (totalSize (x :: y :: more)).
  destruct (@getBufferSize_returns _ pl Hsize) as (b & pl1 & E).
  rewrite E.
  destruct (getBufferSize_reset _ _ E) as [Hoff Hbuf].
  assert (Hcap : off b <= cap b) by (rewrite Hoff; apply Nat.le_0_l).
  destruct (@writeAll_keeps_offset (x :: y :: more) b Hcap)
    as (b' & -> & O & C).
  rewrite copyOut_Some by assumption.
  rewrite O, Hoff. eexists. reflexivity.
Qed.

Lemma AppendBuffers_behaviour_witness :
  (Z.of_nat (totalSize [B "ab"; B "cd"]) <= 2 ^ 62)%Z
  /\ AppendBuffers [B "ab"] initialPools = Some (B "ab", initialPools)
  /\ exists pl', AppendBuffers [B "ab"; B "cd"] initialPools = Some ([], pl').
Proof.
  assert (H : (Z.of_nat (totalSize [B "ab"; B "cd"]) <= 2 ^ 62)%Z)
    by discriminate.
  split; [exact H|].
  destruct (@AppendBuffers_behaviour (B "ab") (B "cd") [] initialPools H)
    as (_ & E1 & E2).
  split; [exact E1 | exact E2].
Defined.

(** * Marshalling strings *)

(** A copy that fits between the offset and the logical length is complete. *)
Lemma copyAdvance_fits b src :
  off b + length src <= length (buf b) ->
  exists b',
    copyAdvance b src = Some (b', length src)
    /\ off b' = off b + length src
    /\ length (buf b') = length (buf b)
    /\ spare b' = spare b
    /\ firstn (off b') (buf b') = firstn (off b) (buf b) ++ src.
Proof.
  intros H.
  destruct (@copyAdvance_spec b src ltac:(lia)) as (b' & E & O & L & S & F).
  replace (Nat.min (length (buf b) - off b) (length src))
    with (length src) in * by lia.
  rewrite firstn_all in F.
  exists b'. repeat split; assumption.
Qed.

Lemma flushRun_fits b run :
  off b + length run <= length (buf b) ->
  exists b',
    flushRun b run = Some b'
    /\ off b' = off b + length run
    /\ length (buf b') = length (buf b)
    /\ spare b' = spare b
    /\ firstn (off b') (buf b') = firstn (off b) (buf b) ++ run.
Proof.
  intros H. destruct run as [|c run].
  - exists b. cbn [flushRun length]. rewrite app_nil_r, Nat.add_0_r.
    repeat split.
  - destruct (@copyAdvance_fits b (c :: run) H) as (b' & E & O & L & S & F).
    exists b'. cbn [flushRun]. rewrite E. repeat split; assumption.
Qed.

(** Every entry of escapeMap is a backslash and one more byte, and the bytes
    without an entry are neither the quote nor the backslash. *)
Lemma escapeMap_cases c :
  (exists x, escapeMap c = Some [cBackslash; x])
  \/ (escapeMap c = None /\ beq c cBackslash = false /\ beq c cQuote = false).
Proof.
  unfold escapeMap.
  destruct (beq c cQuote) eqn:Eq; [left; eexists; reflexivity|].
  destruct (beq c cBackslash) eqn:Eb; [left; eexists; reflexivity|].
  destruct (beq c cNewline); [left; eexists; reflexivity|].
  destruct (beq c cReturn); [left; eexists; reflexivity|].
  destruct (beq c cTab); [left; eexists; reflexivity|].
  right. repeat split.
Qed.

Lemma escapeText_length s :
  length (escapeText s) = length s + escapeCount s.
Proof.
  induction s as [|c s IH]; [reflexivity|].
  unfold escapeText in *. cbn [flat_map escapeCount].
  rewrite length_app, IH.
  destruct (escapeMap_cases c) as [[x ->]|[-> _]]; cbn [length]; lia.
Qed.

Lemma escapeText_cons c s :
  escapeText (c :: s)
  = match escapeMap c with Some esc => esc | None => [c] end ++ escapeText s.
Proof. reflexivity. Qed.

Lemma escapeText_id s : escapeCount s = 0 -> escapeText s = s.
Proof.
  induction s as [|c s IH]; [reflexivity|].
  cbn [escapeCount]. rewrite escapeText_cons.
  destruct (escapeMap c); [discriminate|].
  intros H. cbn [app]. f_equal. apply IH; assumption.
Qed.

Lemma escapeLoop_fits l :
  forall run b,
    off b + length run + length l + escapeCount l <= length (buf b) ->
    exists b',
      escapeLoop l run b = Some b'
      /\ off b' = off b + length run + length (escapeText l)
      /\ length (buf b') = length (buf b)
      /\ spare b' = spare b
      /\ firstn (off b') (buf b')
         = firstn (off b) (buf b) ++ run ++ escapeText l.
Proof.
  induction l as [|c l IH]; intros run b H; cbn [escapeLoop].
  - destruct (@flushRun_fits b run ltac:(cbn [length] in H; lia))
      as (b' & E & O & L & S & F).
    exists b'. cbn [escapeText flat_map length]. rewrite app_nil_r.
    repeat split; try assumption. lia.
  - rewrite escapeText_cons. cbn [length escapeCount] in H.
    destruct (escapeMap_cases c) as [[x Ec]|[Ec _]]; rewrite Ec in *.
    + destruct (@flushRun_fits b run ltac:(lia)) as (b1 & -> & O1 & L1 & S1 & F1).
      destruct (@copyAdvance_fits b1 [cBackslash; x]
                  ltac:(cbn [length]; lia)) as (b2 & -> & O2 & L2 & S2 & F2).
      cbn [length] in O2.
      destruct (IH [] b2 ltac:(cbn [length]; lia))
        as (b' & E & O & L & S & F).
      exists b'. split; [exact E|].
      split; [rewrite O, length_app; cbn [length]; lia|].
      split; [lia|]. split; [congruence|].
      rewrite F, F2, F1. cbn [app]. rewrite <- !app_assoc. reflexivity.
    + destruct (IH (run ++ [c]) b
                  ltac:(rewrite length_app; cbn [length]; lia))
        as (b' & E & O & L & S & F).
      exists b'. split; [exact E|].
      split; [rewrite O, !length_app; cbn [length]; lia|].
      split; [assumption|]. split; [assumption|].
      rewrite F. rewrite <- !app_assoc. reflexivity.
Qed.

(** The escaping writer on a string with at most 16 bytes to escape: the
    room grown in advance suffices and the escaped text is appended. *)
Lemma writeEscapedStringString_fits b s :
  off b <= cap b -> escapeCount s <= 16 ->
  exists b',
    writeEscapedStringString b s = Some b'
    /\ off b' = off b + length (escapeText s)
    /\ off b' <= length (buf b')
    /\ firstn (off b') (buf b')
       = firstn (off b) (buf b ++ spare b) ++ escapeText s.
Proof.
  intros Hoff Hcount. unfold writeEscapedStringString.
  destruct (@grow_spec b (length s + 16) Hoff) as (b1 & -> & E1 & L1 & F1 & C1).
  destruct (@escapeLoop_fits s [] b1 ltac:(cbn [length]; lia))
    as (b' & E & O & L & S & F).
  exists b'. split; [exact E|]. cbn [length] in O.
  pose proof (escapeText_length s) as Hlen.
  split; [lia|]. split; [lia|].
  rewrite F, E1, F1. reflexivity.
Qed.

Lemma copyOut_firstn b l :
  off b <= length (buf b) -> firstn (off b) (buf b) = l ->
  copyOut b = Some l.
Proof. intros H <-. apply copyOut_within; assumption. Qed.

Lemma writeQuoted_fits b s :
  off b <= cap b -> escapeCount s <= 16 ->
  exists b',
    writeQuoted b s = Some (b', None)
    /\ length (buf b') = off b'
    /\ copyOut b'
       = Some (firstn (off b) (buf b ++ spare b)
               ++ cQuote :: escapeText s ++ [cQuote]).
Proof.
  intros Hoff Hcount. unfold writeQuoted, jsonQuote.
  destruct (@WriteByte_copyOut b cQuote Hoff) as (b1 & -> & O1 & L1 & C1 & X1).
  assert (Hoff1 : off b1 <= cap b1) by (unfold cap; lia).
  rewrite copyOut_Some in X1 by assumption. injection X1 as X1.
  destruct (@writeEscapedStringString_fits b1 s Hoff1 Hcount)
    as (b2 & -> & O2 & L2 & F2).
  assert (Hoff2 : off b2 <= cap b2) by (unfold cap; lia).
  destruct (@WriteByte_copyOut b2 cQuote Hoff2) as (b3 & -> & O3 & L3 & C3 & X3).
  exists b3. split; [reflexivity|]. split; [lia|].
  rewrite X3. f_equal.
  rewrite firstn_app_le by assumption.
  rewrite F2, X1. rewrite <- !app_assoc. reflexivity.
Qed.

Lemma getBuffer_returns pl :
  exists b pl', getBuffer pl = Some (b, pl') /\ off b = 0 /\ buf b = [].
Proof.
  unfold getBuffer.
  destruct (@getBufferSize_returns 256%Z pl ltac:(discriminate))
    as (b & pl' & E).
  exists b, pl'. split; [exact E|]. exact (getBufferSize_reset _ _ E).
Qed.

(** Marshal of a string with at most 16 bytes that have an entry in
    escapeMap returns, whatever the pools hold, the quoted text of the string
    with each of those bytes replaced by its entry; this covers every string
    without such bytes, which is returned between quotes as it is.  The same
    holds for a string held in an interface or behind a pointer. *)
Theorem Marshal_string :
  forall (s : list byte) (pl : Pools),
    escapeCount s <= 16 ->
    (exists pl', Marshal (SString s) pl
                 = Some (inl (cQuote :: escapeText s ++ [cQuote]), pl'))
    /\ (exists pl', Marshal (SIface (SString s)) pl
                    = Some (inl (cQuote :: escapeText s ++ [cQuote]), pl'))
    /\ (exists pl', Marshal (SPtr (SString s)) pl
                    = Some (inl (cQuote :: escapeText s ++ [cQuote]), pl'))
    /\ (escapeCount s = 0 -> escapeText s = s).
Proof.
  intros s pl Hcount.
  assert (Hm : forall v,
             (forall b, marshalValue v b = writeQuoted b s) ->
             exists pl', Marshal v pl
                         = Some (inl (cQuote :: escapeText s ++ [cQuote]), pl')).
  { intros v Hv. unfold Marshal.
    destruct (getBuffer_returns pl) as (b & pl1 & -> & Hoff & Hbuf).
    assert (Hcap : off b <= cap b) by (rewrite Hoff; apply Nat.le_0_l).
    rewrite Hv.
    destruct (@writeQuoted_fits b s Hcap Hcount) as (b' & -> & _ & ->).
    rewrite Hoff. cbn [firstn app]. eexists. reflexivity. }
  split; [apply Hm; reflexivity|].
  split; [apply Hm; reflexivity|].
  split; [apply Hm; reflexivity|].
  apply escapeText_id.
Qed.

Lemma Marshal_string_witness :
  escapeCount (J "say 'hi'") <= 16
  /\ option_map fst (Marshal (SString (J "say 'hi'")) initialPools)
     = Some (inl (J "'say ^'hi^''")).
Proof.
  assert (H : escapeCount (J "say 'hi'") <= 16)
    by (apply Nat.leb_le; reflexivity).
  split; [exact H|].
  destruct (proj1 (@Marshal_string (J "say 'hi'") initialPools H)) as (pl' & E).
  rewrite E. reflexivity.
Defined.

(** ** Strings through Marshal and Unmarshal *)

Lemma scanString_escapeText s :
  forall tl i,
    scanString (escapeText s ++ cQuote :: tl) i
    = (true, i + length (escapeText s) + 1).
Proof.
  induction s as [|c s IH]; intros tl i.
  - cbn [escapeText flat_map app scanString length].
    change (beq cQuote cBackslash) with false. rewrite beq_refl.
    cbv iota. f_equal. lia.
  - rewrite escapeText_cons.
    destruct (escapeMap_cases c) as [[x ->]|[-> [Hb Hq]]];
      cbn [app scanString].
    + change (beq cBackslash cBackslash) with true. cbv iota.
      rewrite IH. f_equal. cbn [length]. lia.
    + rewrite Hb, Hq. rewrite IH. f_equal. cbn [length]. lia.
Qed.

Lemma parseString_escapeText s :
  parseString (NewParser (cQuote :: escapeText s ++ [cQuote]))
  = (TokenString, escapeText s,
     mkParser (cQuote :: escapeText s ++ [cQuote])
              (length (cQuote :: escapeText s ++ [cQuote]))).
Proof.
  unfold parseString, NewParser. cbn [data pos at_ nth_error].
  rewrite beq_refl.
  change (skipn 1 (cQuote :: escapeText s ++ [cQuote]))
    with (escapeText s ++ [cQuote]).
  rewrite scanString_escapeText.
  f_equal; [f_equal|].
  - replace (1 + length (escapeText s) + 1 - 1)
      with (1 + length (escapeText s)) by lia.
    apply sub_prefix with (b := [cQuote]). reflexivity.
  - f_equal. cbn [length]. rewrite length_app. cbn [length]. lia.
Qed.

Section StringRoundTrip.

Variable float : Type.
Variable ParseFloat : list byte -> Z -> option float.
Variable OverflowFloat : Z -> float -> bool.
Variable floatZero : float.

Lemma unmarshalValue_quote fuel p t (v : Value float) :
  at_ (data (skipWhitespace p)) (pos (skipWhitespace p)) = Some cQuote ->
  unmarshalValue ParseFloat OverflowFloat floatZero (S fuel) p t v
  = let '(tok, value, p') := parseString (skipWhitespace p) in
    match tok with
    | TokenString =>
        let '(v', e) := setString t v (GetString value) in Some (p', v', e)
    | _ => uFail p' v "invalid string"
    end.
Proof. intros H. cbn [unmarshalValue]. rewrite H. reflexivity. Qed.

Lemma skipWhitespace_at_value d c tl :
  d = c :: tl -> isWhitespace c = false ->
  skipWhitespace (NewParser d) = NewParser d.
Proof.
  intros -> Hc. unfold skipWhitespace, NewParser, advance. cbn [data pos].
  rewrite skipn_O. cbn [wsRun]. rewrite Hc. reflexivity.
Qed.

(** A string goes through Marshal and Unmarshal.  For every string with at
    most 16 bytes that have an entry in escapeMap, Unmarshal of what Marshal
    returns, into a string or into an empty interface, stores the text that
    Marshal wrote between the quotes, with no error and the cursor at the end
    of the input.  parseString does not decode escapes, so the string comes
    back unchanged exactly when it has no such byte. *)
Theorem Marshal_Unmarshal_string :
  forall (s : list byte) (pl : Pools) (dest : Value float),
    escapeCount s <= 16 ->
    exists out pl',
      Marshal (SString s) pl = Some (inl out, pl')
      /\ Unmarshal ParseFloat OverflowFloat floatZero out TString dest
         = Some (mkParser out (length out), VString (escapeText s), None)
      /\ Unmarshal ParseFloat OverflowFloat floatZero out (TInterface 0) dest
         = Some (mkParser out (length out),
                 VIface TString (VString (escapeText s)), None)
      /\ (escapeText s = s <-> escapeCount s = 0).
Proof.
  intros s pl dest Hcount.
  assert (Hm : exists pl', Marshal (SString s) pl
                 = Some (inl (cQuote :: escapeText s ++ [cQuote]), pl')).
  { unfold Marshal.
    destruct (getBuffer_returns pl) as (b & pl1 & -> & Hoff & Hbuf).
    assert (Hcap : off b <= cap b) by (rewrite Hoff; apply Nat.le_0_l).
    cbn [marshalValue].
    destruct (@writeQuoted_fits b s Hcap Hcount) as (b' & -> & _ & ->).
    rewrite Hoff. cbn [firstn app]. eexists. reflexivity. }
  destruct Hm as (pl' & Em).
  set (out := cQuote :: escapeText s ++ [cQuote]) in *.
  exists out, pl'. split; [exact Em|].
  assert (Hws : skipWhitespace (NewParser out) = NewParser out)
    by (apply (@skipWhitespace_at_value out cQuote (escapeText s ++ [cQuote]));
        reflexivity).
  assert (Hu : forall t,
             Unmarshal ParseFloat OverflowFloat floatZero out t dest
             = Some (mkParser out (length out),
                     fst (setString t dest (escapeText s)),
                     snd (setString t dest (escapeText s)))).
  { intros t. unfold Unmarshal.
    replace (2 * length out + 2) with (S (2 * length out + 1)) by lia.
    rewrite unmarshalValue_quote by (rewrite Hws; reflexivity).
    rewrite Hws. unfold out at 1. rewrite parseString_escapeText.
    unfold GetString. fold out.
    destruct (setString t dest (escapeText s)); reflexivity. }
  split; [rewrite Hu; reflexivity|].
  split; [rewrite Hu; reflexivity|].
  split.
  - intros E. pose proof (escapeText_length s) as L. rewrite E in L. lia.
  - apply escapeText_id.
Qed.

End StringRoundTrip.

Lemma Marshal_Unmarshal_string_witness :
  escapeCount (B "plain text") <= 16
  /\ exists out pl',
       Marshal (SString (B "plain text")) initialPools = Some (inl out, pl')
       /\ Unmarshal noFloat noOverflow tt out TString (VString [])
          = Some (mkParser out (length out), VString (B "plain text"), None).
Proof.
  assert (H : escapeCount (B "plain text") <= 16)
    by (apply Nat.leb_le; reflexivity).
  split; [exact H|].
  destruct (@Marshal_Unmarshal_string unit noFloat noOverflow tt
              (B "plain text") initialPools (VString []) H)
    as (out & pl' & E1 & E2 & _).
  exists out, pl'. split; [exact E1 | exact E2].
Defined.

(** ** The streaming encoder *)

Lemma Write_Bytes b p :
  off b <= cap b ->
  exists b', Write b p = Some (b', length p) /\ Bytes b' = Some p
             /\ off b' = off b.
Proof.
  intros Hoff.
  destruct (@Write_spec b p Hoff) as (b' & E & O & L & P & _).
  exists b'. split; [exact E|]. split; [|exact O].
  unfold Bytes. rewrite O.
  destruct (Nat.ltb_spec (length (buf b')) (off b)); [lia|].
  f_equal. rewrite <- P. unfold sub.
  replace (off b + length p - off b) with (length p) by lia.
  symmetry. apply firstn_all2. rewrite length_skipn. lia.
Qed.

Lemma marshalValue_whole v b :
  writtenWhole v = true -> marshalValue v b = writeBytes b (wholeText v).
Proof. destruct v as [|[|]|n|n|s| | | |]; try discriminate; reflexivity. Qed.

(** Encode hands to the writer what lies in the buffer from the offset on
    ([Bytes]), and then a newline.  A boolean, an integer or a nil is stored
    by Buffer.Write, which leaves the offset at 0: its whole JSON text is
    written.  A string is stored by WriteByte and the escaping writer, which
    move the offset behind what they store: nothing of it is written, only
    the newline follows.  An error of the writer is returned as it is. *)
Theorem Encode_output :
  forall (Writer : Type)
         (wWrite : Writer -> list byte -> Writer * option GoError)
         (e : Encoder Writer),
    (forall v, writtenWhole v = true ->
               exists b, Encode wWrite e v
                         = Some (emitLine wWrite e b (wholeText v)))
    /\ (forall s, escapeCount s <= 16 ->
                  exists b, Encode wWrite e (SString s)
                            = Some (emitLine wWrite e b [])).
Proof.
  intros Writer wWrite e.
  assert (Hcap : off (Reset (ebuf e)) <= cap (Reset (ebuf e)))
    by (cbn [Reset off]; apply Nat.le_0_l).
  split.
  - intros v Hv. unfold Encode. rewrite marshalValue_whole by assumption.
    unfold writeBytes.
    destruct (@Write_Bytes (Reset (ebuf e)) (wholeText v) Hcap)
      as (b & -> & -> & _).
    exists b. unfold emitLine.
    destruct (wWrite (ew e) (wholeText v)) as [w1 [err|]]; [reflexivity|].
    destruct (wWrite w1 jsonNewline) as [w2 err]. reflexivity.
  - intros s Hs. unfold Encode. cbn [marshalValue].
    destruct (@writeQuoted_fits (Reset (ebuf e)) s Hcap Hs)
      as (b & -> & L & _).
    assert (Hb : Bytes b = Some []).
    { unfold Bytes. rewrite L, Nat.ltb_irrefl. f_equal.
      apply skipn_all2. lia. }
    rewrite Hb. exists b. unfold emitLine.
    destruct (wWrite (ew e) []) as [w1 [err|]]; [reflexivity|].
    destruct (wWrite w1 jsonNewline) as [w2 err]. reflexivity.
Qed.

Lemma Encode_output_witness :
  (writtenWhole (SInt (-42)) = true
   /\ option_map (fun r => (ew (fst r), snd r))
                 (Encode sinkWrite (mkEncoder (B "1 ") sampleBuffer true)
                         (SInt (-42)))
      = Some (B "1 -42" ++ [cNewline], None))
  /\ (escapeCount (B "ab") <= 16
      /\ option_map (fun r => (ew (fst r), snd r))
                    (Encode sinkWrite (mkEncoder (B "1 ") sampleBuffer true)
                            (SString (B "ab")))
         = Some (B "1 " ++ [cNewline], None)).
Proof.
  assert (H1 : writtenWhole (SInt (-42)) = true) by reflexivity.
  assert (H2 : escapeCount (B "ab") <= 16) by (apply Nat.leb_le; reflexivity).
  destruct (@Encode_output (list byte) sinkWrite
              (mkEncoder (B "1 ") sampleBuffer true)) as [Hw Hs].
  split; (split; [assumption|]).
  - destruct (Hw (SInt (-42)) H1) as (b & ->). reflexivity.
  - destruct (Hs (B "ab") H2) as (b & ->). reflexivity.
Defined.

(** * isCompleteLiteral *)

Lemma bytes_eqb_eq a : forall b, bytes_eqb a b = true -> a = b.
Proof.
  induction a as [|x a IH]; intros [|y b]; simpl; try discriminate; auto.
  intros H. apply andb_true_iff in H as [H1 H2].
  apply beq_true in H1. subst. f_equal. auto.
Qed.

Lemma takeDigits_dropDigits l : takeDigits l ++ dropDigits l = l.
Proof.
  induction l as [|c l IH]; simpl; [reflexivity|].
  destruct (isDigit c); simpl; [f_equal; assumption | reflexivity].
Qed.

Lemma takeDigits_allDigits l : allDigits (takeDigits l) = true.
Proof.
  induction l as [|c l IH]; simpl; [reflexivity|].
  destruct (isDigit c) eqn:E; simpl; [rewrite E; assumption | reflexivity].
Qed.

Lemma dropDigits_nil l : dropDigits l = [] -> allDigits l = true.
Proof.
  induction l as [|c l IH]; simpl; [reflexivity|].
  destruct (isDigit c); [exact IH | discriminate].
Qed.

Lemma dropDigits_app ds tl :
  allDigits ds = true -> noDigitHead tl -> dropDigits (ds ++ tl) = tl.
Proof.
  induction ds as [|c ds IH]; simpl; intros Hd Htl.
  - destruct tl as [|x tl]; simpl; auto. simpl in Htl; rewrite Htl; reflexivity.
  - apply andb_true_iff in Hd as [Hc Hd]. rewrite Hc. auto.
Qed.

(** *** Every number of the grammar is accepted *)

Lemma literalExponent_render e :
  wfExp e = true -> literalExponent (renderExp e) = true.
Proof.
  destruct e as [[[m sg] ds]|]; [|reflexivity].
  cbn [wfExp renderExp]. intros H.
  apply andb_true_iff in H as [H Hall].
  apply andb_true_iff in H as [H Hne].
  apply andb_true_iff in H as [Hm Hsg].
  destruct ds as [|d ds]; [discriminate|].
  assert (Hd : isDigit d = true)
    by (simpl in Hall; apply andb_true_iff in Hall as []; assumption).
  assert (Hdrop : dropDigits (d :: ds) = []).
  { rewrite <- (app_nil_r (d :: ds)). apply dropDigits_app; [assumption|exact I]. }
  cbn [literalExponent]. rewrite Hm.
  destruct sg as [|sc [|sc' sg]]; [| |discriminate]; cbn [app].
  - destruct (digit_facts _ Hd) as
      (_ & _ & _ & _ & _ & _ & _ & _ & _ & _ & _ & _ & _ & _ & Hp & Hmi & _).
    rewrite Hp, Hmi. cbn [orb]. rewrite Hd, Hdrop. reflexivity.
  - cbn [wfSign] in Hsg. rewrite Hsg. rewrite Hd, Hdrop. reflexivity.
Qed.

Lemma literalFraction_render f e :
  wfFrac f = true -> wfExp e = true ->
  literalFraction (renderFrac f ++ renderExp e) = true.
Proof.
  intros Hf He. destruct f as [fd|]; cbn [renderFrac wfFrac app] in *.
  - apply andb_true_iff in Hf as [Hne Hall].
    destruct fd as [|d ds]; [discriminate|].
    assert (Hd : isDigit d = true)
      by (simpl in Hall; apply andb_true_iff in Hall as []; assumption).
    cbn [literalFraction app]. change (beq "." ".") with true. cbv iota.
    rewrite Hd.
    change (d :: ds ++ renderExp e) with ((d :: ds) ++ renderExp e).
    rewrite dropDigits_app; [apply literalExponent_render; assumption
                            | assumption |].
    destruct (@exp_head e [] He eq_refl) as [H _].
    rewrite app_nil_r in H. exact H.
  - pose proof (literalExponent_render e He) as Hx.
    destruct (renderExp e) as [|c l] eqn:El; [reflexivity|].
    cbn [literalFraction].
    destruct (@exp_head e [] He eq_refl) as [_ H].
    rewrite app_nil_r, El in H. rewrite H. exact Hx.
Qed.

Lemma bytes_eqb_head c l lit d tl :
  lit = d :: tl -> beq c d = false -> bytes_eqb (c :: l) lit = false.
Proof. intros -> H. cbn [bytes_eqb]. rewrite H. reflexivity. Qed.

Lemma numberStart_notLiteral c l :
  isNumberStart c = true ->
  (beq c "{" || beq c "[") = false
  /\ (bytes_eqb (c :: l) (B "null") || bytes_eqb (c :: l) (B "true")
      || bytes_eqb (c :: l) (B "false")) = false.
Proof.
  intros H.
  destruct (numberStart_facts _ H) as (H1 & H2 & _ & H4 & H5 & H6).
  rewrite H1, H2. split; [reflexivity|].
  rewrite (@bytes_eqb_head c l (B "null") "n" (B "ull") eq_refl H6).
  rewrite (@bytes_eqb_head c l (B "true") "t" (B "rue") eq_refl H4).
  rewrite (@bytes_eqb_head c l (B "false") "f" (B "alse") eq_refl H5).
  reflexivity.
Qed.

Lemma nonzero_digit c :
  isDigit c = true -> beq c "0" = false ->
  N.leb 49 (byteVal c) && N.leb (byteVal c) 57 = true.
Proof. revert c. intros c. byte_cases c. Qed.

Ltac not_literal H :=
  match goal with
  | |- (if ?x then _ else _) = _ =>
      replace x with false by (symmetry; exact H)
  end.

Lemma isCompleteLiteral_render n :
  wfNum n = true -> isCompleteLiteral (renderNum n) = true.
Proof.
  destruct n as [neg int frac e]. unfold wfNum, renderNum.
  cbn [numNeg numInt numFrac numExp]. intros Hn.
  apply andb_true_iff in Hn as [Hn He]. apply andb_true_iff in Hn as [Hi Hf].
  destruct int as [|d ds]; [discriminate|]. cbn [wfInt] in Hi.
  apply andb_true_iff in Hi as [Hi Hz]. apply andb_true_iff in Hi as [Hd Hds].
  pose proof (literalFraction_render frac e Hf He) as HF.
  assert (Hbody : (if beq d "0" then literalFraction (ds ++ renderFrac frac ++ renderExp e)
                   else if N.leb 49 (byteVal d) && N.leb (byteVal d) 57
                        then literalFraction
                               (dropDigits (ds ++ renderFrac frac ++ renderExp e))
                        else false) = true).
  { destruct (beq d "0") eqn:E0.
    - cbn [negb orb] in Hz. apply negb_true_iff in Hz.
      destruct ds; [exact HF | discriminate].
    - rewrite (nonzero_digit _ Hd E0).
      rewrite dropDigits_app; [exact HF | assumption |].
      destruct frac as [fd|]; cbn [renderFrac app]; [reflexivity|].
      destruct (@exp_head e [] He eq_refl) as [H _].
      rewrite app_nil_r in H. exact H. }
  destruct neg; cbn [app].
  - unfold isCompleteLiteral.
    destruct (@numberStart_notLiteral "-"
                (d :: ds ++ renderFrac frac ++ renderExp e) eq_refl)
      as [H1 H2].
    rewrite H1. not_literal H2.
    change (beq "-" "-") with true. cbv iota. cbn [tl app].
    exact Hbody.
  - unfold isCompleteLiteral.
    assert (Hns : isNumberStart d = true)
      by (unfold isNumberStart; rewrite Hd; apply orb_true_r).
    destruct (@numberStart_notLiteral d
                (ds ++ renderFrac frac ++ renderExp e) Hns) as [H1 H2].
    rewrite H1. not_literal H2.
    destruct (digit_facts _ Hd) as
      (_ & _ & _ & _ & _ & _ & _ & _ & _ & _ & _ & _ & _ & _ & _ & Hm & _).
    rewrite Hm. exact Hbody.
Qed.

(** *** Everything accepted is a literal or a number of the grammar *)

Lemma literalExponent_inv l :
  literalExponent l = true ->
  exists e, wfExp e = true /\ l = renderExp e.
Proof.
  destruct l as [|c l1]; [exists None; split; reflexivity|].
  cbn [literalExponent].
  destruct (beq c "e" || beq c "E") eqn:Em; [|discriminate].
  destruct l1 as [|s l2]; [discriminate|].
  destruct (beq s "+" || beq s "-") eqn:Es.
  - destruct l2 as [|d l3]; [discriminate|].
    destruct (isDigit d) eqn:Ed; [|discriminate].
    intros H. destruct (dropDigits (d :: l3)) eqn:Edrop; [|discriminate].
    apply dropDigits_nil in Edrop.
    exists (Some (c, [s], d :: l3)). split; [|reflexivity].
    cbn [wfExp wfSign nonEmpty]. rewrite Em, Es, Edrop. reflexivity.
  - destruct (isDigit s) eqn:Ed; [|discriminate].
    intros H. destruct (dropDigits (s :: l2)) eqn:Edrop; [|discriminate].
    apply dropDigits_nil in Edrop.
    exists (Some (c, [], s :: l2)). split; [|reflexivity].
    cbn [wfExp wfSign nonEmpty]. rewrite Em, Edrop. reflexivity.
Qed.

Lemma literalFraction_inv l :
  literalFraction l = true ->
  exists f e, wfFrac f = true /\ wfExp e = true
              /\ l = renderFrac f ++ renderExp e.
Proof.
  destruct l as [|c l1].
  - exists None, None. repeat split.
  - cbn [literalFraction]. destruct (beq c ".") eqn:Ec.
    + apply beq_true in Ec. subst c.
      destruct l1 as [|d l2]; [discriminate|].
      destruct (isDigit d) eqn:Ed; [|discriminate].
      intros H. destruct (literalExponent_inv _ H) as (e & He & Ee).
      exists (Some (takeDigits (d :: l2))), e.
      split; [|split; [exact He|]].
      * cbn [wfFrac]. rewrite takeDigits_allDigits.
        cbn [takeDigits]. rewrite Ed. reflexivity.
      * cbn [renderFrac]. rewrite <- Ee.
        cbn [app]. f_equal. symmetry. apply takeDigits_dropDigits.
    + intros H. destruct (literalExponent_inv _ H) as (e & He & Ee).
      exists None, e. repeat split; assumption.
Qed.

Lemma onenine_digit c :
  N.leb 49 (byteVal c) && N.leb (byteVal c) 57 = true ->
  isDigit c = true /\ beq c "0" = false.
Proof. revert c. intros c. byte_cases c. Qed.

Lemma literalBody_inv d rest :
  (if beq d "0" then literalFraction rest
   else if N.leb 49 (byteVal d) && N.leb (byteVal d) 57
        then literalFraction (dropDigits rest)
        else false) = true ->
  exists int f e,
    wfInt int = true /\ wfFrac f = true /\ wfExp e = true
    /\ d :: rest = int ++ renderFrac f ++ renderExp e.
Proof.
  destruct (beq d "0") eqn:E0.
  - apply beq_true in E0. subst d. intros H.
    destruct (literalFraction_inv _ H) as (f & e & Hf & He & E).
    exists ["0"], f, e. repeat split; try assumption.
    cbn [app]. f_equal. exact E.
  - destruct (N.leb 49 (byteVal d) && N.leb (byteVal d) 57) eqn:E19;
      [|discriminate].
    destruct (onenine_digit _ E19) as [Hd _]. intros H.
    destruct (literalFraction_inv _ H) as (f & e & Hf & He & E).
    exists (d :: takeDigits rest), f, e.
    split; [|split; [exact Hf | split; [exact He|]]].
    + cbn [wfInt]. rewrite Hd, takeDigits_allDigits, E0. reflexivity.
    + cbn [app]. f_equal. rewrite <- E. symmetry.
      apply takeDigits_dropDigits.
Qed.

Lemma isCompleteLiteral_inv s :
  isCompleteLiteral s = true ->
  s = B "null" \/ s = B "true" \/ s = B "false"
  \/ exists n, wfNum n = true /\ renderNum n = s.
Proof.
  destruct s as [|c0 s']; [discriminate|]. unfold isCompleteLiteral.
  destruct (beq c0 "{" || beq c0 "["); [discriminate|].
  destruct (bytes_eqb (c0 :: s') (B "null")) eqn:En;
    [intros _; left; apply bytes_eqb_eq; assumption|].
  destruct (bytes_eqb (c0 :: s') (B "true")) eqn:Et;
    [intros _; right; left; apply bytes_eqb_eq; assumption|].
  destruct (bytes_eqb (c0 :: s') (B "false")) eqn:Ef;
    [intros _; right; right; left; apply bytes_eqb_eq; assumption|].
  cbn [orb]. intros H. right; right; right.
  destruct (beq c0 "-") eqn:Em.
  - apply beq_true in Em. subst c0. cbn [tl] in H.
    destruct s' as [|d rest]; [discriminate|].
    destruct (literalBody_inv _ _ H) as (int & f & e & Hi & Hf & He & E).
    exists (mkNum true int f e). split.
    + unfold wfNum. cbn [numInt numFrac numExp]. rewrite Hi, Hf, He. reflexivity.
    + unfold renderNum. cbn [numNeg numInt numFrac numExp app]. rewrite <- E.
      reflexivity.
  - destruct (literalBody_inv _ _ H) as (int & f & e & Hi & Hf & He & E).
    exists (mkNum false int f e). split.
    + unfold wfNum. cbn [numInt numFrac numExp]. rewrite Hi, Hf, He. reflexivity.
    + unfold renderNum. cbn [numNeg numInt numFrac numExp app]. rewrite <- E.
      reflexivity.
Qed.

(** isCompleteLiteral, the test of the streaming decoder for a top-level
    literal, accepts exactly the three literals [null], [true], [false] and
    the numbers of the RFC 8259 grammar (no leading zeros, digits after a
    decimal point and after an exponent marker); in particular it rejects the
    empty text.  Every number it accepts is then lexed whole by
    parseNumber. *)
Theorem isCompleteLiteral_exact :
  forall s : list byte,
    (isCompleteLiteral s = true
     <-> (s = B "null" \/ s = B "true" \/ s = B "false"
          \/ exists n, wfNum n = true /\ renderNum n = s))
    /\ (isCompleteLiteral s = true ->
        s = B "null" \/ s = B "true" \/ s = B "false"
        \/ exists v, parseNumber (NewParser s)
                     = (TokenNumber, v, mkParser s (length s))).
Proof.
  intros s.
  assert (Hiff : isCompleteLiteral s = true
                 <-> (s = B "null" \/ s = B "true" \/ s = B "false"
                      \/ exists n, wfNum n = true /\ renderNum n = s)).
  { split; [apply isCompleteLiteral_inv|].
    intros [->|[->|[->|(n & Hn & <-)]]]; try reflexivity.
    apply isCompleteLiteral_render; assumption. }
  split; [exact Hiff|].
  intros H. apply Hiff in H.
  destruct H as [H|[H|[H|(n & Hn & <-)]]]; auto.
  right; right; right. apply parseNumber_accepts_rfc; assumption.
Qed.

(** * Struct tags *)

Lemma optionRun_le l : optionRun l <= length l.
Proof.
  induction l as [|c l IH]; simpl; [lia|].
  destruct (beq c ","); simpl; lia.
Qed.

Lemma optionRun_noComma l : ~ In ","%char (firstn (optionRun l) l).
Proof.
  induction l as [|c l IH]; simpl; [tauto|].
  destruct (beq c ",") eqn:E; simpl; [tauto|].
  intros [H|H]; [|exact (IH H)].
  subst c. rewrite beq_refl in E. discriminate.
Qed.

Lemma optionRun_all l : ~ In ","%char l -> optionRun l = length l.
Proof.
  induction l as [|c l IH]; simpl; [reflexivity|].
  intros H. destruct (beq c ",") eqn:E.
  - apply beq_true in E. tauto.
  - f_equal. apply IH. tauto.
Qed.

Lemma optionRun_comma l :
  optionRun l < length l ->
  l = firstn (optionRun l) l ++ ","%char :: skipn (S (optionRun l)) l.
Proof.
  induction l as [|c l IH]; simpl; [lia|].
  destruct (beq c ",") eqn:E.
  - intros _. apply beq_true in E. subst c. rewrite skipn_cons, skipn_O.
    reflexivity.
  - intros H. cbn [firstn app]. rewrite skipn_cons. f_equal. apply IH. lia.
Qed.

Lemma splitCommas_cur l : forall cur,
  splitCommas l cur
  = (cur ++ firstn (optionRun l) l)
    :: match skipn (optionRun l) l with
       | [] => []
       | _ :: l' => splitCommas l' []
       end.
Proof.
  induction l as [|c l IH]; intros cur.
  - cbn [splitCommas optionRun firstn]. rewrite skipn_O, app_nil_r. reflexivity.
  - cbn [splitCommas optionRun]. destruct (beq c ",").
    + cbn [firstn]. rewrite skipn_O, app_nil_r. reflexivity.
    + cbn [firstn]. rewrite skipn_cons, IH, <- app_assoc. reflexivity.
Qed.

Lemma skipn_next (s : list byte) n x l :
  skipn n s = x :: l -> skipn (S n) s = l.
Proof.
  intros H. change (S n) with (1 + n). rewrite <- skipn_skipn, H.
  rewrite skipn_cons, skipn_O. reflexivity.
Qed.

(** The loop of Contains from the offset [i] on tests, one after the other,
    the fields between the commas of what is left of the tag. *)
Lemma containsFrom_fields opt :
  opt <> [] ->
  forall n rest, length rest <= n ->
  forall s i fuel,
    skipn i s = rest -> i <= length s -> length rest < fuel ->
    containsFrom fuel s opt i
    = Some (existsb (fun f => bytes_eqb f opt) (splitCommas rest [])).
Proof.
  intros Hopt.
  assert (Hnil : bytes_eqb [] opt = false)
    by (destruct opt; [exfalso; apply Hopt; reflexivity | reflexivity]).
  induction n as [|n IH]; intros rest Hn s i fuel Hs Hi Hf.
  - destruct rest; [|simpl in Hn; lia].
    destruct fuel as [|f]; [simpl in Hf; lia|].
    assert (Hl : length (skipn i s) = 0) by (rewrite Hs; reflexivity).
    rewrite length_skipn in Hl. cbn [containsFrom].
    destruct (Nat.ltb_spec i (length s)); [lia|].
    cbn [splitCommas existsb]. rewrite Hnil. reflexivity.
  - destruct fuel as [|f]; [lia|].
    assert (Hl : length (skipn i s) = length rest) by (rewrite Hs; reflexivity).
    rewrite length_skipn in Hl.
    destruct rest as [|c r].
    { cbn [containsFrom]. cbn [length] in Hl.
      destruct (Nat.ltb_spec i (length s)); [lia|].
      cbn [splitCommas existsb]. rewrite Hnil. reflexivity. }
    cbn [containsFrom]. cbn [length] in Hl, Hf, Hn.
    destruct (Nat.ltb_spec i (length s)) as [_|Hbad]; [|lia].
    unfold optionEnd, sub. rewrite Hs.
    set (k := optionRun (c :: r)).
    pose proof (optionRun_le (c :: r)) as Hk. fold k in Hk. cbn [length] in Hk.
    replace (i + k - i) with k by lia.
    rewrite (splitCommas_cur (c :: r) []). fold k. cbn [app existsb].
    destruct (bytes_eqb (firstn k (c :: r)) opt) eqn:E.
    + pose proof (bytes_eqb_eq _ _ E) as Eq.
      assert (Hlen : length opt = k).
      { rewrite <- Eq, length_firstn. cbn [length]. lia. }
      rewrite Hlen, Nat.eqb_refl. reflexivity.
    + rewrite andb_false_r. cbn [orb].
      assert (Hsk : skipn (i + k) s = skipn k (c :: r)).
      { rewrite <- Hs, skipn_skipn. f_equal. lia. }
      assert (Hlk : length (skipn (i + k) s) = length (skipn k (c :: r)))
        by (rewrite Hsk; reflexivity).
      rewrite !length_skipn in Hlk. cbn [length] in Hlk.
      destruct (skipn k (c :: r)) as [|x l'] eqn:Er.
      * assert (Hr : length (skipn k (c :: r)) = 0) by (rewrite Er; reflexivity).
        rewrite length_skipn in Hr. cbn [length] in Hr.
        destruct (Nat.ltb_spec (i + k) (length s)); [lia|].
        destruct f as [|f]; [lia|]. cbn [containsFrom].
        destruct (Nat.ltb_spec (i + k) (length s)); [lia|]. reflexivity.
      * assert (Hr : length (skipn k (c :: r)) = S (length l'))
          by (rewrite Er; reflexivity).
        rewrite length_skipn in Hr. cbn [length] in Hr.
        destruct (Nat.ltb_spec (i + k) (length s)); [|lia].
        apply IH with (rest := l'); try lia.
        apply skipn_next with (x := x). exact Hsk.
Qed.

Lemma Contains_value o opt :
  Contains o opt
  = Some (negb (isNil o) && negb (isNil opt)
          && (bytes_eqb o opt
              || existsb (fun f => bytes_eqb f opt) (tagFields o))).
Proof.
  unfold Contains.
  destruct o as [|c o]; [reflexivity|].
  destruct opt as [|x opt]; [reflexivity|].
  cbn [length Nat.eqb isNil negb andb].
  destruct (bytes_eqb (c :: o) (x :: opt)); [reflexivity|].
  cbn [orb]. unfold tagFields.
  apply containsFrom_fields with (n := length (c :: o));
    [discriminate | lia | apply skipn_O | lia | cbn [length]; lia].
Qed.

(** Contains always returns, and it reports true exactly when neither the
    options nor the option asked for is empty and the option is the whole of
    the options or one of the fields between their commas. *)
Theorem Contains_fields :
  forall o opt : list byte,
    (exists r, Contains o opt = Some r)
    /\ (Contains o opt = Some true
        <-> o <> [] /\ opt <> [] /\ (o = opt \/ In opt (tagFields o))).
Proof.
  intros o opt. rewrite Contains_value. split; [eexists; reflexivity|].
  split.
  - intros H. injection H as H.
    apply andb_true_iff in H as [H H3]. apply andb_true_iff in H as [H1 H2].
    split; [destruct o; [discriminate | discriminate]|].
    split; [destruct opt; [discriminate | discriminate]|].
    apply orb_true_iff in H3 as [H3|H3].
    + left. apply bytes_eqb_eq. exact H3.
    + right. apply existsb_exists in H3 as (f & Hin & Hf).
      apply bytes_eqb_eq in Hf. subst f. exact Hin.
  - intros (Ho & Hopt & H). f_equal.
    destruct o; [congruence|]. destruct opt; [congruence|].
    cbn [isNil negb andb].
    apply orb_true_iff. destruct H as [H|H].
    + left. rewrite H. apply bytes_eqb_refl.
    + right. apply existsb_exists. eexists. split; [exact H|].
      apply bytes_eqb_refl.
Qed.

Lemma firstComma_run l : forall i,
  firstComma l i
  = if Nat.ltb (optionRun l) (length l) then Some (i + optionRun l) else None.
Proof.
  induction l as [|c l IH]; intros i; [reflexivity|].
  cbn [firstComma optionRun length]. destruct (beq c ",").
  - cbn. f_equal. lia.
  - rewrite IH. change (Nat.ltb (S (optionRun l)) (S (length l)))
      with (Nat.ltb (optionRun l) (length l)).
    destruct (Nat.ltb (optionRun l) (length l)); [f_equal; lia | reflexivity].
Qed.

Lemma comma_run (l : list byte) :
  In ","%char l <-> optionRun l < length l.
Proof.
  split.
  - intros H. pose proof (optionRun_le l) as Hle.
    destruct (Nat.eq_dec (optionRun l) (length l)) as [E|]; [|lia].
    exfalso. apply (optionRun_noComma l). rewrite E, firstn_all. exact H.
  - intros H. rewrite (optionRun_comma l H). apply in_or_app. right. left.
    reflexivity.
Qed.

(** parseTag cuts a tag at its first comma: the name holds no comma; a tag
    with a comma is the name, the comma and the options, and its fields are
    the name followed by the fields of the options; a tag without a comma is
    all name, with no options. *)
Theorem parseTag_splits :
  forall tag : list byte,
    exists name opts,
      parseTag tag = (name, opts)
      /\ ~ In ","%char name
      /\ (In ","%char tag ->
          tag = name ++ ","%char :: opts
          /\ tagFields tag = name :: tagFields opts)
      /\ (~ In ","%char tag -> name = tag /\ opts = []).
Proof.
  intros tag. destruct tag as [|c t].
  - exists [], []. split; [reflexivity|]. split; [tauto|].
    split; [intros []|]. intros _. split; reflexivity.
  - unfold parseTag. rewrite firstComma_run. cbn [Nat.add].
    set (tag := c :: t).
    destruct (Nat.ltb_spec (optionRun tag) (length tag)) as [Hlt|Hge].
    + exists (sub tag 0 (optionRun tag)), (skipn (optionRun tag + 1) tag).
      assert (Hn : sub tag 0 (optionRun tag) = firstn (optionRun tag) tag).
      { unfold sub. rewrite skipn_O, Nat.sub_0_r. reflexivity. }
      rewrite Hn. replace (optionRun tag + 1) with (S (optionRun tag)) by lia.
      split; [reflexivity|]. split; [apply optionRun_noComma|].
      split.
      * intros _. split; [apply optionRun_comma; exact Hlt|].
        unfold tagFields. rewrite (splitCommas_cur tag []). cbn [app].
        f_equal. pose proof (optionRun_comma tag Hlt) as E.
        assert (Hs : skipn (optionRun tag) tag
                     = ","%char :: skipn (S (optionRun tag)) tag).
        { rewrite E at 2. rewrite skipn_app.
          rewrite length_firstn.
          replace (Nat.min (optionRun tag) (length tag)) with (optionRun tag)
            by lia.
          rewrite Nat.sub_diag, skipn_O.
          rewrite skipn_all2 by (rewrite length_firstn; lia).
          reflexivity. }
        rewrite Hs. reflexivity.
      * intros H. exfalso. apply H. apply comma_run. exact Hlt.
    + exists tag, []. split; [reflexivity|].
      assert (Hno : ~ In ","%char tag)
        by (intros H; apply comma_run in H; lia).
      split; [exact Hno|]. split; [intros H; tauto|].
      intros _. split; reflexivity.
Qed.

(** * parseStringToBuffer *)

(** The bytes before the offset: what has been written so far. *)
Lemma written_next b c :
  off b <= cap b ->
  exists b',
    WriteByte b c = Some b'
    /\ off b' <= cap b'
    /\ firstn (off b') (buf b' ++ spare b')
       = firstn (off b) (buf b ++ spare b) ++ [c].
Proof.
  intros Hoff.
  destruct (@WriteByte_copyOut b c Hoff) as (b' & E & O & L & _ & C).
  assert (Hcap : off b' <= cap b') by (unfold cap; lia).
  exists b'. split; [exact E|]. split; [exact Hcap|].
  rewrite copyOut_Some in C by exact Hcap. injection C as C. exact C.
Qed.

Lemma scanToBuffer_true l :
  forall i e b,
    off b <= cap b -> scanString l i = (true, e) ->
    exists b',
      scanToBuffer l i b = Some (true, e, b')
      /\ off b' <= cap b'
      /\ firstn (off b') (buf b' ++ spare b')
         = firstn (off b) (buf b ++ spare b)
           ++ dropBackslashes (firstn (e - 1 - i) l).
Proof.
  induction l as [l IH] using (induction_ltof1 _ (@length byte)).
  unfold ltof in IH. intros i e b Hoff.
  destruct l as [|c l']; cbn [scanString scanToBuffer]; [discriminate|].
  destruct (beq c cBackslash) eqn:Eb.
  - destruct l' as [|c' l'']; [discriminate|]. intros Hs.
    pose proof (scanString_true_bound _ _ Hs) as Hb.
    destruct (@written_next b c' Hoff) as (b1 & -> & H1 & P1).
    destruct (IH l'' ltac:(cbn [length]; lia) _ _ b1 H1 Hs)
      as (b' & -> & H' & P').
    exists b'. split; [reflexivity|]. split; [exact H'|].
    rewrite P', P1, <- app_assoc. f_equal.
    replace (e - 1 - i) with (S (S (e - 1 - (i + 2)))) by lia.
    cbn [firstn dropBackslashes app]. rewrite Eb. reflexivity.
  - destruct (beq c cQuote) eqn:Eq.
    + intros Hs. injection Hs as <-. exists b.
      split; [reflexivity|]. split; [exact Hoff|].
      replace (i + 1 - 1 - i) with 0 by lia.
      cbn [firstn dropBackslashes]. rewrite app_nil_r. reflexivity.
    + intros Hs.
      pose proof (scanString_true_bound _ _ Hs) as Hb.
      destruct (@written_next b c Hoff) as (b1 & -> & H1 & P1).
      destruct (IH l' ltac:(cbn [length]; lia) _ _ b1 H1 Hs)
        as (b' & -> & H' & P').
      exists b'. split; [reflexivity|]. split; [exact H'|].
      rewrite P', P1, <- app_assoc. f_equal.
      replace (e - 1 - i) with (S (e - 1 - (i + 1))) by lia.
      cbn [firstn dropBackslashes app]. rewrite Eb. reflexivity.
Qed.

Lemma scanToBuffer_token l :
  forall i b ok e b',
    scanToBuffer l i b = Some (ok, e, b') -> scanString l i = (ok, e).
Proof.
  induction l as [l IH] using (induction_ltof1 _ (@length byte)).
  unfold ltof in IH. intros i b ok e b'.
  destruct l as [|c l']; cbn [scanString scanToBuffer].
  - intros H. injection H as <- <- _. reflexivity.
  - destruct (beq c cBackslash).
    + destruct l' as [|c' l'']; [discriminate|].
      destruct (WriteByte b c') as [b1|]; [|discriminate].
      apply IH. cbn [length]. lia.
    + destruct (beq c cQuote).
      * intros H. injection H as <- <- _. reflexivity.
      * destruct (WriteByte b c) as [b1|]; [|discriminate].
        apply IH. cbn [length]. lia.
Qed.

(** parseStringToBuffer lexes what parseString lexes.  Where parseString
    returns a string token, parseStringToBuffer returns the token with the
    cursor at the same place, whatever the buffer held, and leaves in the
    buffer, from offset 0 on, the text between the quotes with every
    backslash dropped and the byte after it kept as it is (an escape is not
    decoded); and it returns a string token only where parseString does. *)
Theorem parseStringToBuffer_agrees :
  forall (p : Parser) (b : Buffer),
    (forall s p',
        parseString p = (TokenString, s, p') ->
        exists b',
          parseStringToBuffer p b = Some (TokenString, p', b')
          /\ off b' = length (dropBackslashes s)
          /\ copyOut b' = Some (dropBackslashes s))
    /\ (forall p' b',
           parseStringToBuffer p b = Some (TokenString, p', b') ->
           exists s, parseString p = (TokenString, s, p')).
Proof.
  intros p b. unfold parseString, parseStringToBuffer. split.
  - intros s p'.
    destruct (at_ (data p) (pos p)) as [c|]; [|discriminate].
    destruct (beq c cQuote); [|discriminate].
    destruct (scanString (skipn (S (pos p)) (data p)) (S (pos p)))
      as [[|] e] eqn:Es; [|discriminate].
    intros H. injection H as <- <-.
    set (b0 := mkBuffer (buf b) (spare b) 0).
    assert (H0 : off b0 <= cap b0) by apply Nat.le_0_l.
    destruct (@scanToBuffer_true _ _ _ b0 H0 Es) as (b' & -> & H' & P').
    exists b'. split; [reflexivity|].
    subst b0. cbn [off firstn app] in P'.
    assert (Hsub : sub (data p) (pos p + 1) (e - 1)
                   = firstn (e - 1 - S (pos p)) (skipn (S (pos p)) (data p))).
    { unfold sub. replace (pos p + 1) with (S (pos p)) by lia. reflexivity. }
    rewrite Hsub, <- P'. split.
    + rewrite length_firstn, <- cap_length. lia.
    + apply copyOut_Some. exact H'.
  - intros p' b'.
    destruct (at_ (data p) (pos p)) as [c|]; [|discriminate].
    destruct (beq c cQuote); [|discriminate].
    destruct (scanToBuffer (skipn (S (pos p)) (data p)) (S (pos p))
                           (mkBuffer (buf b) (spare b) 0))
      as [[[ok e] b1]|] eqn:Es; [|discriminate].
    apply scanToBuffer_token in Es. rewrite Es.
    destruct ok; [|discriminate].
    intros H. injection H as <- _. eexists. reflexivity.
Qed.

(** * The streaming decoder on a value that lies in its window *)

Lemma consumed_nil d : consumed d [] = d.
Proof.
  destruct d as [db tb sr rp un]. unfold consumed.
  cbn [dbuf tokenBuf src readPos useNumber length].
  rewrite app_nil_r, Nat.add_0_r. reflexivity.
Qed.

Lemma consumed_cons d c l : consumed (consumed d [c]) l = consumed d (c :: l).
Proof.
  unfold consumed. cbn [dbuf tokenBuf src readPos useNumber length].
  rewrite <- app_assoc. f_equal. lia.
Qed.

Lemma consumed_app d a b : consumed (consumed d a) b = consumed d (a ++ b).
Proof.
  unfold consumed. cbn [dbuf tokenBuf src readPos useNumber].
  rewrite <- app_assoc, length_app. f_equal. lia.
Qed.

(** The loop at a byte of the window: no refill, and the byte is read. *)
Lemma window_byte d c tl :
  skipn (readPos d) (dbuf d) = c :: tl ->
  Nat.leb (length (dbuf d)) (readPos d) = false
  /\ at_ (dbuf d) (readPos d) = Some c.
Proof.
  intros H. split.
  - apply Nat.leb_gt.
    assert (L : length (skipn (readPos d) (dbuf d)) = S (length tl))
      by (rewrite H; reflexivity).
    rewrite length_skipn in L. lia.
  - rewrite at_skipn, H. reflexivity.
Qed.

(** One quiet turn of the loop. *)
Lemma loop_quiet f d st pl c tl st' :
  skipn (readPos d) (dbuf d) = c :: tl ->
  length (tokenBuf d) + 1 < 4096 ->
  quietStep st c = Some st' ->
  readValueLoop (S f) d st pl = readValueLoop f (consumed d [c]) st' pl.
Proof.
  intros Hw Hlen Hq. destruct (window_byte _ Hw) as [Hleb Hat].
  cbn [readValueLoop]. rewrite Hleb, Hat.
  assert (Hsmall : Nat.leb 4096 (length (tokenBuf d ++ [c])) = false).
  { apply Nat.leb_gt. rewrite length_app. cbn [length]. lia. }
  unfold consumed. cbn [length]. replace (readPos d + 1) with (S (readPos d)) by lia.
  unfold quietStep in Hq. unfold setTokenBuf. cbn [tokenBuf dbuf src readPos useNumber].
  rewrite Hsmall.
  destruct st as [dp ins esc bufs fc].
  cbn [depth_ inString escaped buffers firstChar stepDepth] in *.
  destruct ins.
  - destruct esc; [injection Hq as <-; reflexivity|].
    destruct (beq c cBackslash); [injection Hq as <-; reflexivity|].
    destruct (beq c cQuote); [|injection Hq as <-; reflexivity].
    destruct ((dp =? 0)%Z && beq fc cQuote); [discriminate|].
    injection Hq as <-. reflexivity.
  - destruct (beq c cQuote); [injection Hq as <-; reflexivity|].
    destruct (beq c "{" || beq c "["); [injection Hq as <-; reflexivity|].
    destruct (beq c "}" || beq c "]").
    + destruct (Z.leb_spec (dp + -1) 0) as [|Hpos]; [discriminate|].
      injection Hq as <-.
      destruct (Z.eqb_spec (dp + -1) 0); [lia|].
      destruct (Z.ltb_spec (dp + -1) 0); [lia|]. reflexivity.
    + destruct (isWhitespace c).
      * destruct (dp =? 0)%Z; [discriminate|]. injection Hq as <-.
        reflexivity.
      * destruct (beq c "," || beq c ":"); [|injection Hq as <-; reflexivity].
        destruct (dp =? 0)%Z; [discriminate|]. injection Hq as <-.
        reflexivity.
Qed.

(** A quiet run of the loop over the bytes [l] of the window. *)
Lemma loop_quiet_run l :
  forall f d st pl tl st',
    skipn (readPos d) (dbuf d) = l ++ tl ->
    length (tokenBuf d) + length l < 4096 ->
    quietRun st l = Some st' ->
    readValueLoop (length l + f) d st pl
    = readValueLoop f (consumed d l) st' pl.
Proof.
  induction l as [|c l IH]; intros f d st pl tl st' Hw Hlen Hq.
  - cbn [quietRun] in Hq. injection Hq as <-. rewrite consumed_nil.
    reflexivity.
  - cbn [quietRun] in Hq. destruct (quietStep st c) as [st1|] eqn:E1;
      [|discriminate].
    cbn [length] in Hlen. cbn [length Nat.add app] in *.
    rewrite (@loop_quiet _ d st pl c (l ++ tl) st1 Hw ltac:(lia) E1).
    rewrite (IH f (consumed d [c]) st1 pl tl st').
    + rewrite consumed_cons. reflexivity.
    + unfold consumed. cbn [dbuf readPos length].
      replace (readPos d + 1) with (S (readPos d)) by lia.
      apply view_next with (x := c). exact Hw.
    + unfold consumed. cbn [tokenBuf]. rewrite length_app. cbn [length]. lia.
    + exact Hq.
Qed.

Lemma quietRun_app a : forall st b,
  quietRun st (a ++ b)
  = match quietRun st a with
    | Some st' => quietRun st' b
    | None => None
    end.
Proof.
  induction a as [|c a IH]; intros st b; cbn [app quietRun]; [reflexivity|].
  destruct (quietStep st c); [apply IH | reflexivity].
Qed.

(** *** Bytes that keep the loop going *)

Lemma inert_facts c :
  inertByte c = true ->
  beq c cQuote = false /\ beq c "{" = false /\ beq c "[" = false
  /\ beq c "}" = false /\ beq c "]" = false /\ isWhitespace c = false
  /\ beq c "," = false /\ beq c ":" = false.
Proof. byte_cases c. Qed.

Lemma ws_quiet_facts c :
  isWhitespace c = true ->
  beq c cQuote = false /\ beq c "{" = false /\ beq c "[" = false
  /\ beq c "}" = false /\ beq c "]" = false.
Proof. byte_cases c. Qed.

Lemma digit_inert c : isDigit c = true -> inertByte c = true.
Proof. byte_cases c. Qed.

Lemma marker_inert c : beq c "e" || beq c "E" = true -> inertByte c = true.
Proof. byte_cases c. Qed.

Lemma sign_inert c : beq c "+" || beq c "-" = true -> inertByte c = true.
Proof. byte_cases c. Qed.

Lemma digits_inert ds : allDigits ds = true -> forallb inertByte ds = true.
Proof.
  induction ds as [|c ds IH]; simpl; [reflexivity|]. intros H.
  apply andb_true_iff in H as [Hc H]. rewrite (digit_inert _ Hc). auto.
Qed.

Lemma number_inert n : wfNum n = true -> forallb inertByte (renderNum n) = true.
Proof.
  destruct n as [neg int frac e]. unfold wfNum, renderNum.
  cbn [numNeg numInt numFrac numExp]. intros H.
  apply andb_true_iff in H as [H He]. apply andb_true_iff in H as [Hi Hf].
  rewrite !forallb_app.
  assert (H1 : forallb inertByte (if neg then ["-"%char] else []) = true)
    by (destruct neg; reflexivity).
  assert (H2 : forallb inertByte int = true).
  { destruct int as [|d ds]; [discriminate|]. cbn [wfInt] in Hi.
    apply andb_true_iff in Hi as [Hi _]. apply andb_true_iff in Hi as [Hd Hds].
    cbn [forallb]. rewrite (digit_inert _ Hd), (digits_inert _ Hds).
    reflexivity. }
  assert (H3 : forallb inertByte (renderFrac frac) = true).
  { destruct frac as [ds|]; [|reflexivity]. cbn [wfFrac renderFrac] in *.
    apply andb_true_iff in Hf as [_ Hds]. cbn [forallb].
    rewrite (digits_inert _ Hds). reflexivity. }
  assert (H4 : forallb inertByte (renderExp e) = true).
  { destruct e as [[[m sg] ds]|]; [|reflexivity]. cbn [wfExp renderExp] in *.
    apply andb_true_iff in He as [He Hds]. apply andb_true_iff in He as [He _].
    apply andb_true_iff in He as [Hm Hsg].
    cbn [forallb]. rewrite forallb_app, (marker_inert _ Hm), (digits_inert _ Hds).
    destruct sg as [|sc [|sc' sg]]; [reflexivity| |discriminate].
    cbn [wfSign] in Hsg. cbn [forallb]. rewrite (sign_inert _ Hsg).
    reflexivity. }
  repeat (apply andb_true_iff; split); assumption.
Qed.

Lemma quiet_inert l : forall st,
  inString st = false -> forallb inertByte l = true ->
  quietRun st l = Some st.
Proof.
  induction l as [|c l IH]; intros st Hs Hl; [reflexivity|].
  cbn [forallb] in Hl. apply andb_true_iff in Hl as [Hc Hl].
  destruct (inert_facts _ Hc) as (H1 & H2 & H3 & H4 & H5 & H6 & H7 & H8).
  cbn [quietRun]. unfold quietStep.
  rewrite Hs, H1, H2, H3, H4, H5, H6, H7, H8. cbn [orb].
  apply IH; assumption.
Qed.

Lemma quiet_ws w : forall st,
  inString st = false -> depth_ st <> 0%Z -> allWs w = true ->
  quietRun st w = Some st.
Proof.
  induction w as [|c w IH]; intros st Hs Hd Hw; [reflexivity|].
  cbn [allWs forallb] in Hw. apply andb_true_iff in Hw as [Hc Hw].
  destruct (ws_quiet_facts _ Hc) as (H1 & H2 & H3 & H4 & H5).
  cbn [quietRun]. unfold quietStep.
  rewrite Hs, H1, H2, H3, H4, H5, Hc. cbn [orb].
  destruct (Z.eqb_spec (depth_ st) 0); [contradiction|].
  apply IH; assumption.
Qed.

(** Inside a string: the items of a well-formed string never end it. *)
Lemma quiet_items s dp bufs fc :
  wfString s = true ->
  quietRun (mkFraming dp true false bufs fc) (renderItems s)
  = Some (mkFraming dp true false bufs fc).
Proof.
  induction s as [|it s IH]; intros Hs; [reflexivity|].
  cbn [wfString forallb] in Hs. apply andb_true_iff in Hs as [Hit Hs].
  change (renderItems (it :: s)) with (renderItem it ++ renderItems s).
  rewrite quietRun_app.
  assert (Hone : quietRun (mkFraming dp true false bufs fc) (renderItem it)
                 = Some (mkFraming dp true false bufs fc)).
  { destruct it as [c|c|h1 h2 h3 h4]; cbn [renderItem wfItem] in *.
    - apply andb_true_iff in Hit as [Hit _].
      apply andb_true_iff in Hit as [Hq Hb].
      apply negb_true_iff in Hq, Hb.
      cbn [quietRun]. unfold quietStep. cbn [inString escaped].
      rewrite Hb, Hq. reflexivity.
    - reflexivity.
    - apply andb_true_iff in Hit as [Hit H4].
      apply andb_true_iff in Hit as [Hit H3].
      apply andb_true_iff in Hit as [H1 H2].
      destruct (hex_facts _ H1) as [A1 B1]. destruct (hex_facts _ H2) as [A2 B2].
      destruct (hex_facts _ H3) as [A3 B3]. destruct (hex_facts _ H4) as [A4 B4].
      cbn [quietRun]. unfold quietStep.
      cbn [inString escaped depth_ buffers firstChar].
      change (beq cBackslash cBackslash) with true. cbv iota.
      cbn [inString escaped depth_ buffers firstChar].
      rewrite A1, B1. cbn [inString escaped depth_ buffers firstChar].
      rewrite A2, B2. cbn [inString escaped depth_ buffers firstChar].
      rewrite A3, B3. cbn [inString escaped depth_ buffers firstChar].
      rewrite A4, B4. reflexivity. }
  rewrite Hone. apply IH. exact Hs.
Qed.

(** A string below the top level, or in a value that is not a string. *)
Lemma quiet_string s dp bufs fc :
  wfString s = true -> dp <> 0%Z ->
  quietRun (mkFraming dp false false bufs fc) (renderString s)
  = Some (mkFraming dp false false bufs fc).
Proof.
  intros Hs Hd. unfold renderString. cbn [quietRun]. unfold quietStep at 1.
  cbn [inString escaped depth_ buffers firstChar].
  change (beq cQuote cQuote) with true. cbv iota.
  rewrite quietRun_app, quiet_items by exact Hs.
  cbn [quietRun]. unfold quietStep.
  cbn [inString escaped depth_ buffers firstChar].
  change (beq cQuote cBackslash) with false.
  change (beq cQuote cQuote) with true. cbv iota.
  destruct (Z.eqb_spec dp 0); [contradiction|]. reflexivity.
Qed.

Lemma quiet_byte st c st' l :
  quietStep st c = Some st' -> quietRun st (c :: l) = quietRun st' l.
Proof. intros H. cbn [quietRun]. rewrite H. reflexivity. Qed.

Lemma quiet_open dp bufs fc c :
  c = "{"%char \/ c = "["%char ->
  quietStep (mkFraming dp false false bufs fc) c
  = Some (mkFraming (dp + 1) false false bufs fc).
Proof. intros [->| ->]; reflexivity. Qed.

Lemma quiet_close dp bufs fc c :
  c = "}"%char \/ c = "]"%char -> (0 < dp)%Z ->
  quietStep (mkFraming (dp + 1) false false bufs fc) c
  = Some (mkFraming dp false false bufs fc).
Proof.
  intros Hc Hd. unfold quietStep, stepDepth.
  cbn [inString escaped depth_ buffers firstChar].
  replace (dp + 1 + -1)%Z with dp by lia.
  destruct (Z.leb_spec dp 0); [lia|].
  destruct Hc as [->| ->]; reflexivity.
Qed.

Lemma quiet_sep dp bufs fc c :
  c = ","%char \/ c = ":"%char -> dp <> 0%Z ->
  quietStep (mkFraming dp false false bufs fc) c
  = Some (mkFraming dp false false bufs fc).
Proof.
  intros Hc Hd. unfold quietStep.
  cbn [inString escaped depth_ buffers firstChar].
  destruct (Z.eqb_spec dp 0); [contradiction|].
  destruct Hc as [->| ->]; reflexivity.
Qed.

(** Below the top level a well-formed value, a run of elements and a run of
    members leave the state of the loop as it was. *)
Lemma quiet_nested :
  (forall j, wfJson j = true -> forall dp bufs fc, (0 < dp)%Z ->
     quietRun (mkFraming dp false false bufs fc) (render j)
     = Some (mkFraming dp false false bufs fc))
  /\ (forall es, wfElems es = true -> forall dp bufs fc, (0 < dp)%Z ->
        quietRun (mkFraming dp false false bufs fc) (renderElems es)
        = Some (mkFraming dp false false bufs fc))
  /\ (forall ms, wfMembers ms = true -> forall dp bufs fc, (0 < dp)%Z ->
        quietRun (mkFraming dp false false bufs fc) (renderMembers ms)
        = Some (mkFraming dp false false bufs fc)).
Proof.
  apply Json_mutind.
  - intros _ dp bufs fc _. apply quiet_inert; reflexivity.
  - intros _ dp bufs fc _. apply quiet_inert; reflexivity.
  - intros _ dp bufs fc _. apply quiet_inert; reflexivity.
  - intros n Hn dp bufs fc _. apply quiet_inert; [reflexivity|].
    apply number_inert. exact Hn.
  - intros s Hs dp bufs fc Hd. apply quiet_string; [exact Hs | lia].
  - intros w es IH H dp bufs fc Hd. cbn [wfJson] in H.
    apply andb_true_iff in H as [Hw Hes]. cbn [render].
    rewrite (@quiet_byte _ _ _ _ (@quiet_open dp bufs fc "[" (or_intror eq_refl))).
    rewrite quietRun_app, quiet_ws by (try assumption; cbn [depth_ inString]; try reflexivity; lia).
    rewrite quietRun_app, IH by (try assumption; lia).
    erewrite quiet_byte by (apply quiet_close; [right; reflexivity | exact Hd]).
    reflexivity.
  - intros w ms IH H dp bufs fc Hd. cbn [wfJson] in H.
    apply andb_true_iff in H as [Hw Hms]. cbn [render].
    rewrite (@quiet_byte _ _ _ _ (@quiet_open dp bufs fc "{" (or_introl eq_refl))).
    rewrite quietRun_app, quiet_ws by (try assumption; cbn [depth_ inString]; try reflexivity; lia).
    rewrite quietRun_app, IH by (try assumption; lia).
    erewrite quiet_byte by (apply quiet_close; [left; reflexivity | exact Hd]).
    reflexivity.
  - intros _ dp bufs fc _. reflexivity.
  - intros wb v IHv wa more IHm H dp bufs fc Hd. cbn [wfElems] in H.
    apply andb_true_iff in H as [H Hmore]. apply andb_true_iff in H as [H Hwa].
    apply andb_true_iff in H as [Hwb Hv]. cbn [renderElems].
    rewrite quietRun_app, quiet_ws by (try assumption; cbn [depth_ inString]; try reflexivity; lia).
    rewrite quietRun_app, IHv by assumption.
    rewrite quietRun_app, quiet_ws by (try assumption; cbn [depth_ inString]; try reflexivity; lia).
    destruct more as [|wb' v' wa' more']; [reflexivity|].
    rewrite (@quiet_byte _ _ _ _ (@quiet_sep dp bufs fc "," (or_introl eq_refl) ltac:(lia))).
    apply IHm; assumption.
  - intros _ dp bufs fc _. reflexivity.
  - intros wb key wk wv v IHv wa more IHm H dp bufs fc Hd. cbn [wfMembers] in H.
    apply andb_true_iff in H as [H Hmore]. apply andb_true_iff in H as [H Hwa].
    apply andb_true_iff in H as [H Hv]. apply andb_true_iff in H as [H Hwv].
    apply andb_true_iff in H as [H Hwk]. apply andb_true_iff in H as [Hwb Hkey].
    cbn [renderMembers].
    rewrite quietRun_app, quiet_ws by (try assumption; cbn [depth_ inString]; try reflexivity; lia).
    rewrite quietRun_app, quiet_string by (try assumption; lia).
    rewrite quietRun_app, quiet_ws by (try assumption; cbn [depth_ inString]; try reflexivity; lia).
    rewrite (@quiet_byte _ _ _ _ (@quiet_sep dp bufs fc ":" (or_intror eq_refl) ltac:(lia))).
    rewrite quietRun_app, quiet_ws by (try assumption; cbn [depth_ inString]; try reflexivity; lia).
    rewrite quietRun_app, IHv by assumption.
    rewrite quietRun_app, quiet_ws by (try assumption; cbn [depth_ inString]; try reflexivity; lia).
    destruct more as [|wb' key' wk' wv' v' wa' more']; [reflexivity|].
    rewrite (@quiet_byte _ _ _ _ (@quiet_sep dp bufs fc "," (or_introl eq_refl) ltac:(lia))).
    apply IHm; assumption.
Qed.

(** *** The turns of the loop that end a value *)

Lemma leaveWith_one d tb pl : leaveWith d [tb] pl = leave d (inl tb) pl.
Proof. reflexivity. Qed.

(** The bracket that closes the outermost container. *)
Lemma loop_close_top f d pl c tl bufs fc :
  skipn (readPos d) (dbuf d) = c :: tl ->
  (c = "}"%char /\ fc = "{"%char) \/ (c = "]"%char /\ fc = "["%char) ->
  readValueLoop (S f) d (mkFraming 1 false false bufs fc) pl
  = leaveWith (consumed d [c]) (bufs ++ [tokenBuf d ++ [c]]) pl.
Proof.
  intros Hw Hc. destruct (window_byte _ Hw) as [Hleb Hat].
  cbn [readValueLoop]. rewrite Hleb, Hat.
  unfold consumed. cbn [length].
  replace (readPos d + 1) with (S (readPos d)) by lia.
  cbn [depth_ inString escaped buffers firstChar stepDepth].
  destruct Hc as [[-> ->]|[-> ->]]; reflexivity.
Qed.

(** The quote that closes a string at the top level. *)
Lemma loop_string_top f d pl tl bufs :
  skipn (readPos d) (dbuf d) = cQuote :: tl ->
  readValueLoop (S f) d (mkFraming 0 true false bufs cQuote) pl
  = leaveWith (consumed d [cQuote]) (bufs ++ [tokenBuf d ++ [cQuote]]) pl.
Proof.
  intros Hw. destruct (window_byte _ Hw) as [Hleb Hat].
  cbn [readValueLoop]. rewrite Hleb, Hat.
  unfold consumed. cbn [length].
  replace (readPos d + 1) with (S (readPos d)) by lia.
  reflexivity.
Qed.

(** The whitespace byte after a literal or a number at the top level: the
    byte is not consumed. *)
Lemma loop_literal_top f d pl c tl fc :
  skipn (readPos d) (dbuf d) = c :: tl ->
  isWhitespace c = true -> inertByte fc = true ->
  isCompleteLiteral (tokenBuf d) = true ->
  readValueLoop (S f) d (mkFraming 0 false false [] fc) pl
  = Returns (mkDecoder (dbuf d) [] (src d) (readPos d) (useNumber d),
             inl (tokenBuf d), pl).
Proof.
  intros Hw Hc Hfc Hlit. destruct (window_byte _ Hw) as [Hleb Hat].
  destruct (ws_quiet_facts _ Hc) as (H1 & H2 & H3 & H4 & H5).
  destruct (inert_facts _ Hfc) as (F1 & F2 & F3 & _).
  cbn [readValueLoop]. rewrite Hleb, Hat.
  cbn [depth_ inString escaped buffers firstChar stepDepth].
  rewrite H1, H2, H3, H4, H5, Hc, F1, F2, F3. cbn [orb andb negb Z.eqb].
  rewrite removelast_last, Hlit. cbn [app AppendBuffers].
  unfold leave, setTokenBuf, setReadPos.
  cbn [dbuf tokenBuf src readPos useNumber].
  replace (S (readPos d) - 1) with (readPos d) by lia. reflexivity.
Qed.

Lemma forallb_head (l : list byte) c tl :
  forallb inertByte l = true -> l = c :: tl -> inertByte c = true.
Proof.
  intros H ->. cbn [forallb] in H. apply andb_true_iff in H as [H _]. exact H.
Qed.

(** A literal or a number: its bytes are inert and the loop takes them as
    one complete literal. *)
Lemma literal_token j :
  wfJson j = true ->
  match j with
  | JString _ | JArray _ _ | JObject _ _ => True
  | _ => forallb inertByte (render j) = true
         /\ isCompleteLiteral (render j) = true
  end.
Proof.
  destruct j as [| | |n|s|w es|w ms]; intros H; try exact I;
    try (split; reflexivity).
  cbn [render wfJson] in *. split.
  - apply number_inert. exact H.
  - apply isCompleteLiteral_render. exact H.
Qed.

(** The main loop on a well-formed value that lies in the window with what
    ends it: it returns the text of the value, with the read offset right
    after it. *)
Lemma loop_value j f d pl tl first rest0 :
  wfJson j = true -> terminated j tl = true ->
  render j = first :: rest0 ->
  tokenBuf d = [] ->
  skipn (readPos d) (dbuf d) = render j ++ tl ->
  length (render j) < 4095 ->
  readValueLoop (length (render j) + S f) d
                (mkFraming 0 false false [] first) pl
  = Returns (mkDecoder (dbuf d) [] (src d) (readPos d + length (render j))
                       (useNumber d),
             inl (render j), pl).
Proof.
  intros Hwf Hterm Hhead Htb Hw Hlen.
  assert (Hclose :
    forall body c st1,
      render j = body ++ [c] ->
      quietRun (mkFraming 0 false false [] first) body = Some st1 ->
      (forall f' d' tl',
          skipn (readPos d') (dbuf d') = c :: tl' ->
          readValueLoop (S f') d' st1 pl
          = leaveWith (consumed d' [c]) ([] ++ [tokenBuf d' ++ [c]]) pl) ->
      readValueLoop (length (render j) + S f) d
                    (mkFraming 0 false false [] first) pl
      = Returns (mkDecoder (dbuf d) [] (src d)
                           (readPos d + length (render j)) (useNumber d),
                 inl (render j), pl)).
  { intros body c st1 Eb Hq Hlast.
    rewrite Eb in Hw, Hlen |- *. rewrite length_app in Hlen |- *.
    cbn [length] in Hlen |- *. rewrite <- app_assoc in Hw. cbn [app] in Hw.
    replace (length body + 1 + S f) with (length body + S (S f)) by lia.
    rewrite (@loop_quiet_run body (S (S f)) d _ pl (c :: tl) st1 Hw
               ltac:(rewrite Htb; cbn [length]; lia) Hq).
    rewrite (Hlast (S f) (consumed d body) tl)
      by (unfold consumed; cbn [dbuf readPos]; apply view_app; exact Hw).
    cbn [app]. rewrite leaveWith_one. unfold leave, setTokenBuf, consumed.
    cbn [dbuf tokenBuf src readPos useNumber length].
    rewrite Htb. cbn [app]. rewrite Nat.add_assoc. reflexivity. }
  assert (Hlit :
    forallb inertByte (render j) = true ->
    isCompleteLiteral (render j) = true ->
    (exists c tl', tl = c :: tl' /\ isWhitespace c = true) ->
    readValueLoop (length (render j) + S f) d
                  (mkFraming 0 false false [] first) pl
    = Returns (mkDecoder (dbuf d) [] (src d)
                         (readPos d + length (render j)) (useNumber d),
               inl (render j), pl)).
  { intros Hin Hcl (c & tl' & -> & Hc).
    rewrite (@loop_quiet_run (render j) (S f) d _ pl (c :: tl') _ Hw
               ltac:(rewrite Htb; cbn [length]; lia)
               (@quiet_inert (render j) (mkFraming 0 false false [] first)
                             eq_refl Hin)).
    rewrite (@loop_literal_top f (consumed d (render j)) pl c tl' first).
    - unfold consumed. cbn [dbuf tokenBuf src readPos useNumber].
      rewrite Htb. reflexivity.
    - unfold consumed. cbn [dbuf readPos]. apply view_app. exact Hw.
    - exact Hc.
    - apply (@forallb_head _ _ _ Hin Hhead).
    - unfold consumed. cbn [tokenBuf]. rewrite Htb. exact Hcl. }
  assert (Hws : forall x, terminated x tl = true ->
                match x with
                | JString _ | JArray _ _ | JObject _ _ => True
                | _ => exists c tl', tl = c :: tl' /\ isWhitespace c = true
                end).
  { intros x Hx. destruct x; try exact I; cbn [terminated] in Hx;
      (destruct tl as [|c tl']; [discriminate|]; exists c, tl'; split;
       [reflexivity | exact Hx]). }
  pose proof (literal_token j Hwf) as Htok. specialize (Hws j Hterm).
  destruct j as [| | |n|s|w es|w ms].
  - destruct Htok. apply Hlit; assumption.
  - destruct Htok. apply Hlit; assumption.
  - destruct Htok. apply Hlit; assumption.
  - destruct Htok. apply Hlit; assumption.
  - cbn [render] in Hhead. unfold renderString in Hhead.
    injection Hhead as <- _. cbn [wfJson] in Hwf.
    apply (Hclose (cQuote :: renderItems s) cQuote
                  (mkFraming 0 true false [] cQuote)).
    + reflexivity.
    + cbn [quietRun]. unfold quietStep at 1.
      cbn [inString escaped depth_ buffers firstChar].
      change (beq cQuote cQuote) with true. cbv iota.
      apply quiet_items. exact Hwf.
    + intros f' d' tl' Hw'. apply loop_string_top with (tl := tl'). exact Hw'.
  - cbn [render] in Hhead. injection Hhead as <- _. cbn [wfJson] in Hwf.
    apply andb_true_iff in Hwf as [Hw0 Hes].
    apply (Hclose ("["%char :: w ++ renderElems es) "]"%char
                  (mkFraming 1 false false [] "[")).
    + cbn [render app]. rewrite <- app_assoc. reflexivity.
    + erewrite quiet_byte by (apply quiet_open; right; reflexivity).
      cbn [Z.add]. rewrite quietRun_app, quiet_ws
        by (try assumption; cbn [depth_ inString]; try reflexivity; lia).
      apply (proj1 (proj2 quiet_nested)); [exact Hes | lia].
    + intros f' d' tl' Hw'. apply loop_close_top with (tl := tl');
        [exact Hw' | right; split; reflexivity].
  - cbn [render] in Hhead. injection Hhead as <- _. cbn [wfJson] in Hwf.
    apply andb_true_iff in Hwf as [Hw0 Hms].
    apply (Hclose ("{"%char :: w ++ renderMembers ms) "}"%char
                  (mkFraming 1 false false [] "{")).
    + cbn [render app]. rewrite <- app_assoc. reflexivity.
    + erewrite quiet_byte by (apply quiet_open; left; reflexivity).
      cbn [Z.add]. rewrite quietRun_app, quiet_ws
        by (try assumption; cbn [depth_ inString]; try reflexivity; lia).
      apply (proj2 (proj2 quiet_nested)); [exact Hms | lia].
    + intros f' d' tl' Hw'. apply loop_close_top with (tl := tl');
        [exact Hw' | left; split; reflexivity].
Qed.

(** *** readValue and Decode *)

Lemma readValue_value j f d pl tl :
  wfJson j = true -> terminated j tl = true ->
  skipn (readPos d) (dbuf d) = render j ++ tl ->
  length (render j) < 4095 ->
  readValue (length (render j) + S f) d pl
  = Returns (mkDecoder (dbuf d) [] (src d) (readPos d + length (render j))
                       (useNumber d),
             inl (render j), pl).
Proof.
  intros Hwf Hterm Hw Hlen.
  destruct (render_head j Hwf) as (c & r & Hhead & Hstart).
  destruct (valueStart_facts _ Hstart) as (Hnows & _).
  assert (Hw0 : skipn (readPos (setTokenBuf d [])) (dbuf (setTokenBuf d []))
                = c :: r ++ tl).
  { cbn [setTokenBuf readPos dbuf]. rewrite Hw, Hhead. reflexivity. }
  destruct (window_byte _ Hw0) as [Hleb Hat].
  assert (Hne : Nat.eqb (length (dbuf (setTokenBuf d []))) 0 = false).
  { apply Nat.eqb_neq. apply Nat.leb_gt in Hleb. lia. }
  pose proof (@loop_value j f (setTokenBuf d []) pl tl c r Hwf Hterm Hhead
                eq_refl Hw Hlen) as Hloop.
  unfold readValue. cbv zeta. rewrite Hne, Hleb. cbn [orb]. cbv iota beta.
  rewrite Hat.
  remember (length (render j) + S f) as fuel eqn:Ef.
  destruct fuel as [|fuel']; [lia|].
  cbn [readValueWs]. rewrite Hat, Hnows, Hleb.
  exact Hloop.
Qed.

(** The decoder's skipWhitespace when a byte that is not whitespace lies in
    the window: no refill. *)
Lemma skipWhitespace_window f d w0 c tl :
  skipn (readPos d) (dbuf d) = w0 ++ c :: tl ->
  allWs w0 = true -> isWhitespace c = false ->
  decoderSkipWhitespace (S f) d
  = Returns (setReadPos d (readPos d + length w0), None).
Proof.
  intros Hw Hw0 Hc. rewrite decoderSkipWhitespace_S. cbv zeta.
  rewrite Hw, (wsRun_app w0 (c :: tl) Hw0 Hc).
  assert (L : length (skipn (readPos d) (dbuf d))
              = length w0 + S (length tl))
    by (rewrite Hw, length_app; reflexivity).
  rewrite length_skipn in L.
  cbn [setReadPos readPos dbuf].
  destruct (Nat.ltb_spec (readPos d + length w0) (length (dbuf d))); [|lia].
  reflexivity.
Qed.



Section DecodeWindow.

Variable float : Type.
Variable ParseFloat : list byte -> Z -> option float.
Variable OverflowFloat : Z -> float -> bool.
Variable floatZero : float.

(** Decode once its skipWhitespace has stopped in front of a value. *)
Lemma Decode_window j tl fuel d d1 t (dest : Value float) pl :
  decoderSkipWhitespace fuel d = Returns (d1, None) ->
  skipn (readPos d1) (dbuf d1) = render j ++ tl ->
  wfJson j = true -> terminated j tl = true ->
  length (render j) < 4095 -> length (render j) + 1 <= fuel ->
  Decode ParseFloat OverflowFloat floatZero fuel d t dest pl
  = decodeOutcome
      (Unmarshal ParseFloat OverflowFloat floatZero (render j) t dest)
      (mkDecoder (dbuf d1) [] (src d1) (readPos d1 + length (render j))
                 (useNumber d1))
      pl.
Proof.
  intros Hskip Hw Hwf Hterm Hlen Hfuel.
  unfold Decode. rewrite Hskip.
  replace fuel with (length (render j) + S (fuel - length (render j) - 1))
    at 1 by lia.
  rewrite (@readValue_value j _ d1 pl tl Hwf Hterm Hw Hlen).
  unfold decodeOutcome.
  destruct (Unmarshal ParseFloat OverflowFloat floatZero (render j) t dest)
    as [[[p' v'] [e|]]|]; reflexivity.
Qed.

(** A well-formed value that lies in the window of the decoder, after
    whitespace and with what ends it (the whitespace byte after a literal or
    a number; nothing for a string or a container), is decoded as Unmarshal
    decodes its text: Decode leaves the read offset right after the value and
    returns what Unmarshal makes of the text of the value, whatever follows
    it in the window and in the source. *)
Theorem Decode_buffered_value :
  forall (j : Json) (w0 tl : list byte) (d : Decoder) (t : GoType)
         (dest : Value float) (pl : Pools) (fuel : nat),
    wfJson j = true -> allWs w0 = true -> terminated j tl = true ->
    skipn (readPos d) (dbuf d) = w0 ++ render j ++ tl ->
    length (render j) < 4095 -> length (render j) + 2 <= fuel ->
    Decode ParseFloat OverflowFloat floatZero fuel d t dest pl
    = decodeOutcome
        (Unmarshal ParseFloat OverflowFloat floatZero (render j) t dest)
        (mkDecoder (dbuf d) [] (src d)
                   (readPos d + length w0 + length (render j)) (useNumber d))
        pl.
Proof.
  intros j w0 tl d t dest pl fuel Hwf Hw0 Hterm Hw Hlen Hfuel.
  destruct (render_head j Hwf) as (c & r & Hhead & Hstart).
  destruct (valueStart_facts _ Hstart) as (Hnows & _).
  destruct fuel as [|f]; [lia|].
  assert (Hskip : decoderSkipWhitespace (S f) d
                  = Returns (setReadPos d (readPos d + length w0), None)).
  { apply skipWhitespace_window with (c := c) (tl := r ++ tl);
      [|assumption|assumption].
    rewrite Hw, Hhead. reflexivity. }
  rewrite (@Decode_window j tl (S f) d _ t dest pl Hskip);
    try assumption; try lia.
  - reflexivity.
  - cbn [setReadPos readPos dbuf]. apply view_app. exact Hw.
Qed.


End DecodeWindow.

Lemma Decode_buffered_value_witness :
  (wfJson secondValue = true /\ allWs (B " ") = true
   /\ terminated secondValue (B " 4") = true
   /\ skipn 1 streamWindow = B " " ++ render secondValue ++ B " 4"
   /\ length (render secondValue) < 4095)
  /\ Decode noFloat noOverflow tt 10
            (mkDecoder streamWindow [] [] 1 false)
            (TSlice (TInt 64)) VNil initialPools
     = Returns (mkDecoder streamWindow [] [] 8 false,
                VSlice [VInt 2; VInt 3], None, initialPools).
Proof.
  split; [repeat split; apply Nat.ltb_lt; reflexivity|].
  rewrite (@Decode_buffered_value unit noFloat noOverflow tt secondValue
             (B " ") (B " 4") (mkDecoder streamWindow [] [] 1 false)
             (TSlice (TInt 64)) VNil initialPools 10
             eq_refl eq_refl eq_refl eq_refl
             ltac:(apply Nat.ltb_lt; reflexivity)
             ltac:(apply Nat.leb_le; reflexivity)).
  reflexivity.
Defined.

